(** * A shallow embedding of [interpreter.py]

    The program is an interactive interpreter for a small string language:
    raw lines are cut into statements ([get_user_input]), each statement is
    tokenised ([lexer]), checked against the statement rules ([Parser]) and
    executed on a shared symbol table ([Interpreter]).

    Conventions of the embedding.
    - Python [str] is [string], a character being a code point below 256;
      the regex classes [\w] and [\s] are the Unicode ones on that range.
    - A token is the tuple [(token_type, value)] of the source.
    - The class variable [Interpreter.symbol_table] and the console are
      fields of [world]; every method that prints or touches the table
      is a function in the monad [M], which also carries the exceptions
      Python raises ([TypeError] on [None[0]], [IndexError] on a list index
      out of range, [ValueError] from the lexer, [SystemExit] from [exit()]).
    - The two [while] loops run on fuel; [OutOfFuel] is the outcome of a
      loop that did not finish, and the fuel given is shown to be enough. *)

From Stdlib Require Import String Ascii List Sorted Arith Bool Lia ZArith.
From Stdlib Require Import DecimalString.
Import ListNotations.

Open Scope list_scope.
Open Scope string_scope.

(** ** Characters and strings *)

Definition dquote : ascii := "034"%char.
Definition backslash : ascii := "092"%char.
Definition newline : ascii := "010"%char.
Definition tab : ascii := "009"%char.
Definition semicolon : ascii := ";"%char.

(** One-character strings, to write the program's inputs. *)
Definition q : string := String dquote "".
Definition bs : string := String backslash "".
Definition nl : string := String newline "".

Definition in_range (lo hi : nat) (c : ascii) : bool :=
  let n := nat_of_ascii c in Nat.leb lo n && Nat.leb n hi.

(** [[a-zA-Z]] *)
Definition is_alpha (c : ascii) : bool := in_range 65 90 c || in_range 97 122 c.
(** [[a-zA-Z0-9]] *)
Definition is_alnum (c : ascii) : bool := is_alpha c || in_range 48 57 c.
(** [\w]: the ASCII letters and digits, the underscore, and the letters
    and numeric characters of the Latin-1 range. *)
Definition is_word (c : ascii) : bool :=
  is_alnum c || Ascii.eqb c "_"%char
  || in_range 170 170 c || in_range 178 179 c || in_range 181 181 c
  || in_range 185 186 c || in_range 188 190 c || in_range 192 214 c
  || in_range 216 246 c || in_range 248 255 c.
(** [\s]: tab, line feed, vertical tab, form feed, carriage return, the
    separators 28..31, the space, next line (133) and the no-break space
    (160). *)
Definition is_space (c : ascii) : bool :=
  in_range 9 13 c || in_range 28 32 c || in_range 133 133 c || in_range 160 160 c.

Definition head (s : string) : option ascii :=
  match s with
  | String c _ => Some c
  | EmptyString => None
  end.

Fixpoint last_char (before : option ascii) (s : string) : option ascii :=
  match s with
  | EmptyString => before
  | String c s' => last_char (Some c) s'
  end.

(** [s[:n]] *)
Fixpoint take (n : nat) (s : string) : string :=
  match n, s with
  | S n', String c s' => String c (take n' s')
  | _, _ => EmptyString
  end.

(** [s[n:]] *)
Fixpoint drop (n : nat) (s : string) : string :=
  match n, s with
  | S n', String _ s' => drop n' s'
  | _, _ => s
  end.

(** [s.count(c)] for a one-character [c]. *)
Fixpoint count (c : ascii) (s : string) : nat :=
  match s with
  | EmptyString => 0
  | String d s' => (if Ascii.eqb d c then 1 else 0) + count c s'
  end.

(** The longest prefix whose characters satisfy [f], and what follows it:
    a greedy [[...]*]. *)
Fixpoint span (f : ascii -> bool) (s : string) : string * string :=
  match s with
  | String c s' =>
      if f c then let (m, rest) := span f s' in (String c m, rest)
      else (EmptyString, s)
  | EmptyString => (EmptyString, EmptyString)
  end.

(** [s] without its prefix [p], when it has that prefix. *)
Fixpoint strip_prefix (p s : string) : option string :=
  match p with
  | EmptyString => Some s
  | String a p' =>
      match s with
      | String b s' => if Ascii.eqb a b then strip_prefix p' s' else None
      | EmptyString => None
      end
  end.

(** [' '.join(l)] *)
Fixpoint join (sep : string) (l : list string) : string :=
  match l with
  | [] => ""
  | [x] => x
  | x :: l' => x ++ sep ++ join sep l'
  end.

(** [str(n)] for a non-negative integer. *)
Definition str_of_nat (n : nat) : string := NilEmpty.string_of_uint (Nat.to_uint n).

(** ** Tokens and the pattern table *)

Inductive token_type : Set :=
  | APPEND | EXIT | LIST | PRINTLENGTH | PRINTWORDS | PRINTWORDCOUNT | PRINT
  | REVERSE | SET | CONSTANT | END | PLUS | ID | LITERAL | WHITESPACE.

Definition type_name (t : token_type) : string :=
  match t with
  | APPEND => "APPEND" | EXIT => "EXIT" | LIST => "LIST"
  | PRINTLENGTH => "PRINTLENGTH" | PRINTWORDS => "PRINTWORDS"
  | PRINTWORDCOUNT => "PRINTWORDCOUNT" | PRINT => "PRINT"
  | REVERSE => "REVERSE" | SET => "SET" | CONSTANT => "CONSTANT"
  | END => "END" | PLUS => "PLUS" | ID => "ID" | LITERAL => "LITERAL"
  | WHITESPACE => "WHITESPACE"
  end.

(** [==] on token types is [==] on their names. *)
Definition type_eqb (a b : token_type) : bool := String.eqb (type_name a) (type_name b).

Definition token : Set := token_type * string.

(** A pattern applied at a position: it sees the character before the
    position (for [\b]) and the text from the position on, and gives the
    matched text and the text after it. *)
Definition matcher : Set := option ascii -> string -> option (string * string).

Definition is_word_opt (c : option ascii) : bool :=
  match c with
  | Some c => is_word c
  | None => false
  end.

(** [\b] between two neighbouring characters (absent at the ends). *)
Definition word_boundary (before after : option ascii) : bool :=
  xorb (is_word_opt before) (is_word_opt after).

(** [\bkw\b] *)
Definition keyword (kw : string) : matcher := fun before s =>
  if word_boundary before (head s) then
    match strip_prefix kw s with
    | Some rest =>
        if word_boundary (last_char before kw) (head rest) then Some (kw, rest) else None
    | None => None
    end
  else None.

(** A literal piece of text, as [;] or [\+] or one branch of
    [TAB|SPACE|NEWLINE]. *)
Definition text (t : string) : matcher := fun _ s =>
  match strip_prefix t s with
  | Some rest => Some (t, rest)
  | None => None
  end.

(** [a|b]: the first branch that matches. *)
Definition alt (a b : matcher) : matcher := fun before s =>
  match a before s with
  | Some r => Some r
  | None => b before s
  end.

(** [[a-zA-Z][a-zA-Z0-9]*] *)
Definition identifier : matcher := fun _ s =>
  match s with
  | String c s' =>
      if is_alpha c then let (m, rest) := span is_alnum s' in Some (String c m, rest)
      else None
  | EmptyString => None
  end.

(** The part of a literal after its opening quote, up to and including the
    closing one: the regex loops over an escaped character or a character
    that is neither a quote nor a backslash, then wants the quote.  A
    backslash takes the next character with it, which [.] refuses to be a
    line feed. *)
Fixpoint literal_body (s : string) : option (string * string) :=
  match s with
  | EmptyString => None
  | String c s' =>
      if Ascii.eqb c dquote then Some (String c "", s')
      else if Ascii.eqb c backslash then
        match s' with
        | String d s'' =>
            if Ascii.eqb d newline then None
            else match literal_body s'' with
                 | Some (m, rest) => Some (String c (String d m), rest)
                 | None => None
                 end
        | EmptyString => None
        end
      else match literal_body s' with
           | Some (m, rest) => Some (String c m, rest)
           | None => None
           end
  end.

(** The LITERAL pattern: a quote, then [literal_body]. *)
Definition literal : matcher := fun _ s =>
  match s with
  | String c s' =>
      if Ascii.eqb c dquote then
        match literal_body s' with
        | Some (m, rest) => Some (String c m, rest)
        | None => None
        end
      else None
  | EmptyString => None
  end.

(** One or more characters satisfying [f]: [[...]+]. *)
Definition some_of (f : ascii -> bool) : matcher := fun _ s =>
  match span f s with
  | (String c m, rest) => Some (String c m, rest)
  | (EmptyString, _) => None
  end.

(** A backslash followed by one or more [c]: [\\t+] and [\\n+]. *)
Definition backslash_then (c : ascii) : matcher := fun before s =>
  match s with
  | String b s' =>
      if Ascii.eqb b backslash then
        match some_of (Ascii.eqb c) (Some b) s' with
        | Some (m, rest) => Some (String b m, rest)
        | None => None
        end
      else None
  | EmptyString => None
  end.

Definition patterns : list (token_type * matcher) :=
  [ (APPEND, keyword "append");
    (EXIT, keyword "exit");
    (LIST, keyword "list");
    (PRINTLENGTH, keyword "printlength");
    (PRINTWORDS, keyword "printwords");
    (PRINTWORDCOUNT, keyword "printwordcount");
    (PRINT, keyword "print");
    (REVERSE, keyword "reverse");
    (SET, keyword "set");
    (CONSTANT, alt (text "TAB") (alt (text "SPACE") (text "NEWLINE")));
    (END, text ";");
    (PLUS, text "+");
    (ID, identifier);
    (LITERAL, literal);
    (WHITESPACE, alt (some_of is_space)
                     (alt (backslash_then "t"%char) (backslash_then "n"%char))) ].

(** ** Outcomes *)

Inductive exn : Set :=
  | ValueError (msg : string)
  | TypeError
  | IndexError
  | SystemExit.

Inductive outcome (A : Type) : Type :=
  | Ret (a : A)
  | Raise (e : exn)
  | OutOfFuel.

Arguments Ret {A} a.
Arguments Raise {A} e.
Arguments OutOfFuel {A}.

(** ** The lexer *)

(** [value[1:-1]] *)
Fixpoint drop_last (s : string) : string :=
  match s with
  | EmptyString => EmptyString
  | String c EmptyString => EmptyString
  | String c s' => String c (drop_last s')
  end.

Definition strip_quotes (value : string) : string := drop_last (drop 1 value).

(** The [re.sub] of the lexer: every backslash-quote pair becomes a quote. *)
Fixpoint unescape (s : string) : string :=
  match s with
  | EmptyString => EmptyString
  | String c s' =>
      match s' with
      | String d s'' =>
          if Ascii.eqb c backslash && Ascii.eqb d dquote then String dquote (unescape s'')
          else String c (unescape s')
      | EmptyString => String c EmptyString
      end
  end.

(** The [for] loop over [patterns]: the first pattern that matches at the
    position. *)
Fixpoint first_match (ps : list (token_type * matcher)) (before : option ascii) (s : string)
  : option (token_type * string * string) :=
  match ps with
  | [] => None
  | (token_type, pattern) :: ps' =>
      match pattern before s with
      | Some (value, rest) => Some (token_type, value, rest)
      | None => first_match ps' before s
      end
  end.

Definition unexpected_token (pos : nat) (c : ascii) : string :=
  "Unexpected token entered at position " ++ str_of_nat pos ++ ": '"
  ++ String c "" ++ "'. Try input again".

(** The [while pos < len(input_string)] loop.  [s] is the input from [pos]
    on and [before] the character at [pos - 1]. *)
Fixpoint lexer_loop (fuel : nat) (before : option ascii) (s : string) (pos : nat)
  (tokens : list token) : outcome (list token) :=
  match s with
  | EmptyString => Ret tokens
  | String c _ =>
      match fuel with
      | 0 => OutOfFuel
      | S fuel' =>
          match first_match patterns before s with
          | Some (token_type, value, rest) =>
              let tokens' :=
                if type_eqb token_type WHITESPACE then tokens
                else if type_eqb token_type LITERAL
                     then (tokens ++ [(token_type, unescape (strip_quotes value))])%list
                     else (tokens ++ [(token_type, value)])%list in
              lexer_loop fuel' (last_char before value) rest (pos + String.length value) tokens'
          | None => Raise (ValueError (unexpected_token pos c))
          end
      end
  end.

Definition lexer (input_string : string) : outcome (list token) :=
  lexer_loop (String.length input_string) None input_string 0 [].

(** ** The world and the monad *)

(** The console and [Interpreter.symbol_table].  [handed] is a history
    variable, not program state: the statement texts [get_user_input] has
    passed to the lexer so far, oldest first. *)
Record world : Set := {
  symbol_table : list (string * string);
  stdout : list string;
  handed : list string
}.

Definition M (A : Type) : Type := world -> outcome A * world.

Definition ret {A : Type} (a : A) : M A := fun w => (Ret a, w).

Definition raise {A : Type} (e : exn) : M A := fun w => (Raise e, w).

Definition out_of_fuel {A : Type} : M A := fun w => (OutOfFuel, w).

Definition bind {A B : Type} (m : M A) (f : A -> M B) : M B := fun w =>
  match m w with
  | (Ret a, w') => f a w'
  | (Raise e, w') => (Raise e, w')
  | (OutOfFuel, w') => (OutOfFuel, w')
  end.

Notation "x <- m ;; k" := (bind m (fun x => k))
  (at level 61, m at next level, right associativity).
Notation "m ;; k" := (bind m (fun _ => k))
  (at level 61, right associativity).

(** [print(line)] *)
Definition print (line : string) : M unit := fun w =>
  (Ret tt, {| symbol_table := symbol_table w;
              stdout := (stdout w ++ [line])%list;
              handed := handed w |}).

Definition get_table : M (list (string * string)) := fun w => (Ret (symbol_table w), w).

Definition put_table (t : list (string * string)) : M unit := fun w =>
  (Ret tt, {| symbol_table := t; stdout := stdout w; handed := handed w |}).

Definition note_handed (input_to_process : string) : M unit := fun w =>
  (Ret tt, {| symbol_table := symbol_table w;
              stdout := stdout w;
              handed := (handed w ++ [input_to_process])%list |}).

(** ** The Interpreter *)

(** [get_table_record]: the first record whose name is [target_var]. *)
Fixpoint get_table_record (target_var : string) (table : list (string * string))
  : option (string * string) :=
  match table with
  | [] => None
  | record :: table' =>
      if String.eqb (fst record) target_var then Some record
      else get_table_record target_var table'
  end.

Definition record_eqb (a b : string * string) : bool :=
  String.eqb (fst a) (fst b) && String.eqb (snd a) (snd b).

(** [list.index]: the position of the first element equal to [record]. *)
Fixpoint index (record : string * string) (table : list (string * string)) : option nat :=
  match table with
  | [] => None
  | r :: table' =>
      if record_eqb r record then Some 0
      else match index record table' with
           | Some i => Some (S i)
           | None => None
           end
  end.

(** [table[i] = v], when [i] is a position of the list. *)
Fixpoint assign (table : list (string * string)) (i : nat) (v : string * string)
  : option (list (string * string)) :=
  match table, i with
  | [], _ => None
  | _ :: table', 0 => Some (v :: table')
  | r :: table', S i' =>
      match assign table' i' v with
      | Some t => Some (r :: t)
      | None => None
      end
  end.

(** [index = Interpreter.symbol_table.index(record)] followed by
    [Interpreter.symbol_table[index] = v].  The [ValueError] of [index] is
    never raised, because [record] was just read from the table; its text
    stands for the one Python would build. *)
Definition update_record (record v : string * string) : M unit :=
  table <- get_table ;;
  match index record table with
  | None => raise (ValueError ("('" ++ fst record ++ "', '" ++ snd record ++ "') is not in list"))
  | Some i =>
      match assign table i v with
      | None => raise IndexError
      | Some table' => put_table table'
      end
  end.

(** [self.tokens[i]] *)
Definition token_at (tokens : list token) (i : nat) : M token :=
  match nth_error tokens i with
  | Some t => ret t
  | None => raise IndexError
  end.

(** The body of the [for i in range(start, end + 1)] loop of
    [eval_expression], over the indices still to visit. *)
Fixpoint eval_loop (tokens : list token) (indices : list nat) (concat_str : string)
  : M (option string) :=
  match indices with
  | [] => ret (Some concat_str)
  | i :: indices' =>
      tv <- token_at tokens i ;;
      let (token, value) := tv : token in
      match token with
      | ID =>
          table <- get_table ;;
          match get_table_record value table with
          | Some record => eval_loop tokens indices' (concat_str ++ snd record)
          | None =>
              print ("ERROR: the variable " ++ value ++ " does not exist") ;;
              ret None
          end
      | LITERAL => eval_loop tokens indices' (concat_str ++ value)
      | CONSTANT =>
          if String.eqb value "SPACE" then eval_loop tokens indices' (concat_str ++ " ")
          else if String.eqb value "TAB" then eval_loop tokens indices' (concat_str ++ String tab "")
          else eval_loop tokens indices' (concat_str ++ String newline "")
      | _ => eval_loop tokens indices' concat_str
      end
  end.

(** [range(start, stop)] *)
Definition range (start stop : nat) : list nat := seq start (stop - start).

Definition eval_expression (tokens : list token) (start end_ : nat) : M (option string) :=
  eval_loop tokens (range start (end_ + 1)) "".

Definition do_append (tokens : list token) (expr_start expr_end : nat) : M unit :=
  id_token <- token_at tokens 1 ;;
  let var_name := snd id_token in
  evaluated_expr <- eval_expression tokens expr_start expr_end ;;
  table <- get_table ;;
  match get_table_record var_name table with
  | Some record =>
      match evaluated_expr with
      | Some evaluated =>
          let updated_value := snd record ++ evaluated in
          update_record record (var_name, updated_value)
      | None => ret tt
      end
  | None =>
      print ("ERROR: the variable name " ++ var_name ++ " does not exist, append failed!")
  end.

Definition do_set (tokens : list token) (expr_start expr_end : nat) : M unit :=
  id_token <- token_at tokens 1 ;;
  let var_name := snd id_token in
  evaluated_expr <- eval_expression tokens expr_start expr_end ;;
  table <- get_table ;;
  let record := get_table_record var_name table in
  match evaluated_expr with
  | Some evaluated =>
      match record with
      | Some record => update_record record (var_name, evaluated)
      | None => put_table (table ++ [(var_name, evaluated)])%list
      end
  | None => ret tt
  end.

Definition next_is_alnum (s : string) : bool :=
  match s with
  | String c _ => is_alnum c
  | EmptyString => false
  end.

(** [re.findall] of the word pattern: an optional apostrophe, a run of
    letters and digits, any number of groups made of an apostrophe or a
    hyphen and another run, an optional closing apostrophe.  [word] is the
    match in progress. *)
Fixpoint findall_words (s : string) (word : option string) : list string :=
  match s with
  | EmptyString =>
      match word with
      | Some w => [w]
      | None => []
      end
  | String c s' =>
      match word with
      | None =>
          if is_alnum c then findall_words s' (Some (String c ""))
          else if Ascii.eqb c "'"%char && next_is_alnum s'
               then findall_words s' (Some (String c ""))
               else findall_words s' None
      | Some w =>
          if is_alnum c then findall_words s' (Some (w ++ String c ""))
          else if (Ascii.eqb c "'"%char || Ascii.eqb c "-"%char) && next_is_alnum s'
               then findall_words s' (Some (w ++ String c ""))
               else if Ascii.eqb c "'"%char
                    then (w ++ String c "") :: findall_words s' None
                    else w :: findall_words s' None
      end
  end.

Definition words_of (s : string) : list string := findall_words s None.

Definition reverse (tokens : list token) : M unit :=
  id_token <- token_at tokens 1 ;;
  let var_name := snd id_token in
  table <- get_table ;;
  match get_table_record var_name table with
  | Some record =>
      let words := words_of (snd record) in
      let reversed_value := join " " (List.rev words) in
      update_record record (var_name, reversed_value)
  | None =>
      print ("ERROR: the variable " ++ var_name ++ " does not exist. Reverse failed!")
  end.

Fixpoint print_all (lines : list string) : M unit :=
  match lines with
  | [] => ret tt
  | line :: lines' => print line ;; print_all lines'
  end.

Definition list_vars : M unit :=
  table <- get_table ;;
  let table_count := List.length table in
  print ("Identifier List (" ++ str_of_nat table_count ++ "):") ;;
  print_all (map (fun r => fst r ++ " : " ++ snd r) table).

Definition expr_print (tokens : list token) (start end_ : nat) : M unit :=
  token <- token_at tokens 0 ;;
  let token_type := fst token in
  evaluated_expr <- eval_expression tokens start end_ ;;
  match evaluated_expr with
  | Some evaluated =>
      let words := words_of evaluated in
      if type_eqb token_type PRINT then print evaluated
      else if type_eqb token_type PRINTLENGTH
           then print ("Length:  " ++ str_of_nat (String.length evaluated))
      else if type_eqb token_type PRINTWORDS
           then print "Words are:" ;; print_all words
      else if type_eqb token_type PRINTWORDCOUNT
           then print ("Wordcount is: " ++ str_of_nat (List.length words))
      else ret tt
  | None => print "Cannot print an invalid or non-exsistent expression"
  end.

(** ** The Parser *)

Record Parser : Set := {
  tokens : list token;
  currToken : option token;
  currIndex : nat
}.

(** The constructor. *)
Definition new_Parser (lex_tokens : list token) : Parser :=
  {| tokens := lex_tokens; currToken := None; currIndex := 0 |}.

Definition next_token (self : Parser) : Parser :=
  if Nat.ltb (currIndex self) (List.length (tokens self)) then
    {| tokens := tokens self;
       currToken := nth_error (tokens self) (currIndex self);
       currIndex := currIndex self + 1 |}
  else
    {| tokens := tokens self; currToken := None; currIndex := currIndex self |}.

(** Reading [self.currToken[0]] or [self.currToken[1]]: a [TypeError] when
    [currToken] is [None]. *)
Definition curr_token (self : Parser) : M token :=
  match currToken self with
  | Some t => ret t
  | None => raise TypeError
  end.

Definition valid_match (expected_token : token_type) (self : Parser) : M Parser :=
  t <- curr_token self ;;
  if type_eqb (fst t) expected_token then ret (next_token self)
  else
    print ("Expected " ++ type_name expected_token ++ " but got a token "
           ++ type_name (fst t) ++ " with value " ++ q ++ snd t ++ q) ;;
    ret self.

Definition is_value_type (t : token_type) : bool :=
  type_eqb t ID || type_eqb t CONSTANT || type_eqb t LITERAL.

Definition isvalue (self : Parser) : M bool :=
  t <- curr_token self ;;
  ret (is_value_type (fst t)).

(** The [while valid_expression] loop of [expression]; the counters are
    Python integers. *)
Fixpoint expression_loop (fuel : nat) (value_count plus_count : Z) (self : Parser)
  : M (bool * Parser) :=
  match fuel with
  | 0 => out_of_fuel
  | S fuel' =>
      t <- curr_token self ;;
      if type_eqb (fst t) END && Z.eqb (value_count - plus_count) 1 then ret (true, self)
      else if type_eqb (fst t) PLUS then
        let self := next_token self in
        let plus_count := (plus_count + 1)%Z in
        v <- isvalue self ;;
        if v then expression_loop fuel' (value_count + 1)%Z plus_count (next_token self)
        else ret (false, self)
      else ret (false, self)
  end.

Definition expression (self : Parser) : M (bool * Parser) :=
  v <- isvalue self ;;
  if v then expression_loop (S (List.length (tokens self))) 1 0 (next_token self)
  else ret (false, self).

(** [p in s] on strings. *)
Fixpoint is_infix (p s : string) : bool :=
  match strip_prefix p s with
  | Some _ => true
  | None =>
      match s with
      | String _ s' => is_infix p s'
      | EmptyString => false
      end
  end.

Definition statement (self : Parser) : M unit :=
  let self := next_token self in
  t <- curr_token self ;;
  let token := fst t in
  let interpreter := tokens self in
  if type_eqb token APPEND || type_eqb token SET then
    let self := next_token self in
    self <- valid_match ID self ;;
    let expr_start := currIndex self - 1 in
    r <- expression self ;;
    let (valid, self) := r : bool * Parser in
    if negb valid then
      print "ERROR: Instruction has invalid expression. Expressions follow format:   'value {+ value}'"
    else
      let expr_end := currIndex self - 1 in
      self <- valid_match END self ;;
      if type_eqb token APPEND then do_append interpreter expr_start expr_end
      else do_set interpreter expr_start expr_end
  else if type_eqb token LIST then
    let self := next_token self in
    self <- valid_match END self ;;
    list_vars
  else if type_eqb token EXIT then
    let self := next_token self in
    self <- valid_match END self ;;
    raise SystemExit
  else if type_eqb token REVERSE then
    let self := next_token self in
    self <- valid_match ID self ;;
    self <- valid_match END self ;;
    reverse interpreter
  else if is_infix "PRINT" (type_name token) then
    let self := next_token self in
    let expr_start := currIndex self - 1 in
    r <- expression self ;;
    let (valid, self) := r : bool * Parser in
    if negb valid then
      print "ERROR: Instruction has invalid expression. Expressions follow format:  'value {+ value}'"
    else
      let expr_end := currIndex self - 1 in
      self <- valid_match END self ;;
      expr_print interpreter expr_start expr_end
  else
    let values := join " " (map snd (tokens self)) in
    print ("ERROR: Invalid Input. This is not a recognised statement:    " ++ " " ++ values).

Definition parse (self : Parser) : M unit := statement self.

(** ** The statement segmenter *)

(** The lookahead of the terminator pattern: what follows the semicolon is,
    up to the end of the buffer, text in which the quotes come in pairs (the
    final [$] also holds before a last line feed, which the quote-free run
    before it can take as well).  [inside] tells that an odd number of
    quotes has been read. *)
Fixpoint lookahead (inside : bool) (s : string) : bool :=
  match s with
  | EmptyString => negb inside
  | String c s' =>
      if Ascii.eqb c dquote then lookahead (negb inside) s' else lookahead inside s'
  end.

(** [[match.end() for match in re.finditer(...)]], scanning [s], which
    starts at position [pos] of the buffer. *)
Fixpoint end_matches_from (pos : nat) (s : string) : list nat :=
  match s with
  | EmptyString => []
  | String c s' =>
      if Ascii.eqb c semicolon && lookahead false s'
      then (pos + 1) :: end_matches_from (pos + 1) s'
      else end_matches_from (pos + 1) s'
  end.

Definition end_matches (concat_input : string) : list nat :=
  end_matches_from 0 concat_input.

(** The [try] block and its [except ValueError] handler. *)
Definition process (input_to_process : string) : M unit := fun w =>
  match lexer input_to_process with
  | Ret matches =>
      match parse (new_Parser matches) w with
      | (Raise (ValueError e), w') => print ("ERROR: " ++ e) w'
      | r => r
      end
  | Raise (ValueError e) => print ("ERROR: " ++ e) w
  | Raise e => (Raise e, w)
  | OutOfFuel => (OutOfFuel, w)
  end.

(** The [for end_pos in end_matches] loop. *)
Fixpoint for_end_matches (ends : list nat) (concat_input : string) : M string :=
  match ends with
  | [] => ret concat_input
  | end_pos :: ends' =>
      let input_to_process := take end_pos concat_input in
      let concat_input := drop (end_pos + 1) concat_input in
      note_handed input_to_process ;;
      process input_to_process ;;
      for_end_matches ends' concat_input
  end.

(** The [while True] loop, over the lines [input()] returns one after the
    other.  When [lines] is used up the loop is waiting for the next line
    and the model returns the buffer it holds. *)
Fixpoint get_user_input_loop (lines : list string) (concat_input : string) : M string :=
  match lines with
  | [] => ret concat_input
  | user_input :: lines' =>
      let concat_input := concat_input ++ user_input ++ nl in
      let in_literal := Nat.eqb (count dquote concat_input mod 2) 1 in
      if negb in_literal then
        concat_input <- for_end_matches (end_matches concat_input) concat_input ;;
        get_user_input_loop lines' concat_input
      else get_user_input_loop lines' concat_input
  end.

Definition get_user_input (lines : list string) : M string :=
  get_user_input_loop lines "".

Definition main (lines : list string) : M string :=
  print "-----------------------------------------" ;;
  print "A Simple Parser/Interpreter" ;;
  print "Myles Stubbs" ;;
  print "-----------------------------------------" ;;
  get_user_input lines.

(** The state the program starts in. *)
Definition start : world := {| symbol_table := []; stdout := []; handed := [] |}.


(** ** Specification-side vocabulary *)

(** The spec's Term: an identifier reference, a literal or a constant. *)
Inductive constant : Set := SPACE | TAB | NEWLINE.

Inductive term : Set :=
  | Identifier (name : string)
  | Literal (decoded : string)
  | Constant (c : constant).

Definition constant_name (c : constant) : string :=
  match c with
  | SPACE => "SPACE"
  | TAB => "TAB"
  | NEWLINE => "NEWLINE"
  end.

Definition constant_char (c : constant) : ascii :=
  match c with
  | SPACE => " "%char
  | TAB => tab
  | NEWLINE => newline
  end.

(** The token the lexer gives for a term. *)
Definition term_token (t : term) : token :=
  match t with
  | Identifier name => (ID, name)
  | Literal decoded => (LITERAL, decoded)
  | Constant c => (CONSTANT, constant_name c)
  end.

(** [x0 sep x1 sep ... xn] *)
Fixpoint intersperse {A : Type} (sep : A) (l : list A) : list A :=
  match l with
  | [] => []
  | [x] => [x]
  | x :: l' => x :: sep :: intersperse sep l'
  end.

(** The tokens of the expression [t1 + t2 + ... + tk]. *)
Definition expr_tokens (terms : list term) : list token :=
  intersperse (PLUS, "+") (map term_token terms).

(** The string a term stands for in a table (the empty string for an
    identifier the table does not have). *)
Definition term_value (table : list (string * string)) (t : term) : string :=
  match t with
  | Identifier name =>
      match get_table_record name table with
      | Some record => snd record
      | None => ""
      end
  | Literal decoded => decoded
  | Constant c => String (constant_char c) ""
  end.

(** The first identifier term, from the left, that the table does not have. *)
Fixpoint first_undefined (table : list (string * string)) (terms : list term) : option string :=
  match terms with
  | [] => None
  | Identifier name :: terms' =>
      match get_table_record name table with
      | Some _ => first_undefined table terms'
      | None => Some name
      end
  | _ :: terms' => first_undefined table terms'
  end.

(** The shape Term ('+' Term)* END of the spec, on token types, to compare
    [expression] with. *)
Fixpoint term_chain (l : list token_type) : bool :=
  match l with
  | [] => false
  | t :: l' =>
      is_value_type t &&
      match l' with
      | END :: _ => true
      | PLUS :: l'' => term_chain l''
      | _ => false
      end
  end.

(** The spec's literal-state test, for comparison with the program's: the
    number of quotes that no backslash comes right before. *)
Fixpoint count_unescaped (before : option ascii) (s : string) : nat :=
  match s with
  | EmptyString => 0
  | String c s' =>
      (if Ascii.eqb c dquote
       then match before with
            | Some b => if Ascii.eqb b backslash then 0 else 1
            | None => 1
            end
       else 0) + count_unescaped (Some c) s'
  end.

(** The lowercase spelling the pattern table gives each statement keyword. *)
Definition spelling (k : token_type) : option string :=
  match k with
  | APPEND => Some "append"
  | EXIT => Some "exit"
  | LIST => Some "list"
  | PRINTLENGTH => Some "printlength"
  | PRINTWORDS => Some "printwords"
  | PRINTWORDCOUNT => Some "printwordcount"
  | PRINT => Some "print"
  | REVERSE => Some "reverse"
  | SET => Some "set"
  | _ => None
  end.

(** [table] with the value of its first record named [name] replaced. *)
Fixpoint overwrite (name value : string) (table : list (string * string))
  : list (string * string) :=
  match table with
  | [] => []
  | r :: table' =>
      if String.eqb (fst r) name then (name, value) :: table'
      else r :: overwrite name value table'
  end.

(** The parser after its cursor has moved over [pre] and stands on the
    first token of [l] (on nothing when [l] is empty). *)
Definition positioned (pre l : list token) : Parser :=
  {| tokens := (pre ++ l)%list;
     currToken := List.hd_error l;
     currIndex := List.length pre + match l with [] => 0 | _ :: _ => 1 end |}.

(** What the loop of [expression] answers when the cursor stands on the
    first token of [l]: its verdict and the number of tokens the cursor
    has moved over. *)
Fixpoint loop_answer (fuel : nat) (l : list token) : outcome (bool * nat) :=
  match fuel with
  | 0 => OutOfFuel
  | S fuel' =>
      match l with
      | [] => Raise TypeError
      | t :: l' =>
          if type_eqb (fst t) END then Ret (true, 0)
          else if type_eqb (fst t) PLUS then
            match l' with
            | [] => Raise TypeError
            | t' :: l'' =>
                if is_value_type (fst t') then
                  match loop_answer fuel' l'' with
                  | Ret (b, n) => Ret (b, S (S n))
                  | Raise e => Raise e
                  | OutOfFuel => OutOfFuel
                  end
                else Ret (false, 1)
            end
          else Ret (false, 0)
      end
  end.

(** The parser the loop leaves, [n] tokens further. *)
Definition moved (pre l : list token) (r : outcome (bool * nat)) : outcome (bool * Parser) :=
  match r with
  | Ret (b, n) => Ret (b, positioned (pre ++ firstn n l) (skipn n l))
  | Raise e => Raise e
  | OutOfFuel => OutOfFuel
  end.

(** What comes after the first term of a chain: the terminator, or a plus
    and another chain. *)
Definition chain_tail (l : list token_type) : bool :=
  match l with
  | END :: _ => true
  | PLUS :: l' => term_chain l'
  | _ => false
  end.

(** The shape in words: [k] terms, [k - 1] plus signs between
    them, then the terminator. *)
Definition chain_shape (l : list token_type) : Prop :=
  exists terms post,
    terms <> [] /\ forallb is_value_type terms = true /\
    l = (intersperse PLUS terms ++ END :: post)%list.

(** [a ++ b ++ ...] *)
Fixpoint concat_all (l : list string) : string :=
  match l with
  | [] => ""
  | x :: l' => x ++ concat_all l'
  end.

(** [eval_loop] on the tokens themselves rather than on their indices. *)
Fixpoint eval_tokens (l : list token) (concat_str : string) : M (option string) :=
  match l with
  | [] => ret (Some concat_str)
  | (token, value) :: l' =>
      match token with
      | ID =>
          table <- get_table ;;
          match get_table_record value table with
          | Some record => eval_tokens l' (concat_str ++ snd record)
          | None =>
              print ("ERROR: the variable " ++ value ++ " does not exist") ;;
              ret None
          end
      | LITERAL => eval_tokens l' (concat_str ++ value)
      | CONSTANT =>
          if String.eqb value "SPACE" then eval_tokens l' (concat_str ++ " ")
          else if String.eqb value "TAB" then eval_tokens l' (concat_str ++ String tab "")
          else eval_tokens l' (concat_str ++ String newline "")
      | _ => eval_tokens l' concat_str
      end
  end.

(** A pattern that, when it matches, leaves less text than it was given. *)
Definition consuming (m : matcher) : Prop :=
  forall before s value rest,
    m before s = Some (value, rest) -> String.length rest < String.length s.

(** [m] takes every world to one that [R] relates to it. *)
Definition keeps (R : world -> world -> Prop) {A : Type} (m : M A) : Prop :=
  forall w, R w (snd (m w)).

(** The variable names of the table, in table order. *)
Definition names (w : world) : list string := map fst (symbol_table w).




(** The tokens after the first term of an expression: a plus sign and a
    term, as often as there are further terms. *)
Definition tail_tokens (terms : list term) : list token :=
  flat_map (fun t => [(PLUS, "+"); term_token t]) terms.

Definition undefined_variable (name : string) : string :=
  "ERROR: the variable " ++ name ++ " does not exist".

Definition append_failed (name : string) : string :=
  "ERROR: the variable name " ++ name ++ " does not exist, append failed!".

(** What evaluating the terms must give: the concatenation after
    [concat_str], or nothing and a message about the first undefined name. *)
Definition evaluated (terms : list term) (concat_str : string) (w : world)
  : outcome (option string) * world :=
  match first_undefined (symbol_table w) terms with
  | None => (Ret (Some (concat_str ++ concat_all (map (term_value (symbol_table w)) terms))), w)
  | Some name => (Ret None, snd (print (undefined_variable name) w))
  end.

(** The history only gets longer. *)
Definition hands_on (w w' : world) : Prop :=
  exists more, handed w' = (handed w ++ more)%list.

(** The line of the spec's segmentation example. *)
Definition quoted_semicolon_line : string :=
  "Set a " ++ q ++ "semi;colon" ++ q ++ "; Print a;".

(** [m] never runs out of fuel. *)
Definition answers {A : Type} (m : M A) : Prop := forall w, fst (m w) <> OutOfFuel.

(** [m] never runs out of fuel and what it returns satisfies [P]. *)
Definition answers_with {A : Type} (P : A -> Prop) (m : M A) : Prop :=
  forall w, match fst (m w) with
            | Ret a => P a
            | Raise _ => True
            | OutOfFuel => False
            end.

Definition is_positioned (self : Parser) : Prop := exists pre l, self = positioned pre l.


(** The four statements that print an expression. *)
Inductive print_kind : Set := Print | PrintLength | PrintWords | PrintWordCount.

Definition print_token (k : print_kind) : token_type :=
  match k with
  | Print => PRINT
  | PrintLength => PRINTLENGTH
  | PrintWords => PRINTWORDS
  | PrintWordCount => PRINTWORDCOUNT
  end.

(** The lines a print statement of kind [k] writes for the string [v]. *)
Definition print_output (k : print_kind) (v : string) : list string :=
  match k with
  | Print => [v]
  | PrintLength => ["Length:  " ++ str_of_nat (String.length v)]
  | PrintWords => "Words are:" :: words_of v
  | PrintWordCount => ["Wordcount is: " ++ str_of_nat (List.length (words_of v))]
  end.

(** The table after [name] has been set to [value]: overwritten where it
    stands, or entered at the end. *)
Definition set_table (name value : string) (table : list (string * string))
  : list (string * string) :=
  match get_table_record name table with
  | Some _ => overwrite name value table
  | None => (table ++ [(name, value)])%list
  end.

Definition cannot_print : string := "Cannot print an invalid or non-exsistent expression".

Definition reverse_failed (name : string) : string :=
  "ERROR: the variable " ++ name ++ " does not exist. Reverse failed!".

(** The value Reverse gives a variable that holds [value]. *)
Definition reversed (value : string) : string := join " " (List.rev (words_of value)).

(** A string that is one word for the word pattern, and nothing else. *)
Definition selfword (w : string) : Prop := words_of w = [w].

(** A word in progress that the scan reaches from its first character,
    whatever follows; and one that it reaches when a letter or digit
    follows. *)
Definition scanned (w0 : string) : Prop :=
  forall t, findall_words (w0 ++ t) None = findall_words t (Some w0).

Definition scanned_before_alnum (w0 : string) : Prop :=
  forall c t, is_alnum c = true ->
    findall_words (w0 ++ String c t) None = findall_words (String c t) (Some w0).

(** The statement starts with one of the three keywords that write to the
    table. *)
Definition assigns (toks : list token) : bool :=
  match toks with
  | (ty, _) :: _ => type_eqb ty APPEND || type_eqb ty SET || type_eqb ty REVERSE
  | [] => false
  end.

(** The token type is one of the nine statement keywords. *)
Definition is_statement_keyword (ty : token_type) : bool :=
  match spelling ty with
  | Some _ => true
  | None => false
  end.

Definition same_table (w w' : world) : Prop := symbol_table w' = symbol_table w.

Definition invalid_expression_assignment : string :=
  "ERROR: Instruction has invalid expression. Expressions follow format:   'value {+ value}'".

Definition invalid_expression_print : string :=
  "ERROR: Instruction has invalid expression. Expressions follow format:  'value {+ value}'".

Definition not_recognised (toks : list token) : string :=
  "ERROR: Invalid Input. This is not a recognised statement:    " ++ " "
  ++ join " " (map snd toks).

(** [[a-zA-Z][a-zA-Z0-9]*] as a test on a whole string. *)
Fixpoint all_chars (f : ascii -> bool) (s : string) : bool :=
  match s with
  | EmptyString => true
  | String c s' => f c && all_chars f s'
  end.

Definition is_identifier (s : string) : bool :=
  match s with
  | String c s' => is_alpha c && all_chars is_alnum s'
  | EmptyString => false
  end.

(** What the value of a token of each type can be. *)
Definition token_ok (t : token) : bool :=
  let (ty, v) := t in
  match ty with
  | WHITESPACE => false
  | LITERAL => true
  | ID => is_identifier v
  | CONSTANT => String.eqb v "TAB" || String.eqb v "SPACE" || String.eqb v "NEWLINE"
  | END => String.eqb v ";"
  | PLUS => String.eqb v "+"
  | _ => match spelling ty with
         | Some kw => String.eqb v kw
         | None => false
         end
  end.

(** The same for the text a pattern has matched, before the lexer drops
    white space and decodes literals. *)
Definition matched_ok (ty : token_type) (v : string) : bool :=
  match ty with
  | WHITESPACE | LITERAL => true
  | _ => token_ok (ty, v)
  end.

(** A pattern that splits the text it is given. *)
Definition splitting (m : matcher) : Prop :=
  forall before s value rest, m before s = Some (value, rest) -> s = value ++ rest.

(** The text starts with TAB, SPACE or NEWLINE. *)
Definition starts_with_constant (v : string) : bool :=
  match strip_prefix "TAB" v, strip_prefix "SPACE" v, strip_prefix "NEWLINE" v with
  | None, None, None => false
  | _, _, _ => true
  end.

(** How a text is written inside a literal: a backslash before each
    quote. *)
Fixpoint escape_quotes (s : string) : string :=
  match s with
  | EmptyString => EmptyString
  | String c s' =>
      if Ascii.eqb c dquote then String backslash (String dquote (escape_quotes s'))
      else String c (escape_quotes s')
  end.

Definition not_backslash (c : ascii) : bool := negb (Ascii.eqb c backslash).

(** The number of semicolons of [s] that stand outside quotes, [inside]
    telling whether [s] starts inside a quoted part. *)
Fixpoint bare_semicolons (inside : bool) (s : string) : nat :=
  match s with
  | EmptyString => 0
  | String c s' =>
      if Ascii.eqb c dquote then bare_semicolons (negb inside) s'
      else (if Ascii.eqb c semicolon && negb inside then 1 else 0)
           + bare_semicolons inside s'
  end.

(** [m] returns, in every world. *)
Definition returns {A : Type} (m : M A) : Prop :=
  forall w, exists a w', m w = (Ret a, w').

(** The last token of the list is a terminator. *)
Fixpoint ends_with_END (toks : list token) : bool :=
  match toks with
  | [] => false
  | [t] => type_eqb (fst t) END
  | _ :: toks' => ends_with_END toks'
  end.

(** How parsing [toks] may end: it returns; or it raises SystemExit, and
    then [toks] starts with EXIT; or it raises TypeError, and then the last
    token of [toks] is not a terminator. *)
Definition ends_well (toks : list token) {A : Type} (r : outcome A * world) : Prop :=
  match fst r with
  | Ret _ => True
  | Raise e =>
      (e = SystemExit /\ exists kw rest, toks = (EXIT, kw) :: rest)
      \/ (e = TypeError /\ ends_with_END toks = false)
  | OutOfFuel => False
  end.

(** How a session may end. *)
Definition session_end {A : Type} (r : outcome A * world) : Prop :=
  match fst r with
  | Ret _ => True
  | Raise e => e = SystemExit \/ e = TypeError
  | OutOfFuel => False
  end.

(** The spec's Term as a token type: an identifier, a literal or a
    constant. *)
Definition is_term (ty : token_type) : bool :=
  match ty with
  | ID | LITERAL | CONSTANT => true
  | _ => false
  end.

(** The shape Term ('+' Term)* END of the spec: [k] terms with [k - 1] plus
    signs between them, [k] at least 1, then the terminator and whatever
    comes after it. *)
Definition expression_shape (l : list token_type) : Prop :=
  exists terms post,
    terms <> [] /\ forallb is_term terms = true /\
    l = (intersperse PLUS terms ++ END :: post)%list.

(** The same chain when the tokens end before any terminator: no token at
    all, or terms and plus signs in turn with nothing after the last term
    or after the last plus sign. *)
Definition cut_short (l : list token_type) : Prop :=
  l = [] \/
  exists terms,
    terms <> [] /\ forallb is_term terms = true /\
    (l = intersperse PLUS terms \/ l = (intersperse PLUS terms ++ [PLUS])%list).

(** A recogniser for [cut_short], and what it asks of the tokens after a
    term. *)
Fixpoint runs_out (l : list token_type) : bool :=
  match l with
  | [] => true
  | t :: l' =>
      is_term t &&
      match l' with
      | [] => true
      | PLUS :: l'' => runs_out l''
      | _ => false
      end
  end.

Definition runs_out_tail (l : list token_type) : bool :=
  match l with
  | [] => true
  | PLUS :: l' => runs_out l'
  | _ => false
  end.

(** The spec's lookup: the value of the first record of the table that
    bears the name. *)
Definition lookup (name : string) (table : list (string * string)) : option string :=
  option_map snd (List.find (fun record => String.eqb (fst record) name) table).

(** The string a term contributes: the table's value for an identifier
    (nothing for a name the table does not have), the decoded text of a
    literal, the one character of a constant. *)
Definition value_in (table : list (string * string)) (t : term) : string :=
  match t with
  | Identifier name =>
      match lookup name table with
      | Some value => value
      | None => ""
      end
  | Literal decoded => decoded
  | Constant c => String (constant_char c) ""
  end.

(** The names of the identifier terms, from left to right. *)
Definition identifiers (terms : list term) : list string :=
  flat_map (fun t => match t with
                     | Identifier name => [name]
                     | _ => []
                     end) terms.

(** The first identifier of the terms, from the left, for which the table
    has no value. *)
Definition first_missing (table : list (string * string)) (terms : list term)
  : option string :=
  List.find (fun name => match lookup name table with
                         | Some _ => false
                         | None => true
                         end) (identifiers terms).

(** The line [valid_match] prints when the token [t] stands where a token
    of type [expected] must be. *)
Definition mismatch (expected : token_type) (t : token) : string :=
  "Expected " ++ type_name expected ++ " but got a token " ++ type_name (fst t)
  ++ " with value " ++ q ++ snd t ++ q.

Definition same_handed (w w' : world) : Prop := handed w' = handed w.

(** The text is an Exit statement for the lexer: the keyword and at least
    one more token. *)
Definition exit_statement (text : string) : Prop :=
  exists kw t rest, lexer text = Ret ((EXIT, kw) :: t :: rest).

(** The run [r], started in [w], stops at the first Exit statement it
    hands to the lexer: that text is the last one handed on, and the run
    has ended with SystemExit. *)
Definition stops_at_exit {A : Type} (w : world) (r : outcome A * world) : Prop :=
  exists more,
    handed (snd r) = (handed w ++ more)%list /\
    forall earlier text later,
      more = (earlier ++ text :: later)%list -> exit_statement text ->
      later = [] /\ fst r = Raise SystemExit.

(** ** Basic facts *)

Lemma type_eqb_eq (a b : token_type) : type_eqb a b = true <-> a = b.
Proof.
  split.
  - destruct a, b; vm_compute; intro H; try reflexivity; discriminate H.
  - intros ->. apply String.eqb_refl.
Qed.

Lemma type_eqb_refl (a : token_type) : type_eqb a a = true.
Proof. apply String.eqb_refl. Qed.

Lemma has_PRINT (t : token_type) :
  is_infix "PRINT" (type_name t) = true <->
  t = PRINT \/ t = PRINTLENGTH \/ t = PRINTWORDS \/ t = PRINTWORDCOUNT.
Proof.
  split.
  - destruct t; vm_compute; intro H; try discriminate H; auto.
  - intros [-> | [-> | [-> | ->]]]; reflexivity.
Qed.

Lemma length_append (a b : string) :
  String.length (a ++ b) = String.length a + String.length b.
Proof. induction a as [|c a IH]; simpl; [reflexivity | now rewrite IH]. Qed.

Lemma count_append (c : ascii) (a b : string) :
  count c (a ++ b) = count c a + count c b.
Proof. induction a as [|d a IH]; simpl; [reflexivity | rewrite IH; lia]. Qed.

Lemma append_assoc (a b c : string) : (a ++ b) ++ c = a ++ (b ++ c).
Proof. induction a as [|d a IH]; simpl; [reflexivity | now rewrite IH]. Qed.

Lemma append_empty_r (a : string) : a ++ "" = a.
Proof. induction a as [|d a IH]; simpl; [reflexivity | now rewrite IH]. Qed.

Lemma take_append (a b : string) : take (String.length a) (a ++ b) = a.
Proof. induction a as [|d a IH]; simpl; [now destruct b | now rewrite IH]. Qed.

Lemma drop_append (a b : string) : drop (String.length a) (a ++ b) = b.
Proof. induction a as [|d a IH]; simpl; [now destruct b | exact IH]. Qed.

(** ** The lexer always answers *)

Lemma strip_prefix_length (p s rest : string) :
  strip_prefix p s = Some rest -> String.length s = String.length p + String.length rest.
Proof.
  revert s; induction p as [|a p IH]; intros s H; simpl in *.
  - now inversion H.
  - destruct s as [|b s]; [discriminate|].
    destruct (Ascii.eqb a b); [|discriminate].
    simpl. now rewrite (IH _ H).
Qed.

Lemma span_length (f : ascii -> bool) (s m rest : string) :
  span f s = (m, rest) -> String.length s = String.length m + String.length rest.
Proof.
  revert m rest; induction s as [|c s IH]; intros m rest H; simpl in *.
  - now inversion H.
  - destruct (f c).
    + destruct (span f s) as [m' rest'] eqn:E. inversion H; subst.
      simpl. now rewrite (IH _ _ eq_refl).
    + now inversion H.
Qed.

Lemma keyword_consuming (c : ascii) (kw : string) : consuming (keyword (String c kw)).
Proof.
  intros before s value rest H. unfold keyword in H.
  destruct (word_boundary before (head s)); [|discriminate].
  destruct (strip_prefix (String c kw) s) as [r|] eqn:E; [|discriminate].
  destruct (word_boundary _ (head r)); [|discriminate].
  inversion H; subst. apply strip_prefix_length in E. simpl in E. lia.
Qed.

Lemma text_consuming (c : ascii) (t : string) : consuming (text (String c t)).
Proof.
  intros before s value rest H. unfold text in H.
  destruct (strip_prefix (String c t) s) as [r|] eqn:E; [|discriminate].
  inversion H; subst. apply strip_prefix_length in E. simpl in E. lia.
Qed.

Lemma alt_consuming (a b : matcher) : consuming a -> consuming b -> consuming (alt a b).
Proof.
  intros Ha Hb before s value rest H. unfold alt in H.
  destruct (a before s) as [r|] eqn:E.
  - inversion H; subst. eauto.
  - eauto.
Qed.

Lemma identifier_consuming : consuming identifier.
Proof.
  intros before s value rest H. unfold identifier in H.
  destruct s as [|c s]; [discriminate|].
  destruct (is_alpha c); [|discriminate].
  destruct (span is_alnum s) as [m r] eqn:E. inversion H; subst.
  apply span_length in E. simpl. lia.
Qed.

Lemma literal_body_length (s m rest : string) :
  literal_body s = Some (m, rest) -> String.length rest < String.length s.
Proof.
  remember (String.length s) as n eqn:Hn. revert s m rest Hn.
  induction n as [n IH] using lt_wf_ind. intros s m rest Hn H.
  destruct s as [|c s]; [discriminate|]. simpl in H.
  destruct (Ascii.eqb c dquote).
  - inversion H; subst. simpl. lia.
  - destruct (Ascii.eqb c backslash).
    + destruct s as [|d s]; [discriminate|].
      destruct (Ascii.eqb d newline); [discriminate|].
      destruct (literal_body s) as [[m' r']|] eqn:E; [|discriminate].
      inversion H; subst.
      assert (String.length rest < String.length s)
        by (eapply (IH (String.length s)); simpl; eauto; lia).
      simpl. lia.
    + destruct (literal_body s) as [[m' r']|] eqn:E; [|discriminate].
      inversion H; subst.
      assert (String.length rest < String.length s)
        by (eapply (IH (String.length s)); simpl; eauto; lia).
      simpl. lia.
Qed.

Lemma literal_consuming : consuming literal.
Proof.
  intros before s value rest H. unfold literal in H.
  destruct s as [|c s]; [discriminate|].
  destruct (Ascii.eqb c dquote); [|discriminate].
  destruct (literal_body s) as [[m r]|] eqn:E; [|discriminate].
  inversion H; subst. apply literal_body_length in E. simpl. lia.
Qed.

Lemma some_of_consuming (f : ascii -> bool) : consuming (some_of f).
Proof.
  intros before s value rest H. unfold some_of in H.
  destruct (span f s) as [[|c m] r] eqn:E; [discriminate|].
  inversion H; subst. apply span_length in E. simpl in E. lia.
Qed.

Lemma backslash_then_consuming (c : ascii) : consuming (backslash_then c).
Proof.
  intros before s value rest H. unfold backslash_then in H.
  destruct s as [|b s]; [discriminate|].
  destruct (Ascii.eqb b backslash); [|discriminate].
  destruct (some_of (Ascii.eqb c) (Some b) s) as [[m r]|] eqn:E; [|discriminate].
  inversion H; subst. apply some_of_consuming in E. simpl. lia.
Qed.

Lemma patterns_consuming : Forall (fun p => consuming (snd p)) patterns.
Proof.
  unfold patterns.
  repeat (apply Forall_cons; [simpl|]); try apply Forall_nil;
    auto using keyword_consuming, text_consuming, alt_consuming, identifier_consuming,
               literal_consuming, some_of_consuming, backslash_then_consuming.
Qed.

Lemma first_match_consuming (ps : list (token_type * matcher)) before s ty value rest :
  Forall (fun p => consuming (snd p)) ps ->
  first_match ps before s = Some (ty, value, rest) ->
  String.length rest < String.length s.
Proof.
  induction 1 as [|[ty' m] ps Hm _ IH]; simpl; [discriminate|].
  destruct (m before s) as [[v r]|] eqn:E.
  - intro H; inversion H; subst. eapply Hm; eauto.
  - exact IH.
Qed.

Lemma lexer_loop_answers (fuel : nat) before (s : string) pos toks :
  String.length s <= fuel -> lexer_loop fuel before s pos toks <> OutOfFuel.
Proof.
  revert before s pos toks; induction fuel as [|fuel IH]; intros before s pos toks Hlen.
  - destruct s; simpl in *; [discriminate | lia].
  - destruct s as [|c s]; cbn [lexer_loop]; [discriminate|].
    destruct (first_match patterns before (String c s)) as [[[ty v] r]|] eqn:E; [|discriminate].
    apply IH. apply first_match_consuming in E; [|apply patterns_consuming].
    simpl in *. lia.
Qed.

(** The lexer returns a token list or raises its [ValueError]; it never
    runs out of fuel and raises nothing else. *)
Lemma lexer_total (s : string) :
  (exists toks, lexer s = Ret toks) \/ (exists msg, lexer s = Raise (ValueError msg)).
Proof.
  unfold lexer.
  assert (G : forall fuel before s pos toks,
             String.length s <= fuel ->
             (exists toks', lexer_loop fuel before s pos toks = Ret toks') \/
             (exists msg, lexer_loop fuel before s pos toks = Raise (ValueError msg))).
  { induction fuel as [|fuel IH]; intros before s0 pos toks Hlen.
    - destruct s0; simpl in *; [eauto | lia].
    - destruct s0 as [|c s0]; cbn [lexer_loop]; [eauto|].
      destruct (first_match patterns before (String c s0)) as [[[ty v] r]|] eqn:E; [|eauto].
      apply IH. apply first_match_consuming in E; [|apply patterns_consuming].
      simpl in *. lia. }
  apply G. lia.
Qed.

(** ** The table after [index] and assignment *)

Lemma get_table_record_name (name : string) table record :
  get_table_record name table = Some record -> fst record = name.
Proof.
  induction table as [|r table IH]; simpl; [discriminate|].
  destruct (String.eqb_spec (fst r) name) as [E|E].
  - intro H; inversion H; subst; reflexivity.
  - exact IH.
Qed.

Lemma record_eqb_refl (r : string * string) : record_eqb r r = true.
Proof. unfold record_eqb. now rewrite !String.eqb_refl. Qed.

Lemma record_eqb_name (a b : string * string) : record_eqb a b = true -> fst a = fst b.
Proof.
  unfold record_eqb. intro H. apply andb_true_iff in H. now apply String.eqb_eq.
Qed.

(** [index] finds the record [get_table_record] returned, and assigning
    there is [overwrite]. *)
Lemma index_assign_overwrite (name value : string) table record :
  get_table_record name table = Some record ->
  exists i, index record table = Some i /\
            assign table i (name, value) = Some (overwrite name value table).
Proof.
  induction table as [|r table IH]; simpl; [discriminate|].
  destruct (String.eqb_spec (fst r) name) as [E|E].
  - intro H; inversion H; subst. rewrite record_eqb_refl. exists 0. split; reflexivity.
  - intro H. destruct (IH H) as [i [Hi Ha]].
    destruct (record_eqb r record) eqn:Er.
    + apply record_eqb_name in Er. apply get_table_record_name in H. congruence.
    + exists (S i). rewrite Hi. simpl. now rewrite Ha.
Qed.

Lemma update_record_overwrite (name value : string) record (w : world) :
  get_table_record name (symbol_table w) = Some record ->
  update_record record (name, value) w = put_table (overwrite name value (symbol_table w)) w.
Proof.
  intro H. destruct (index_assign_overwrite name value _ _ H) as [i [Hi Ha]].
  unfold update_record, bind, get_table. now rewrite Hi, Ha.
Qed.

Lemma overwrite_names (name value : string) table record :
  get_table_record name table = Some record ->
  map fst (overwrite name value table) = map fst table.
Proof.
  induction table as [|r table IH]; simpl; [reflexivity|].
  destruct (String.eqb_spec (fst r) name) as [E|E]; simpl.
  - now rewrite E.
  - intro H. now rewrite (IH H).
Qed.

Lemma overwrite_same (name value : string) table record :
  get_table_record name table = Some record ->
  get_table_record name (overwrite name value table) = Some (name, value).
Proof.
  induction table as [|r table IH]; simpl; [discriminate|].
  destruct (String.eqb_spec (fst r) name) as [E|E]; simpl.
  - now rewrite String.eqb_refl.
  - intro H. destruct (String.eqb_spec (fst r) name); [contradiction|]. exact (IH H).
Qed.

Lemma overwrite_other (name value other : string) table :
  other <> name ->
  get_table_record other (overwrite name value table) = get_table_record other table.
Proof.
  intro Hne. induction table as [|r table IH]; simpl; [reflexivity|].
  destruct (String.eqb_spec (fst r) name) as [E|E]; simpl.
  - destruct (String.eqb_spec name other); [congruence|].
    destruct (String.eqb_spec (fst r) other); [congruence|]. reflexivity.
  - destruct (String.eqb_spec (fst r) other); [reflexivity | exact IH].
Qed.


(** ** What the methods leave alone *)

Section Frame.

(** A relation between the world before and the world after, kept by
    every step the program can take. *)
Variable R : world -> world -> Prop.
Hypothesis R_refl : forall w, R w w.
Hypothesis R_trans : forall a b c, R a b -> R b c -> R a c.
Hypothesis R_print : forall line w, R w (snd (print line w)).

Lemma keeps_ret {A : Type} (a : A) : keeps R (ret a).
Proof. intro w; apply R_refl. Qed.

Lemma keeps_raise {A : Type} (e : exn) : keeps R (@raise A e).
Proof. intro w; apply R_refl. Qed.

Lemma keeps_out_of_fuel {A : Type} : keeps R (@out_of_fuel A).
Proof. intro w; apply R_refl. Qed.

Lemma keeps_get_table : keeps R get_table.
Proof. intro w; apply R_refl. Qed.

Lemma keeps_print (line : string) : keeps R (print line).
Proof. intro w; apply R_print. Qed.

Lemma keeps_bind {A B : Type} (m : M A) (f : A -> M B) :
  keeps R m -> (forall a, keeps R (f a)) -> keeps R (bind m f).
Proof.
  intros Hm Hf w. unfold bind. specialize (Hm w).
  destruct (m w) as [[a | e |] w']; simpl in *; auto.
  eapply R_trans; [exact Hm | apply Hf].
Qed.

Ltac frame :=
  repeat first
    [ apply keeps_ret | apply keeps_raise | apply keeps_out_of_fuel
    | apply keeps_get_table | apply keeps_print
    | apply keeps_bind; [|intros ?]
    | match goal with
      | |- keeps R (if ?b then _ else _) => destruct b
      | |- keeps R (let (_, _) := ?r in _) => destruct r
      | |- keeps R (match ?x with _ => _ end) => destruct x
      end ].

Lemma keeps_token_at toks i : keeps R (token_at toks i).
Proof. unfold token_at. frame. Qed.

Lemma keeps_curr_token self : keeps R (curr_token self).
Proof. unfold curr_token. frame. Qed.

Lemma keeps_valid_match expected self : keeps R (valid_match expected self).
Proof. unfold valid_match. apply keeps_bind; [apply keeps_curr_token|]. intros t. frame. Qed.

Lemma keeps_isvalue self : keeps R (isvalue self).
Proof. unfold isvalue. apply keeps_bind; [apply keeps_curr_token|]. intros t. frame. Qed.

Lemma keeps_expression_loop fuel vc pc self : keeps R (expression_loop fuel vc pc self).
Proof.
  revert vc pc self. induction fuel as [|fuel IH]; intros vc pc self; simpl.
  - frame.
  - apply keeps_bind; [apply keeps_curr_token|]. intros t.
    destruct (_ && _); [frame|].
    destruct (type_eqb _ _); [|frame].
    apply keeps_bind; [apply keeps_isvalue|]. intros v.
    destruct v; [apply IH | frame].
Qed.

Lemma keeps_expression self : keeps R (expression self).
Proof.
  unfold expression. apply keeps_bind; [apply keeps_isvalue|]. intros v.
  destruct v; [apply keeps_expression_loop | frame].
Qed.

Lemma keeps_eval_loop toks indices acc : keeps R (eval_loop toks indices acc).
Proof.
  revert acc. induction indices as [|i indices IH]; intro acc; simpl.
  - frame.
  - apply keeps_bind; [apply keeps_token_at|]. intros [ty value].
    destruct ty; try apply IH.
    + destruct (String.eqb value "SPACE"); [apply IH|].
      destruct (String.eqb value "TAB"); apply IH.
    + apply keeps_bind; [apply keeps_get_table|]. intros table.
      destruct (get_table_record value table); [apply IH | frame].
Qed.

Lemma keeps_eval_expression toks s e : keeps R (eval_expression toks s e).
Proof. apply keeps_eval_loop. Qed.

Lemma keeps_print_all lines : keeps R (print_all lines).
Proof. induction lines as [|l lines IH]; simpl; frame. exact IH. Qed.

Lemma keeps_list_vars : keeps R list_vars.
Proof. unfold list_vars. frame. apply keeps_print_all. Qed.

Lemma keeps_expr_print toks s e : keeps R (expr_print toks s e).
Proof.
  unfold expr_print. apply keeps_bind; [apply keeps_token_at|]. intros t.
  apply keeps_bind; [apply keeps_eval_expression|]. intros [v|]; [|frame].
  frame. apply keeps_print_all.
Qed.

(** The table changes in two ways only. *)
Hypothesis R_overwrite : forall w record name value,
  get_table_record name (symbol_table w) = Some record ->
  R w (snd (put_table (overwrite name value (symbol_table w)) w)).
Hypothesis R_insert : forall w name value,
  get_table_record name (symbol_table w) = None ->
  R w (snd (put_table (symbol_table w ++ [(name, value)])%list w)).

Lemma keeps_do_append toks s e : keeps R (do_append toks s e).
Proof.
  unfold do_append. apply keeps_bind; [apply keeps_token_at|]. intros t.
  apply keeps_bind; [apply keeps_eval_expression|]. intros v w.
  unfold bind, get_table.
  destruct (get_table_record (snd t) (symbol_table w)) as [record|] eqn:E.
  - destruct v as [v|]; [|apply R_refl].
    rewrite (update_record_overwrite _ _ _ _ E). eapply R_overwrite; eauto.
  - apply R_print.
Qed.

Lemma keeps_do_set toks s e : keeps R (do_set toks s e).
Proof.
  unfold do_set. apply keeps_bind; [apply keeps_token_at|]. intros t.
  apply keeps_bind; [apply keeps_eval_expression|]. intros v w.
  unfold bind, get_table.
  destruct v as [v|]; [|apply R_refl].
  destruct (get_table_record (snd t) (symbol_table w)) as [record|] eqn:E.
  - rewrite (update_record_overwrite _ _ _ _ E). eapply R_overwrite; eauto.
  - now apply R_insert.
Qed.

Lemma keeps_reverse toks : keeps R (reverse toks).
Proof.
  unfold reverse. apply keeps_bind; [apply keeps_token_at|]. intros t w.
  unfold bind, get_table.
  destruct (get_table_record (snd t) (symbol_table w)) as [record|] eqn:E.
  - rewrite (update_record_overwrite _ _ _ _ E). eapply R_overwrite; eauto.
  - apply R_print.
Qed.

Lemma keeps_statement self : keeps R (statement self).
Proof.
  unfold statement.
  apply keeps_bind; [apply keeps_curr_token|]. intros t.
  destruct (_ || _).
  { apply keeps_bind; [apply keeps_valid_match|]. intros p.
    apply keeps_bind; [apply keeps_expression|]. intros [valid p'].
    destruct valid; simpl; [|frame].
    apply keeps_bind; [apply keeps_valid_match|]. intros p''.
    destruct (type_eqb _ _); [apply keeps_do_append | apply keeps_do_set]. }
  destruct (type_eqb _ LIST).
  { apply keeps_bind; [apply keeps_valid_match|]. intros p. apply keeps_list_vars. }
  destruct (type_eqb _ EXIT).
  { apply keeps_bind; [apply keeps_valid_match|]. intros p. frame. }
  destruct (type_eqb _ REVERSE).
  { apply keeps_bind; [apply keeps_valid_match|]. intros p.
    apply keeps_bind; [apply keeps_valid_match|]. intros p'. apply keeps_reverse. }
  destruct (is_infix _ _); [|frame].
  apply keeps_bind; [apply keeps_expression|]. intros [valid p'].
  destruct valid; simpl; [|frame].
  apply keeps_bind; [apply keeps_valid_match|]. intros p''. apply keeps_expr_print.
Qed.

Lemma keeps_process text : keeps R (process text).
Proof.
  intro w. unfold process.
  destruct (lexer text) as [toks | [msg | | |] |]; simpl;
    try apply R_refl; try apply R_print.
  pose proof (keeps_statement (new_Parser toks) w) as H. unfold parse.
  destruct (statement (new_Parser toks) w) as [[[] | [msg | | |] |] w']; simpl in *; auto.
  eapply R_trans; [exact H | apply R_print].
Qed.

(** The history variable is updated by the segmenter alone. *)
Hypothesis R_note : forall text w, R w (snd (note_handed text w)).

Lemma keeps_for_end_matches ends buf : keeps R (for_end_matches ends buf).
Proof.
  revert buf. induction ends as [|e ends IH]; intro buf; simpl.
  - apply keeps_ret.
  - apply keeps_bind; [intro w; apply R_note|]. intros _.
    apply keeps_bind; [apply keeps_process|]. intros _. apply IH.
Qed.


End Frame.

(** ** The symbol table over a session *)











Lemma print_all_stdout (lines : list string) (w : world) :
  print_all lines w
  = (Ret tt, {| symbol_table := symbol_table w;
                stdout := (stdout w ++ lines)%list;
                handed := handed w |}).
Proof.
  revert w. induction lines as [|l lines IH]; intro w; simpl.
  - rewrite app_nil_r. now destruct w.
  - unfold bind, print. rewrite IH. simpl. now rewrite <- app_assoc.
Qed.



(** ** The cursor of the parser *)

Lemma next_token_new (toks : list token) : next_token (new_Parser toks) = positioned [] toks.
Proof.
  unfold next_token, new_Parser, positioned; simpl.
  destruct toks as [|t toks]; reflexivity.
Qed.

Lemma next_token_positioned (pre : list token) (t : token) (l : list token) :
  next_token (positioned pre (t :: l)) = positioned (pre ++ [t]) l.
Proof.
  unfold next_token, positioned; simpl.
  rewrite !length_app; simpl.
  destruct l as [|t' l]; simpl.
  - replace (Nat.ltb _ _) with false by (symmetry; apply Nat.ltb_ge; lia).
    now rewrite app_nil_r, Nat.add_0_r.
  - replace (Nat.ltb _ _) with true by (symmetry; apply Nat.ltb_lt; lia).
    rewrite nth_error_app2 by lia.
    replace (List.length pre + 1 - List.length pre) with 1 by lia. simpl.
    now rewrite <- app_assoc.
Qed.

Lemma next_token_exhausted (pre : list token) :
  next_token (positioned pre []) = positioned pre [].
Proof.
  unfold next_token, positioned; simpl. rewrite !length_app; simpl.
  replace (Nat.ltb _ _) with false by (symmetry; apply Nat.ltb_ge; lia).
  reflexivity.
Qed.

Lemma curr_token_positioned (pre : list token) (t : token) (l : list token) :
  curr_token (positioned pre (t :: l)) = ret t.
Proof. reflexivity. Qed.

Lemma curr_token_exhausted (pre : list token) :
  curr_token (positioned pre []) = raise TypeError.
Proof. reflexivity. Qed.

Lemma bind_ret {A B : Type} (a : A) (f : A -> M B) : bind (ret a) f = f a.
Proof. reflexivity. Qed.

Lemma bind_raise {A B : Type} (e : exn) (f : A -> M B) : bind (raise e) f = raise e.
Proof. reflexivity. Qed.

Lemma expression_loop_moved (fuel : nat) (l pre : list token) (vc pc : Z) (w : world) :
  (vc - pc = 1)%Z ->
  expression_loop fuel vc pc (positioned pre l) w = (moved pre l (loop_answer fuel l), w).
Proof.
  revert l pre vc pc. induction fuel as [|fuel IH]; intros l pre vc pc Hc; [reflexivity|].
  cbn [expression_loop loop_answer].
  destruct l as [|t l]; [reflexivity|].
  rewrite curr_token_positioned, bind_ret.
  rewrite Hc. cbn [Z.eqb Pos.eqb]. rewrite andb_true_r.
  destruct (type_eqb (fst t) END).
  { cbn [moved firstn skipn ret]. now rewrite app_nil_r. }
  destruct (type_eqb (fst t) PLUS).
  2:{ cbn [moved firstn skipn ret]. now rewrite app_nil_r. }
  rewrite next_token_positioned. unfold isvalue.
  destruct l as [|t' l]; [reflexivity|].
  rewrite curr_token_positioned, !bind_ret.
  destruct (is_value_type (fst t')).
  - rewrite next_token_positioned, IH by lia.
    destruct (loop_answer fuel l) as [[b n] | e |]; cbn [moved firstn skipn]; try reflexivity.
    now rewrite <- !app_assoc.
  - reflexivity.
Qed.

Lemma expression_positioned (pre l : list token) (w : world) :
  expression (positioned pre l) w =
  match l with
  | [] => (Raise TypeError, w)
  | t :: l' =>
      if is_value_type (fst t)
      then (moved (pre ++ [t]) l' (loop_answer (S (List.length (pre ++ l))) l'), w)
      else (Ret (false, positioned pre l), w)
  end.
Proof.
  unfold expression, isvalue.
  destruct l as [|t l]; [reflexivity|].
  rewrite curr_token_positioned, !bind_ret.
  destruct (is_value_type (fst t)); [|reflexivity].
  rewrite next_token_positioned. apply expression_loop_moved. lia.
Qed.

(** ** The verdict of the loop *)

Lemma loop_answer_verdict (fuel : nat) (l : list token) :
  List.length l < fuel ->
  match loop_answer fuel l with
  | Ret (b, n) =>
      b = chain_tail (map fst l) /\
      (b = true -> exists semi, nth_error l n = Some (END, semi))
  | Raise e => chain_tail (map fst l) = false /\ ~ In END (map fst l)
  | OutOfFuel => False
  end.
Proof.
  revert l. induction fuel as [|fuel IH]; intros l Hlen; [lia|].
  cbn [loop_answer].
  destruct l as [|[ty v] l]; [simpl; auto|].
  cbn [fst map chain_tail].
  destruct (type_eqb ty END) eqn:E1.
  { apply type_eqb_eq in E1; subst. simpl. eauto. }
  destruct (type_eqb ty PLUS) eqn:E2.
  2:{ split; [|discriminate].
      destruct ty; try reflexivity; discriminate. }
  apply type_eqb_eq in E2; subst ty.
  destruct l as [|[ty' v'] l].
  { simpl. split; [reflexivity | intros [H | []]; discriminate]. }
  cbn [fst map term_chain].
  destruct (is_value_type ty') eqn:E3.
  2:{ split; [reflexivity | discriminate]. }
  simpl in Hlen. specialize (IH l ltac:(lia)).
  fold (chain_tail (map fst l)).
  destruct (loop_answer fuel l) as [[b n] | e |]; [| |contradiction].
  - destruct IH as [Hb Hn]. split; [exact Hb | exact Hn].
  - destruct IH as [Hc Hi]. split; [exact Hc|].
    simpl. intros [H | [H | H]]; [discriminate | | contradiction].
    subst ty'. discriminate.
Qed.

Lemma term_chain_tail (t : token_type) (l : list token_type) :
  term_chain (t :: l) = is_value_type t && chain_tail l.
Proof. reflexivity. Qed.

(** The recogniser and the shape in words agree. *)
Lemma term_chain_shape (l : list token_type) : term_chain l = true <-> chain_shape l.
Proof.
  split.
  - remember (List.length l) as n eqn:Hn. revert l Hn.
    induction n as [n IH] using lt_wf_ind. intros l Hn H.
    destruct l as [|t l]; [discriminate|].
    rewrite term_chain_tail in H. apply andb_true_iff in H. destruct H as [Ht Hl].
    destruct l as [|t' l]; [discriminate|].
    destruct t'; try discriminate.
    + exists [t], l. simpl. rewrite Ht. repeat split. discriminate.
    + simpl in Hl. destruct (IH (List.length l)) with (l := l) as [terms [post [Hne [Hv E]]]];
        [simpl in Hn; lia | reflexivity | exact Hl |].
      exists (t :: terms), post. split; [discriminate|]. split.
      * simpl. now rewrite Ht, Hv.
      * destruct terms as [|t1 terms]; [contradiction|]. simpl in *. now rewrite E.
  - intros [terms [post [Hne [Hv E]]]]. subst l. revert Hne Hv.
    induction terms as [|t terms IH]; [contradiction|]. intros _ Hv.
    simpl in Hv. apply andb_true_iff in Hv. destruct Hv as [Ht Hv].
    destruct terms as [|t1 terms].
    + simpl. now rewrite Ht.
    + change (intersperse PLUS (t :: t1 :: terms))
        with (t :: PLUS :: intersperse PLUS (t1 :: terms)).
      cbn [app]. rewrite term_chain_tail, Ht. cbn [andb chain_tail].
      apply IH; [discriminate | exact Hv].
Qed.

(** The deviations the spec names, after [print]: [a b ;], [+ b ;],
    [a + + b ;], [a + ;] and [;] are all rejected. *)
Example expression_rejects_the_named_deviations :
  Forall (fun l => exists self',
            expression (positioned [(PRINT, "print")] l) start = (Ret (false, self'), start))
    [ [(ID, "a"); (ID, "b"); (END, ";")];
      [(PLUS, "+"); (ID, "b"); (END, ";")];
      [(ID, "a"); (PLUS, "+"); (PLUS, "+"); (ID, "b"); (END, ";")];
      [(ID, "a"); (PLUS, "+"); (END, ";")];
      [(END, ";")] ].
Proof. repeat constructor; eexists; vm_compute; reflexivity. Qed.

(** ** Well-formed statements reach the interpreter *)

Lemma expr_tokens_cons (t : term) (terms : list term) :
  expr_tokens (t :: terms) = term_token t :: tail_tokens terms.
Proof.
  unfold expr_tokens. revert t. induction terms as [|t' terms IH]; intro t; [reflexivity|].
  change (map term_token (t :: t' :: terms))
    with (term_token t :: map term_token (t' :: terms)).
  change (intersperse (PLUS, "+") (term_token t :: map term_token (t' :: terms)))
    with (term_token t :: (PLUS, "+") :: intersperse (PLUS, "+") (map term_token (t' :: terms))).
  now rewrite IH.
Qed.

Lemma term_token_is_value (t : term) : is_value_type (fst (term_token t)) = true.
Proof. destruct t; reflexivity. Qed.

Lemma loop_answer_tail (terms : list term) (semi : string) (post : list token) (fuel : nat) :
  List.length terms < fuel ->
  loop_answer fuel (tail_tokens terms ++ (END, semi) :: post)
  = Ret (true, List.length (tail_tokens terms)).
Proof.
  revert fuel. induction terms as [|t terms IH]; intros fuel Hf.
  - destruct fuel; [lia | reflexivity].
  - destruct fuel; [lia|]. simpl in Hf.
    cbn [tail_tokens flat_map List.app loop_answer fst].
    change (type_eqb PLUS END) with false. change (type_eqb PLUS PLUS) with true.
    cbn iota. rewrite term_token_is_value.
    fold (tail_tokens terms). rewrite IH by lia. reflexivity.
Qed.

Lemma expression_accepts_terms (pre : list token) (t : term) (terms : list term)
  (semi : string) (post : list token) (w : world) :
  expression (positioned pre (expr_tokens (t :: terms) ++ (END, semi) :: post)) w
  = (Ret (true, positioned (pre ++ expr_tokens (t :: terms)) ((END, semi) :: post)), w).
Proof.
  rewrite expression_positioned, expr_tokens_cons. cbn [List.app].
  rewrite term_token_is_value, loop_answer_tail.
  - cbn [moved]. rewrite firstn_app, firstn_all, Nat.sub_diag, skipn_app, skipn_all, Nat.sub_diag.
    cbn [firstn skipn List.app]. rewrite app_nil_r.
    rewrite <- app_assoc. reflexivity.
  - rewrite !length_app. simpl. unfold tail_tokens. rewrite (flat_map_concat_map _ terms).
    clear. induction terms; simpl; lia.
Qed.

Lemma currIndex_positioned (pre : list token) (t : token) (l : list token) :
  currIndex (positioned pre (t :: l)) - 1 = List.length pre.
Proof. unfold positioned; simpl. lia. Qed.

Lemma currIndex_positioned_terms (pre : list token) (t : term) (terms : list term)
  (l : list token) :
  currIndex (positioned pre (expr_tokens (t :: terms) ++ l)) - 1 = List.length pre.
Proof. rewrite expr_tokens_cons. apply currIndex_positioned. Qed.

Lemma tokens_positioned (pre l : list token) : tokens (positioned pre l) = (pre ++ l)%list.
Proof. reflexivity. Qed.

Lemma valid_match_positioned (ty : token_type) (v : string) (pre l : list token) :
  valid_match ty (positioned pre ((ty, v) :: l)) = ret (positioned (pre ++ [(ty, v)]) l).
Proof.
  unfold valid_match. rewrite curr_token_positioned, bind_ret. cbn [fst].
  now rewrite type_eqb_refl, next_token_positioned.
Qed.


Lemma parse_set (kw x semi : string) (t : term) (terms : list term) (w : world) :
  let toks := (SET, kw) :: (ID, x) :: (expr_tokens (t :: terms) ++ [(END, semi)])%list in
  parse (new_Parser toks) w = do_set toks 2 (2 + List.length (expr_tokens (t :: terms))) w.
Proof.
  intro toks. unfold parse, statement.
  rewrite next_token_new. subst toks.
  rewrite curr_token_positioned, bind_ret. cbn [fst].
  change (type_eqb SET APPEND || type_eqb SET SET) with true. cbn iota.
  rewrite next_token_positioned, valid_match_positioned, bind_ret.
  unfold bind at 1. rewrite expression_accepts_terms. cbn [negb].
  rewrite valid_match_positioned, bind_ret, tokens_positioned.
  change (type_eqb SET APPEND) with false. cbn iota.
  rewrite currIndex_positioned_terms, currIndex_positioned, !length_app.
  reflexivity.
Qed.

Lemma parse_print (kw semi : string) (t : term) (terms : list term) (w : world) :
  let toks := (PRINT, kw) :: (expr_tokens (t :: terms) ++ [(END, semi)])%list in
  parse (new_Parser toks) w = expr_print toks 1 (1 + List.length (expr_tokens (t :: terms))) w.
Proof.
  intro toks. unfold parse, statement.
  rewrite next_token_new. subst toks.
  rewrite curr_token_positioned, bind_ret. cbn [fst].
  change (type_eqb PRINT APPEND || type_eqb PRINT SET) with false.
  change (type_eqb PRINT LIST) with false. change (type_eqb PRINT EXIT) with false.
  change (type_eqb PRINT REVERSE) with false.
  change (is_infix "PRINT" (type_name PRINT)) with true. cbn iota.
  rewrite next_token_positioned.
  unfold bind at 1. rewrite expression_accepts_terms. cbn [negb].
  rewrite valid_match_positioned, bind_ret, tokens_positioned.
  rewrite currIndex_positioned_terms, currIndex_positioned, !length_app.
  reflexivity.
Qed.

(** ** Evaluation *)

Lemma eval_loop_slice (mid pre post : list token) (acc : string) (w : world) :
  eval_loop (pre ++ mid ++ post) (seq (List.length pre) (List.length mid)) acc w
  = eval_tokens mid acc w.
Proof.
  revert pre acc w. induction mid as [|[ty v] mid IH]; intros pre acc w; [reflexivity|].
  assert (E : forall acc w,
             eval_loop (pre ++ ((ty, v) :: mid) ++ post)
               (seq (S (List.length pre)) (List.length mid)) acc w
             = eval_tokens mid acc w).
  { intros acc' w'. specialize (IH (pre ++ [(ty, v)])%list acc' w').
    rewrite length_app, <- app_assoc in IH. simpl in IH.
    rewrite Nat.add_1_r in IH. exact IH. }
  cbn [List.length seq eval_loop eval_tokens]. unfold token_at.
  rewrite nth_error_app2, Nat.sub_diag by lia. cbn [List.app nth_error].
  rewrite bind_ret.
  destruct ty; try apply E.
  - destruct (String.eqb v "SPACE"); [apply E|].
    destruct (String.eqb v "TAB"); apply E.
  - unfold bind, get_table.
    destruct (get_table_record v (symbol_table w)); [apply E | reflexivity].
Qed.

Lemma eval_tokens_tail (terms : list term) (semi : string) (acc : string) (w : world) :
  eval_tokens (tail_tokens terms ++ [(END, semi)]) acc w = evaluated terms acc w.
Proof.
  revert acc. induction terms as [|t terms IH]; intro acc.
  - unfold evaluated. simpl. now rewrite append_empty_r.
  - cbn [tail_tokens flat_map List.app eval_tokens]. fold (tail_tokens terms).
    unfold evaluated. destruct t as [name | decoded | c]; cbn [term_token eval_tokens].
    + unfold bind, get_table. cbn [first_undefined map term_value concat_all].
      destruct (get_table_record name (symbol_table w)) as [record|]; [|reflexivity].
      rewrite IH. unfold evaluated.
      destruct (first_undefined _ terms); [reflexivity | now rewrite append_assoc].
    + rewrite IH. unfold evaluated. cbn [first_undefined map term_value concat_all].
      destruct (first_undefined _ terms); [reflexivity | now rewrite append_assoc].
    + destruct c; cbn; rewrite IH; unfold evaluated;
        (destruct (first_undefined _ terms); [reflexivity | now rewrite append_assoc]).
Qed.

Lemma eval_expression_terms (pre post : list token) (terms : list term) (semi : string)
  (w : world) :
  eval_expression (pre ++ expr_tokens terms ++ (END, semi) :: post)
    (List.length pre) (List.length pre + List.length (expr_tokens terms)) w
  = evaluated terms "" w.
Proof.
  unfold eval_expression, range.
  replace (List.length pre + List.length (expr_tokens terms) + 1 - List.length pre)
    with (List.length (expr_tokens terms ++ [(END, semi)]))
    by (rewrite length_app; simpl; lia).
  replace (expr_tokens terms ++ (END, semi) :: post)%list
    with ((expr_tokens terms ++ [(END, semi)]) ++ post)%list
    by (now rewrite <- app_assoc).
  rewrite eval_loop_slice.
  destruct terms as [|t terms].
  - unfold evaluated. reflexivity.
  - rewrite expr_tokens_cons.
    change (eval_tokens ((term_token t :: tail_tokens terms) ++ [(END, semi)]) "" w)
      with (eval_tokens (tail_tokens (t :: terms) ++ [(END, semi)]) "" w).
    apply eval_tokens_tail.
Qed.

(** The program's search of the table finds what the lookup of the spec
    gives. *)
Lemma get_table_record_lookup (name : string) (table : list (string * string)) :
  option_map snd (get_table_record name table) = lookup name table.
Proof.
  unfold lookup. induction table as [|record table IH]; [reflexivity|].
  cbn [get_table_record find]. destruct (String.eqb (fst record) name); [reflexivity|].
  exact IH.
Qed.

Lemma term_value_in (table : list (string * string)) (t : term) :
  term_value table t = value_in table t.
Proof.
  destruct t as [name | decoded | c]; try reflexivity.
  cbn [term_value value_in]. rewrite <- get_table_record_lookup.
  destruct (get_table_record name table); reflexivity.
Qed.

Lemma first_undefined_missing (table : list (string * string)) (terms : list term) :
  first_undefined table terms = first_missing table terms.
Proof.
  unfold first_missing. induction terms as [|t terms IH]; [reflexivity|].
  destruct t as [name | decoded | c]; cbn [first_undefined identifiers flat_map List.app];
    try exact IH.
  cbn [find]. rewrite <- get_table_record_lookup.
  destruct (get_table_record name table); [exact IH | reflexivity].
Qed.

(** C6. For the tokens of an expression t1 + ... + tk and its terminator,
    evaluation gives the concatenation, from left to right, of the values
    of the terms: for an identifier the value the table holds for that
    name, for a literal its decoded text, for a constant one space, tab or
    line feed; the plus signs and the terminator add nothing, and nothing
    is printed or changed.  If the table has no value for some identifier
    the result is None, with no partial string, and the one line printed
    names the first such identifier.  A Print statement prints the
    string. *)
Theorem eval_expression_concatenates_terms
  (pre post : list token) (t : term) (terms : list term) (kw semi : string) (w : world) :
  let table := symbol_table w in
  let value := concat_all (map (value_in table) (t :: terms)) in
  eval_expression (pre ++ expr_tokens (t :: terms) ++ (END, semi) :: post)
    (List.length pre) (List.length pre + List.length (expr_tokens (t :: terms))) w
  = match first_missing table (t :: terms) with
    | None => (Ret (Some value), w)
    | Some name => (Ret None, snd (print (undefined_variable name) w))
    end
  /\ parse (new_Parser ((PRINT, kw) :: expr_tokens (t :: terms) ++ [(END, semi)])%list) w
     = match first_missing table (t :: terms) with
       | None => print value w
       | Some name =>
           (print (undefined_variable name) ;;
            print "Cannot print an invalid or non-exsistent expression") w
       end.
Proof.
  intros table value. subst value.
  rewrite <- first_undefined_missing, <- (map_ext _ _ (term_value_in table)).
  split.
  - rewrite eval_expression_terms. reflexivity.
  - rewrite parse_print. unfold expr_print, token_at. cbn [nth_error]. rewrite bind_ret.
    unfold bind at 1.
    match goal with
    | |- context [eval_expression ?a ?b ?c w] =>
        change (eval_expression a b c w)
          with (eval_expression ([(PRINT, kw)] ++ expr_tokens (t :: terms) ++ [(END, semi)])
                  (List.length [(PRINT, kw)])
                  (List.length [(PRINT, kw)] + List.length (expr_tokens (t :: terms))) w)
    end.
    rewrite eval_expression_terms.
    unfold evaluated. fold table.
    destruct (first_undefined table (t :: terms)); reflexivity.
Qed.

(** In the table [a : x, b : y, a : z] the tokens of
    [a + SPACE + "z" + b + TAB + NEWLINE] after [print] evaluate to
    [x zy], a tab and a line feed; those of [a + c + d] give None and the
    message about [c]. *)
Lemma eval_expression_concatenates_terms_witness :
  let w := {| symbol_table := [("a", "x"); ("b", "y"); ("a", "z")];
              stdout := []; handed := [] |} in
  eval_expression
    [(PRINT, "print"); (ID, "a"); (PLUS, "+"); (CONSTANT, "SPACE"); (PLUS, "+");
     (LITERAL, "z"); (PLUS, "+"); (ID, "b"); (PLUS, "+"); (CONSTANT, "TAB"); (PLUS, "+");
     (CONSTANT, "NEWLINE"); (END, ";")] 1 12 w
  = (Ret (Some ("x zy" ++ String tab nl)), w)
  /\ eval_expression
       [(PRINT, "print"); (ID, "a"); (PLUS, "+"); (ID, "c"); (PLUS, "+"); (ID, "d");
        (END, ";")] 1 6 w
     = (Ret None,
        {| symbol_table := [("a", "x"); ("b", "y"); ("a", "z")];
           stdout := ["ERROR: the variable c does not exist"]; handed := [] |})
  /\ parse (new_Parser [(PRINT, "print"); (ID, "b"); (PLUS, "+"); (ID, "a"); (END, ";")]) w
     = (Ret tt,
        {| symbol_table := [("a", "x"); ("b", "y"); ("a", "z")];
           stdout := ["yx"]; handed := [] |}).
Proof.
  intro w. split; [|split].
  - exact (proj1 (eval_expression_concatenates_terms [(PRINT, "print")] []
                    (Identifier "a")
                    [Constant SPACE; Literal "z"; Identifier "b"; Constant TAB;
                     Constant NEWLINE] "print" ";" w)).
  - exact (proj1 (eval_expression_concatenates_terms [(PRINT, "print")] []
                    (Identifier "a") [Identifier "c"; Identifier "d"] "print" ";" w)).
  - exact (proj2 (eval_expression_concatenates_terms [] []
                    (Identifier "b") [Identifier "a"] "print" ";" w)).
Defined.




(** ** The segmenter *)

Lemma mod2_odd (n : nat) : Nat.eqb (n mod 2) 1 = Nat.odd n.
Proof. rewrite <- Nat.bit0_mod, Nat.bit0_odd. now destruct (Nat.odd n). Qed.

Lemma odd_add_one (n : nat) : Nat.odd (1 + n) = negb (Nat.odd n).
Proof. change (1 + n) with (S n). now rewrite Nat.odd_succ, <- Nat.negb_odd. Qed.

(** The lookahead holds exactly when an even number of quotes follows. *)
Lemma lookahead_parity (s : string) (inside : bool) :
  lookahead inside s = negb (xorb inside (Nat.odd (count dquote s))).
Proof.
  revert inside. induction s as [|c s IH]; intro inside; cbn [lookahead count].
  - now destruct inside.
  - destruct (Ascii.eqb c dquote); rewrite IH.
    + rewrite odd_add_one. now destruct inside, (Nat.odd (count dquote s)).
    + reflexivity.
Qed.

Lemma lookahead_even (s : string) : lookahead false s = Nat.even (count dquote s).
Proof. rewrite lookahead_parity, <- Nat.negb_odd. reflexivity. Qed.

Lemma end_matches_from_iff (s : string) (pos e : nat) :
  In e (end_matches_from pos s) <->
  exists pre post,
    s = pre ++ String semicolon post /\ e = pos + String.length pre + 1 /\
    Nat.even (count dquote post) = true.
Proof.
  revert pos. induction s as [|c s IH]; intro pos; cbn [end_matches_from].
  - split; [intros [] | intros [[|d pre] [post [H _]]]; discriminate H].
  - assert (Tail : In e (end_matches_from (pos + 1) s) <->
                   exists pre post,
                     String c s = String c pre ++ String semicolon post /\
                     e = pos + String.length (String c pre) + 1 /\
                     Nat.even (count dquote post) = true).
    { rewrite IH. split; intros [pre [post [H1 [H2 H3]]]]; exists pre, post.
      - split; [simpl; now rewrite H1 | split; [simpl; lia | exact H3]].
      - split; [simpl in H1; now injection H1 | split; [simpl in H2; lia | exact H3]]. }
    destruct (Ascii.eqb c semicolon && lookahead false s) eqn:Ec.
    + apply andb_true_iff in Ec. destruct Ec as [Ec El].
      apply Ascii.eqb_eq in Ec. subst c. rewrite lookahead_even in El.
      split.
      * intros [H | H].
        -- exists "", s. simpl. repeat split; [lia | exact El].
        -- apply Tail in H. destruct H as [pre [post H]]. exists (String semicolon pre), post.
           exact H.
      * intros [[|d pre] [post [H1 [H2 H3]]]].
        -- left. simpl in H2. lia.
        -- right. apply Tail. simpl in H1. injection H1 as Hd Hs. subst d s.
           exists pre, post. repeat split; [exact H2 | exact H3].
    + split.
      * intro H. apply Tail in H. destruct H as [pre [post H]]. exists (String c pre), post.
        exact H.
      * intros [[|d pre] [post [H1 [H2 H3]]]].
        -- simpl in H1. injection H1 as Hc Hs. subst c s.
           rewrite Ascii.eqb_refl, lookahead_even, H3 in Ec. discriminate Ec.
        -- apply Tail. simpl in H1. injection H1 as Hd Hs. subst d s.
           exists pre, post. repeat split; [exact H2 | exact H3].
Qed.

(** The matches are found from left to right. *)
Lemma end_matches_from_increasing (s : string) (pos : nat) :
  Forall (fun e => pos < e) (end_matches_from pos s) /\
  StronglySorted lt (end_matches_from pos s).
Proof.
  revert pos. induction s as [|c s IH]; intro pos; cbn [end_matches_from].
  - split; constructor.
  - destruct (IH (pos + 1)) as [Hlt Hs].
    assert (Hlt' : Forall (fun e => pos < e) (end_matches_from (pos + 1) s)).
    { eapply Forall_impl; [|exact Hlt]. simpl. intros; lia. }
    destruct (_ && _).
    + split; constructor; auto. lia.
    + split; auto.
Qed.

Lemma even_quotes_split (pre post : string) :
  Nat.even (count dquote (pre ++ String semicolon post)) = true ->
  Nat.even (count dquote post) = Nat.even (count dquote pre).
Proof.
  rewrite count_append. cbn [count]. change (Ascii.eqb semicolon dquote) with false.
  cbn [Nat.add]. rewrite Nat.even_add.
  destruct (Nat.even (count dquote pre)), (Nat.even (count dquote post));
    simpl; congruence.
Qed.

Lemma hands_on_refl (w : world) : hands_on w w.
Proof. exists []. now rewrite app_nil_r. Qed.

Lemma hands_on_trans (a b c : world) : hands_on a b -> hands_on b c -> hands_on a c.
Proof.
  intros [m1 E1] [m2 E2]. exists (m1 ++ m2)%list. now rewrite E2, E1, app_assoc.
Qed.

Lemma hands_on_print (line : string) (w : world) : hands_on w (snd (print line w)).
Proof. exact (hands_on_refl w). Qed.

Lemma hands_on_overwrite (w : world) (record : string * string) (name value : string) :
  get_table_record name (symbol_table w) = Some record ->
  hands_on w (snd (put_table (overwrite name value (symbol_table w)) w)).
Proof. intros _. exact (hands_on_refl w). Qed.

Lemma hands_on_insert (w : world) (name value : string) :
  get_table_record name (symbol_table w) = None ->
  hands_on w (snd (put_table (symbol_table w ++ [(name, value)])%list w)).
Proof. intros _. exact (hands_on_refl w). Qed.

Lemma hands_on_note (unit : string) (w : world) : hands_on w (snd (note_handed unit w)).
Proof. exists [unit]. reflexivity. Qed.

(** After a unit has been noted, whatever follows in the line keeps it in
    the history. *)
Lemma hands_on_rest_of_line (unit : string) (ends : list nat) (buf : string) (w : world) :
  hands_on w
    (snd (bind (bind (process unit) (fun _ => for_end_matches ends buf))
               (fun b => get_user_input_loop [] b) w)).
Proof.
  apply (keeps_bind hands_on hands_on_trans).
  - apply (keeps_bind hands_on hands_on_trans).
    + exact (keeps_process hands_on hands_on_refl hands_on_trans hands_on_print
               hands_on_overwrite hands_on_insert unit).
    + intros _.
      exact (keeps_for_end_matches hands_on hands_on_refl hands_on_trans hands_on_print
               hands_on_overwrite hands_on_insert hands_on_note ends buf).
  - intros b w0. exact (hands_on_refl w0).
Qed.

(** C1, where the program departs from it.  The segmenter counts every
    quote of the buffer, whether a backslash stands before it or not,
    although the lexer reads a quote after a backslash as part of the
    literal.  With an odd count the line is only added to the buffer and
    nothing is handed to the lexer; with an even count the semicolons
    chosen as terminators are exactly those with an even number of quotes
    before them, found from left to right, and the first statement handed
    on is the buffer up to and including the first of them.  So a print
    statement whose literal holds one escaped quote, complete for the lexer
    and with two quotes that are not escaped, is not handed on.  And when
    it is followed on its line by a second print statement with the literal
    [c;d], and a lone quote on the next line makes the count even, the only
    text handed on ends at the semicolon inside that literal.  The line
    [Set a "semi;colon"; Print a;], which has no escaped quote, gives two
    statements. *)
Theorem segmenter_cuts_on_raw_quote_parity :
  (forall buf line lines w,
     Nat.odd (count dquote (buf ++ line ++ nl)) = true ->
     get_user_input_loop (line :: lines) buf w
     = get_user_input_loop lines (buf ++ line ++ nl) w)
  /\ (forall buf line w,
        Nat.even (count dquote (buf ++ line ++ nl)) = true ->
        (forall e, In e (end_matches (buf ++ line ++ nl)) <->
           exists pre post,
             buf ++ line ++ nl = pre ++ String semicolon post /\
             e = String.length pre + 1 /\
             Nat.even (count dquote pre) = true)
        /\ StronglySorted lt (end_matches (buf ++ line ++ nl))
        /\ (forall e ends, end_matches (buf ++ line ++ nl) = e :: ends ->
            exists pre post more,
              buf ++ line ++ nl = pre ++ String semicolon post /\
              e = String.length pre + 1 /\
              Nat.even (count dquote pre) = true /\
              handed (snd (get_user_input_loop [line] buf w))
              = (handed w ++ (pre ++ ";")%string :: more)%list))
  /\ (let line := "print " ++ q ++ "a" ++ bs ++ q ++ "b" ++ q ++ ";" in
      count_unescaped None (line ++ nl) = 2
      /\ count dquote (line ++ nl) = 3
      /\ lexer line = Ret [(PRINT, "print"); (LITERAL, "a" ++ q ++ "b"); (END, ";")]
      /\ get_user_input [line] start = (Ret (line ++ nl), start))
  /\ (let line := "print " ++ q ++ "a" ++ bs ++ q ++ "b" ++ q ++ "; print "
                  ++ q ++ "c;d" ++ q ++ ";" in
      lexer line
      = Ret [(PRINT, "print"); (LITERAL, "a" ++ q ++ "b"); (END, ";");
             (PRINT, "print"); (LITERAL, "c;d"); (END, ";")]
      /\ handed (snd (get_user_input [line; q] start))
         = ["print " ++ q ++ "a" ++ bs ++ q ++ "b" ++ q ++ "; print " ++ q ++ "c;"]
      /\ stdout (snd (get_user_input [line; q] start))
         = ["ERROR: Unexpected token entered at position 20: '" ++ q
            ++ "'. Try input again"])
  /\ handed (snd (get_user_input [quoted_semicolon_line] start))
     = ["Set a " ++ q ++ "semi;colon" ++ q ++ ";"; "Print a;" ++ nl].
Proof.
  assert (Matches : forall b, Nat.even (count dquote b) = true ->
            forall e, In e (end_matches b) <->
              exists pre post,
                b = pre ++ String semicolon post /\ e = String.length pre + 1 /\
                Nat.even (count dquote pre) = true).
  { intros b Heven e. unfold end_matches. rewrite end_matches_from_iff.
    split; intros [pre [post [H1 [H2 H3]]]]; exists pre, post;
      (split; [exact H1 | split; [lia|]]);
      rewrite H1 in Heven; apply even_quotes_split in Heven; congruence. }
  split; [|split; [|split; [|split]]].
  - intros buf line lines w Hodd. cbn [get_user_input_loop].
    rewrite mod2_odd, Hodd. reflexivity.
  - intros buf line w. generalize (Matches (buf ++ line ++ nl)).
    set (b := buf ++ line ++ nl). intros Hm Heven.
    split; [exact (Hm Heven)|]. split.
    + apply end_matches_from_increasing.
    + intros e ends He.
      assert (Hin : In e (end_matches b)) by (rewrite He; now left).
      apply (Hm Heven) in Hin. destruct Hin as [pre [post [H1 [H2 H3]]]].
      exists pre, post.
      destruct (hands_on_rest_of_line (take e b) ends (drop (e + 1) b)
                  (snd (note_handed (take e b) w))) as [more Hmore].
      exists more. split; [exact H1|]. split; [exact H2|]. split; [exact H3|].
      cbn [get_user_input_loop]. fold b. rewrite mod2_odd, <- Nat.negb_even, Heven, He.
      cbn [negb for_end_matches].
      replace (pre ++ ";") with (take e b).
      * cbn [note_handed snd handed] in Hmore. rewrite <- app_assoc in Hmore.
        exact Hmore.
      * rewrite H1, H2.
        replace (pre ++ String semicolon post) with ((pre ++ ";") ++ post)
          by (now rewrite append_assoc).
        replace (String.length pre + 1) with (String.length (pre ++ ";"))
          by (rewrite length_append; reflexivity).
        apply take_append.
  - vm_compute. repeat split.
  - vm_compute. repeat split.
  - vm_compute. reflexivity.
Qed.

(** An odd count holds back the print statement with the escaped quote; an
    even one cuts at the first semicolon with an even number of quotes
    before it. *)
Lemma segmenter_cuts_on_raw_quote_parity_witness :
  get_user_input_loop ["print " ++ q ++ "a" ++ bs ++ q ++ "b" ++ q ++ ";"] "" start
  = (Ret ("print " ++ q ++ "a" ++ bs ++ q ++ "b" ++ q ++ ";" ++ nl), start)
  /\ (exists more,
        handed (snd (get_user_input_loop ["b" ++ q ++ "; list;"] ("set a " ++ q ++ ";" ++ nl) start))
        = (("set a " ++ q ++ ";" ++ nl ++ "b" ++ q ++ ";")%string :: more)%list).
Proof.
  split.
  - exact (proj1 segmenter_cuts_on_raw_quote_parity ""
             ("print " ++ q ++ "a" ++ bs ++ q ++ "b" ++ q ++ ";") [] start eq_refl).
  - destruct (proj1 (proj2 segmenter_cuts_on_raw_quote_parity)
                ("set a " ++ q ++ ";" ++ nl) ("b" ++ q ++ "; list;") start eq_refl)
      as [_ [_ H3]].
    destruct (H3 12 [18] eq_refl) as [pre [post [more [H1 [H2 [_ H4]]]]]].
    exists more. rewrite H4. cbn [start handed List.app].
    assert (Hpre : pre = take 11 (("set a " ++ q ++ ";" ++ nl) ++ ("b" ++ q ++ "; list;") ++ nl)).
    { rewrite H1. replace 11 with (String.length pre) by lia. now rewrite take_append. }
    rewrite Hpre. reflexivity.
Defined.

(** C2, at a line the program does not cut as the spec says.  The end
    positions are all computed on the buffer as it was before the loop, and
    each statement takes one more character out of the buffer than it
    hands on.  For [list;list;] the second statement handed to the lexer is
    [ist;] and a line feed: the letter after the first semicolon is lost,
    and the lexer reads an identifier.  For [list; list; list;] the second
    statement handed on is [list; list;], twice the text, and the third is
    empty. *)
Theorem later_statements_are_cut_at_stale_positions :
  end_matches ("list;list;" ++ nl) = [5; 10]
  /\ handed (snd (get_user_input ["list;list;"] start)) = ["list;"; "ist;" ++ nl]
  /\ lexer ("ist;" ++ nl) = Ret [(ID, "ist"); (END, ";")]
  /\ stdout (snd (get_user_input ["list;list;"] start))
     = ["Identifier List (0):";
        "ERROR: Invalid Input. This is not a recognised statement:     ist ;"]
  /\ end_matches ("list; list; list;" ++ nl) = [5; 11; 17]
  /\ handed (snd (get_user_input ["list; list; list;"] start)) = ["list;"; "list; list;"; ""].
Proof. vm_compute. repeat split. Qed.

(** C3, at a statement the parser does not skip.  In [set "x";] the ID that
    must follow SET is missing.  The parser prints the mismatch and goes on:
    [do_set] runs, reads the literal as the variable name, and the table
    gets the record [x : x].  In [list list;] the END that must follow LIST
    is missing and the table is listed all the same. *)
Theorem mismatch_is_reported_and_the_statement_still_runs :
  lexer ("set " ++ q ++ "x" ++ q ++ ";") = Ret [(SET, "set"); (LITERAL, "x"); (END, ";")]
  /\ parse (new_Parser [(SET, "set"); (LITERAL, "x"); (END, ";")]) start
     = (Ret tt,
        {| symbol_table := [("x", "x")];
           stdout := ["Expected ID but got a token LITERAL with value " ++ q ++ "x" ++ q];
           handed := [] |})
  /\ parse (new_Parser [(LIST, "list"); (LIST, "list"); (END, ";")]) start
     = (Ret tt,
        {| symbol_table := [];
           stdout := ["Expected END but got a token LIST with value " ++ q ++ "list" ++ q;
                      "Identifier List (0):"];
           handed := [] |}).
Proof. vm_compute. repeat split. Qed.

(** The parser on no tokens at all: [currToken] is still None when its
    type is read. *)
Lemma parse_nothing (w : world) : parse (new_Parser []) w = (Raise TypeError, w).
Proof. reflexivity. Qed.

(** C4, at inputs that end the session without an Exit statement.  For the
    line [;;] the second statement handed on is a lone line feed; it has no
    tokens, the parser raises a TypeError that the handler for ValueError
    does not catch, and the next line is never read.  The line
    [xxxxxxx;;print a +] ends the session inside the expression check.  And
    the failed statement [set "x";] has changed the table. *)
Theorem session_dies_on_a_statement_without_tokens :
  handed (snd (get_user_input [";;"; "list;"] start)) = [";"; nl]
  /\ lexer nl = Ret []
  /\ (forall w, parse (new_Parser []) w = (Raise TypeError, w))
  /\ fst (get_user_input [";;"; "list;"] start) = Raise TypeError
  /\ stdout (snd (get_user_input [";;"; "list;"] start))
     = ["ERROR: Invalid Input. This is not a recognised statement:     ;"]
  /\ get_user_input ["xxxxxxx;;print a +"; "list;"] start
     = (Raise TypeError,
        {| symbol_table := [];
           stdout := ["ERROR: Invalid Input. This is not a recognised statement:     xxxxxxx ;"];
           handed := ["xxxxxxx;"; "print a +"] |})
  /\ symbol_table (snd (get_user_input ["set " ++ q ++ "x" ++ q ++ ";"] start)) = [("x", "x")].
Proof.
  split; [vm_compute; reflexivity|]. split; [vm_compute; reflexivity|].
  split; [exact parse_nothing|]. vm_compute. repeat split.
Qed.

(** The parser on the keyword exit and one more token at least. *)
Lemma parse_exit (kw : string) (t : token) (rest : list token) (w : world) :
  parse (new_Parser ((EXIT, kw) :: t :: rest)) w
  = (Raise SystemExit,
     if type_eqb (fst t) END then w else snd (print (mismatch END t) w)).
Proof.
  unfold parse, statement. rewrite next_token_new, curr_token_positioned, bind_ret.
  cbn [fst]. change (type_eqb EXIT APPEND || type_eqb EXIT SET) with false.
  change (type_eqb EXIT LIST) with false. change (type_eqb EXIT EXIT) with true. cbn iota.
  rewrite next_token_positioned. unfold valid_match.
  rewrite curr_token_positioned, bind_ret.
  destruct (type_eqb (fst t) END); reflexivity.
Qed.

(** The handler of the read loop lets the exception through. *)
Lemma process_exit (text kw : string) (t : token) (rest : list token) (w : world) :
  lexer text = Ret ((EXIT, kw) :: t :: rest) ->
  process text w = parse (new_Parser ((EXIT, kw) :: t :: rest)) w.
Proof. intro E. unfold process. rewrite E, parse_exit. reflexivity. Qed.

Lemma process_exit_statement (text : string) (w : world) :
  exit_statement text -> fst (process text w) = Raise SystemExit.
Proof.
  intros [kw [t [rest E]]]. rewrite (process_exit _ _ _ _ _ E), parse_exit. reflexivity.
Qed.

Lemma process_same_handed (text : string) (w : world) :
  handed (snd (process text w)) = handed w.
Proof.
  apply (keeps_process same_handed); unfold same_handed; try reflexivity.
  intros a b c Hab Hbc. now rewrite Hbc.
Qed.

Lemma stops_at_exit_bind {A B : Type} (m : M A) (f : A -> M B) (w : world) :
  stops_at_exit w (m w) -> (forall a w', stops_at_exit w' (f a w')) ->
  stops_at_exit w (bind m f w).
Proof.
  intros [more1 [H1 S1]] Hf. unfold bind.
  destruct (m w) as [[a | e |] w1] eqn:Em; cbn [fst snd] in *.
  2,3: exists more1; split; [exact H1|]; intros earlier text later E Hexit;
    destruct (S1 _ _ _ E Hexit) as [Hl Hr]; split; [exact Hl|]; cbn [fst];
    now inversion Hr.
  destruct (Hf a w1) as [more2 [H2 S2]].
  exists (more1 ++ more2)%list. split; [now rewrite H2, H1, app_assoc|].
  intros earlier text later E Hexit.
  apply app_eq_app in E. destruct E as [l [[E1 E2] | [E1 E2]]].
  - destruct l as [|x l].
    + apply (S2 [] text later); [symmetry; exact E2 | exact Hexit].
    + cbn [List.app] in E2. injection E2 as Ex El. subst x.
      destruct (S1 earlier text l E1 Hexit) as [_ Hr]. discriminate Hr.
  - apply (S2 l text later E2 Hexit).
Qed.

(** A text is handed to the lexer and processed at once. *)
Lemma stops_at_exit_unit (text : string) (w : world) :
  stops_at_exit w ((note_handed text ;; process text) w).
Proof.
  exists [text]. unfold bind. cbn [note_handed]. split.
  - rewrite process_same_handed. reflexivity.
  - intros earlier t later E Hexit.
    destruct earlier as [|x earlier].
    + injection E as Et El. subst t later. split; [reflexivity|].
      now apply process_exit_statement.
    + injection E as _ E. destruct earlier; discriminate E.
Qed.

Lemma stops_at_exit_ret {A : Type} (a : A) (w : world) : stops_at_exit w (ret a w).
Proof.
  exists []. split; [now rewrite app_nil_r|].
  intros earlier text later E. destruct earlier; discriminate E.
Qed.

Lemma for_end_matches_stops_at_exit (ends : list nat) (buf : string) (w : world) :
  stops_at_exit w (for_end_matches ends buf w).
Proof.
  revert buf w. induction ends as [|e ends IH]; intros buf w; [apply stops_at_exit_ret|].
  cbn [for_end_matches].
  assert (E : forall (m1 m2 : M unit) (m3 : M string) w0,
             (m1 ;; m2 ;; m3) w0 = ((m1 ;; m2) ;; m3) w0).
  { intros m1 m2 m3 w0. unfold bind. destruct (m1 w0) as [[[] | x |] w1]; reflexivity. }
  rewrite E. apply stops_at_exit_bind; [apply stops_at_exit_unit|].
  intros _ w'. apply IH.
Qed.

Lemma get_user_input_loop_stops_at_exit (lines : list string) (buf : string) (w : world) :
  stops_at_exit w (get_user_input_loop lines buf w).
Proof.
  revert buf w. induction lines as [|l lines IH]; intros buf w; [apply stops_at_exit_ret|].
  cbn [get_user_input_loop]. destruct (negb _); [|apply IH].
  apply stops_at_exit_bind; [apply for_end_matches_stops_at_exit|].
  intros b w'. apply IH.
Qed.

(** C5, as the program has it.  An Exit statement ends in [exit()]: for the
    keyword followed by the terminator, or by any other token after the
    line about the mismatch is printed, the parser raises SystemExit and
    changes nothing else; in particular the symbol table is left as it
    was.  The handler of the read loop catches ValueError only, so the
    exception leaves [process] and [get_user_input].  When the first
    statement cut from a buffer is an Exit statement, no later statement of
    the buffer and no later line is processed; and in any session, from any
    buffer and state, a text handed to the lexer that is an Exit statement
    is the last text handed on, the session having ended with SystemExit.
    The keyword with no token after it is not an Exit statement for the
    parser: it raises TypeError. *)
Theorem exit_raises_SystemExit_through_the_read_loop
  (kw : string) (t : token) (rest : list token) (w : world) :
  let toks := (EXIT, kw) :: t :: rest in
  parse (new_Parser toks) w
  = (Raise SystemExit,
     if type_eqb (fst t) END then w else snd (print (mismatch END t) w))
  /\ symbol_table (snd (parse (new_Parser toks) w)) = symbol_table w
  /\ (forall text, lexer text = Ret toks -> process text w = parse (new_Parser toks) w)
  /\ (forall buf line lines e ends,
        Nat.even (count dquote (buf ++ line ++ nl)) = true ->
        end_matches (buf ++ line ++ nl) = e :: ends ->
        lexer (take e (buf ++ line ++ nl)) = Ret toks ->
        get_user_input_loop (line :: lines) buf w
        = (Raise SystemExit,
           snd (parse (new_Parser toks)
                  (snd (note_handed (take e (buf ++ line ++ nl)) w)))))
  /\ (forall lines buf earlier text later,
        lexer text = Ret toks ->
        handed (snd (get_user_input_loop lines buf w))
        = (handed w ++ earlier ++ text :: later)%list ->
        later = [] /\ fst (get_user_input_loop lines buf w) = Raise SystemExit)
  /\ parse (new_Parser [(EXIT, kw)]) w = (Raise TypeError, w).
Proof.
  intro toks. subst toks.
  split; [apply parse_exit|].
  split; [rewrite parse_exit; now destruct (type_eqb (fst t) END)|].
  split; [intros text E; now apply process_exit|].
  split; [|split; [|reflexivity]].
  - intros buf line lines e ends Heven He Hlex.
    cbn [get_user_input_loop]. rewrite mod2_odd, <- Nat.negb_even, Heven, He.
    cbn [negb for_end_matches]. unfold bind at 1 2. cbn [note_handed].
    unfold bind at 1. rewrite (process_exit _ _ _ _ _ Hlex), !parse_exit. reflexivity.
  - intros lines buf earlier text later Hlex Hh.
    destruct (get_user_input_loop_stops_at_exit lines buf w) as [more [Hm S]].
    rewrite Hm in Hh. apply app_inv_head in Hh.
    apply (S earlier text later Hh). now exists kw, t, rest.
Qed.

(** The line [exit; list;] followed by another line: nothing after [exit;]
    is processed.  In the session [list;], [exit list;], [list;] the second
    line is an Exit statement with LIST where the terminator must be: the
    mismatch is printed and the session ends there. *)
Lemma exit_raises_SystemExit_through_the_read_loop_witness :
  get_user_input_loop ["exit; list;"; "list;"] "" start
  = (Raise SystemExit, {| symbol_table := []; stdout := []; handed := ["exit;"] |})
  /\ fst (get_user_input_loop ["list;"; "exit list;"; "list;"] "" start) = Raise SystemExit
  /\ parse (new_Parser [(EXIT, "exit"); (LIST, "list"); (END, ";")]) start
     = (Raise SystemExit,
        {| symbol_table := [];
           stdout := ["Expected END but got a token LIST with value " ++ q ++ "list" ++ q];
           handed := [] |}).
Proof.
  split; [|split].
  - destruct (exit_raises_SystemExit_through_the_read_loop "exit" (END, ";") [] start)
      as [_ [_ [_ [H _]]]].
    exact (H "" "exit; list;" ["list;"] 5 [11] eq_refl eq_refl eq_refl).
  - destruct (exit_raises_SystemExit_through_the_read_loop
                "exit" (LIST, "list") [(END, ";")] start) as [_ [_ [_ [_ [H _]]]]].
    exact (proj2 (H ["list;"; "exit list;"; "list;"] "" ["list;"] "exit list;" []
                    eq_refl eq_refl)).
  - exact (proj1 (exit_raises_SystemExit_through_the_read_loop
                    "exit" (LIST, "list") [(END, ";")] start)).
Defined.

(** C5 as the spec words it fails: the parse of [exit;] does not return,
    with a control value or otherwise; it raises, and so does the read loop,
    which has no value to test. *)
Lemma exit_is_not_a_returned_value :
  (forall v w', parse (new_Parser [(EXIT, "exit"); (END, ";")]) start <> (Ret v, w'))
  /\ lexer "exit;" = Ret [(EXIT, "exit"); (END, ";")]
  /\ fst (get_user_input ["exit;"; "list;"] start) = Raise SystemExit
  /\ stdout (snd (get_user_input ["exit;"; "list;"] start)) = [].
Proof.
  split; [intros v w' H; vm_compute in H; discriminate H|].
  vm_compute. repeat split.
Qed.

(** ** Keywords *)

(** A pattern that starts with a letter does not match where a character
    outside [\w], or nothing, comes next. *)
Lemma strip_prefix_word (c : ascii) (p rest : string) :
  is_word c = true -> is_word_opt (head rest) = false ->
  strip_prefix (String c p) rest = None.
Proof.
  intros Hc Hr. destruct rest as [|d rest]; [reflexivity|]. simpl in *.
  destruct (Ascii.eqb_spec c d) as [E|E]; [congruence | reflexivity].
Qed.

Lemma strip_prefix_longer (p : string) (c : ascii) (p' rest : string) :
  is_word c = true -> is_word_opt (head rest) = false ->
  strip_prefix (p ++ String c p') (p ++ rest) = None.
Proof.
  intros Hc Hr. induction p as [|d p IH]; simpl.
  - now apply strip_prefix_word.
  - now rewrite Ascii.eqb_refl.
Qed.

Lemma strip_prefix_self (p rest : string) : strip_prefix p (p ++ rest) = Some rest.
Proof. induction p as [|d p IH]; simpl; [reflexivity | now rewrite Ascii.eqb_refl]. Qed.

Lemma keyword_mismatch (kw : string) (before : option ascii) (s : string) :
  strip_prefix kw s = None -> keyword kw before s = None.
Proof. intro H. unfold keyword. rewrite H. now destruct (word_boundary _ _). Qed.

Lemma keyword_match (c : ascii) (kw : string) (before : option ascii) (rest : string) :
  is_word c = true ->
  is_word_opt (last_char before (String c kw)) = true ->
  is_word_opt before = false ->
  is_word_opt (head rest) = false ->
  keyword (String c kw) before (String c kw ++ rest) = Some (String c kw, rest).
Proof.
  intros Hc Hl Hb Hr. unfold keyword, word_boundary.
  rewrite strip_prefix_self, Hb, Hl, Hr. cbn [append head is_word_opt]. now rewrite Hc.
Qed.

Ltac skip_pattern rest Hr :=
  rewrite keyword_mismatch
    by first [ reflexivity
             | exact (strip_prefix_longer "print" "l"%char "ength" rest eq_refl Hr)
             | exact (strip_prefix_longer "print" "w"%char "ords" rest eq_refl Hr)
             | exact (strip_prefix_longer "print" "w"%char "ordcount" rest eq_refl Hr) ].

(** C9, as the program has it.  The pattern table spells the statement
    keywords in lowercase.  Where a keyword in that spelling stands between
    characters that are not letters, digits or underscores (or at an end of
    the text), the first pattern that matches is the keyword's own, over the
    whole keyword, and never ID, which comes later in the table; so lexing
    the keyword alone gives its keyword token. *)
Theorem lowercase_keywords_lex_as_keywords
  (k : token_type) (kw : string) (before : option ascii) (rest : string) :
  spelling k = Some kw ->
  is_word_opt before = false ->
  is_word_opt (head rest) = false ->
  first_match patterns before (kw ++ rest) = Some (k, kw, rest)
  /\ lexer kw = Ret [(k, kw)].
Proof.
  intros Hs Hb Hr. split.
  - destruct k; inversion Hs; subst kw; clear Hs;
      unfold patterns; cbn [first_match];
      repeat skip_pattern rest Hr;
      rewrite keyword_match by (reflexivity || assumption); reflexivity.
  - destruct k; inversion Hs; subst kw; vm_compute; reflexivity.
Qed.

Lemma lowercase_keywords_lex_as_keywords_witness :
  first_match patterns (Some " "%char) ("print" ++ ";") = Some (PRINT, "print", ";")
  /\ lexer "print" = Ret [(PRINT, "print")].
Proof.
  apply (lowercase_keywords_lex_as_keywords PRINT "print" (Some " "%char) ";");
    reflexivity.
Defined.

(** C9 as the spec words it fails: in the spelling of the grammar, in
    capitals, every statement keyword lexes as an identifier. *)
Lemma uppercase_keywords_lex_as_identifiers :
  lexer "APPEND" = Ret [(ID, "APPEND")]
  /\ lexer "SET" = Ret [(ID, "SET")]
  /\ lexer "LIST" = Ret [(ID, "LIST")]
  /\ lexer "EXIT" = Ret [(ID, "EXIT")]
  /\ lexer "REVERSE" = Ret [(ID, "REVERSE")]
  /\ lexer "PRINT" = Ret [(ID, "PRINT")]
  /\ lexer "PRINTLENGTH" = Ret [(ID, "PRINTLENGTH")]
  /\ lexer "PRINTWORDS" = Ret [(ID, "PRINTWORDS")]
  /\ lexer "PRINTWORDCOUNT" = Ret [(ID, "PRINTWORDCOUNT")].
Proof. vm_compute. repeat split. Qed.

(** ** The fuel is enough *)

Lemma answers_with_weaken {A : Type} (P : A -> Prop) (m : M A) :
  answers_with P m -> answers m.
Proof.
  intros H w. specialize (H w).
  destruct (fst (m w)); [discriminate | discriminate | contradiction].
Qed.

Lemma answers_trivially {A : Type} (m : M A) : answers m -> answers_with (fun _ => True) m.
Proof. intros H w. specialize (H w). now destruct (fst (m w)). Qed.

Lemma answers_ret {A : Type} (a : A) : answers (ret a).
Proof. intro w; discriminate. Qed.

Lemma answers_raise {A : Type} (e : exn) : answers (@raise A e).
Proof. intro w; discriminate. Qed.

Lemma answers_print (line : string) : answers (print line).
Proof. intro w; discriminate. Qed.

Lemma answers_get_table : answers get_table.
Proof. intro w; discriminate. Qed.

Lemma answers_put_table table : answers (put_table table).
Proof. intro w; discriminate. Qed.

Lemma answers_bind_with {A B : Type} (P : A -> Prop) (m : M A) (f : A -> M B) :
  answers_with P m -> (forall a, P a -> answers (f a)) -> answers (bind m f).
Proof.
  intros Hm Hf w. unfold bind. specialize (Hm w).
  destruct (m w) as [[a | e |] w']; simpl in *; [now apply Hf | discriminate | contradiction].
Qed.

Lemma answers_bind {A B : Type} (m : M A) (f : A -> M B) :
  answers m -> (forall a, answers (f a)) -> answers (bind m f).
Proof.
  intros Hm Hf. apply (answers_bind_with (fun _ => True)); [now apply answers_trivially | auto].
Qed.

Ltac answer :=
  repeat first
    [ apply answers_ret | apply answers_raise | apply answers_print
    | apply answers_get_table | apply answers_put_table
    | apply answers_bind; [|intros ?]
    | match goal with
      | |- answers (if ?b then _ else _) => destruct b
      | |- answers (let (_, _) := ?r in _) => destruct r
      | |- answers (match ?x with _ => _ end) => destruct x
      end ].

Lemma answers_token_at toks i : answers (token_at toks i).
Proof. unfold token_at. answer. Qed.

Lemma answers_update_record record v : answers (update_record record v).
Proof. unfold update_record. answer. Qed.

Lemma answers_eval_loop toks indices acc : answers (eval_loop toks indices acc).
Proof.
  revert acc. induction indices as [|i indices IH]; intro acc; simpl.
  - answer.
  - apply answers_bind; [apply answers_token_at|]. intros [ty value].
    destruct ty; try apply IH.
    + destruct (String.eqb value "SPACE"); [apply IH|].
      destruct (String.eqb value "TAB"); apply IH.
    + apply answers_bind; [apply answers_get_table|]. intros table.
      destruct (get_table_record value table); [apply IH | answer].
Qed.

Lemma answers_print_all lines : answers (print_all lines).
Proof. induction lines as [|l lines IH]; simpl; answer; exact IH. Qed.

Lemma answers_do_append toks s e : answers (do_append toks s e).
Proof.
  unfold do_append, eval_expression.
  apply answers_bind; [apply answers_token_at|]. intros t.
  apply answers_bind; [apply answers_eval_loop|]. intros v.
  answer; apply answers_update_record.
Qed.

Lemma answers_do_set toks s e : answers (do_set toks s e).
Proof.
  unfold do_set, eval_expression.
  apply answers_bind; [apply answers_token_at|]. intros t.
  apply answers_bind; [apply answers_eval_loop|]. intros v.
  answer; apply answers_update_record.
Qed.

Lemma answers_reverse toks : answers (reverse toks).
Proof.
  unfold reverse. apply answers_bind; [apply answers_token_at|]. intros t.
  answer; apply answers_update_record.
Qed.

Lemma answers_list_vars : answers list_vars.
Proof. unfold list_vars. answer; apply answers_print_all. Qed.

Lemma answers_expr_print toks s e : answers (expr_print toks s e).
Proof.
  unfold expr_print, eval_expression.
  apply answers_bind; [apply answers_token_at|]. intros t.
  apply answers_bind; [apply answers_eval_loop|]. intros [v|]; answer;
    apply answers_print_all.
Qed.

Lemma positioned_is_positioned pre l : is_positioned (positioned pre l).
Proof. now exists pre, l. Qed.

Lemma next_token_is_positioned self : is_positioned self -> is_positioned (next_token self).
Proof.
  intros [pre [[|t l] ->]].
  - rewrite next_token_exhausted. apply positioned_is_positioned.
  - rewrite next_token_positioned. apply positioned_is_positioned.
Qed.

Lemma valid_match_answers expected self :
  is_positioned self -> answers_with is_positioned (valid_match expected self).
Proof.
  intros Hp w. unfold valid_match, bind, curr_token.
  destruct (currToken self) as [t|]; simpl; [|exact I].
  destruct (type_eqb (fst t) expected); simpl; [now apply next_token_is_positioned | exact Hp].
Qed.

Lemma expression_answers self :
  is_positioned self -> answers_with (fun r => is_positioned (snd r)) (expression self).
Proof.
  intros [pre [l ->]] w. rewrite expression_positioned.
  destruct l as [|t l]; [exact I|].
  destruct (is_value_type (fst t)); [|apply positioned_is_positioned].
  assert (Hl := loop_answer_verdict (S (List.length (pre ++ t :: l))) l).
  assert (Hf : List.length l < S (List.length (pre ++ t :: l)))
    by (rewrite length_app; simpl; lia).
  specialize (Hl Hf).
  destruct (loop_answer _ l) as [[b n] | e |]; cbn [moved fst snd];
    [apply positioned_is_positioned | exact I | exact Hl].
Qed.

Lemma statement_answers (toks : list token) : answers (statement (new_Parser toks)).
Proof.
  unfold statement. rewrite next_token_new.
  assert (H0 : is_positioned (positioned [] toks)) by apply positioned_is_positioned.
  assert (H1 := next_token_is_positioned _ H0).
  set (p0 := positioned [] toks) in *. set (p1 := next_token p0) in *.
  apply answers_bind; [unfold curr_token; answer|]. intros t.
  destruct (_ || _).
  { apply (answers_bind_with is_positioned); [now apply valid_match_answers|]. intros p Hp.
    apply (answers_bind_with (fun r => is_positioned (snd r))); [now apply expression_answers|].
    intros [valid p'] Hp'. destruct valid; simpl; [|answer].
    apply answers_bind; [apply (answers_with_weaken is_positioned), valid_match_answers, Hp'|].
    intros p''. destruct (type_eqb _ _); [apply answers_do_append | apply answers_do_set]. }
  destruct (type_eqb _ LIST).
  { apply answers_bind; [apply (answers_with_weaken is_positioned), valid_match_answers, H1|].
    intros p. apply answers_list_vars. }
  destruct (type_eqb _ EXIT).
  { apply answers_bind; [apply (answers_with_weaken is_positioned), valid_match_answers, H1|].
    intros p. answer. }
  destruct (type_eqb _ REVERSE).
  { apply (answers_bind_with is_positioned); [now apply valid_match_answers|]. intros p Hp.
    apply answers_bind; [apply (answers_with_weaken is_positioned), valid_match_answers, Hp|].
    intros p'. apply answers_reverse. }
  destruct (is_infix _ _); [|answer].
  apply (answers_bind_with (fun r => is_positioned (snd r))); [now apply expression_answers|].
  intros [valid p'] Hp'. destruct valid; simpl; [|answer].
  apply answers_bind; [apply (answers_with_weaken is_positioned), valid_match_answers, Hp'|].
  intros p''. apply answers_expr_print.
Qed.

Lemma process_answers (text : string) : answers (process text).
Proof.
  intro w. unfold process.
  destruct (lexer_total text) as [[toks E] | [msg E]]; rewrite E; [|discriminate].
  pose proof (statement_answers toks w) as H. unfold parse.
  destruct (statement (new_Parser toks) w) as [[[] | [msg | | |] |] w']; simpl in *;
    try discriminate. contradiction.
Qed.

Lemma for_end_matches_answers ends buf : answers (for_end_matches ends buf).
Proof.
  revert buf. induction ends as [|e ends IH]; intro buf; simpl.
  - apply answers_ret.
  - apply answers_bind; [intro w; discriminate|]. intros _.
    apply answers_bind; [apply process_answers|]. intros _. apply IH.
Qed.

(** A run of the program on any lines ends with the buffer it waits on or
    with an exception; the model never stops for want of fuel. *)
Lemma get_user_input_answers (lines : list string) : answers (get_user_input lines).
Proof.
  unfold get_user_input. generalize "". induction lines as [|l lines IH]; intro buf; simpl.
  - apply answers_ret.
  - destruct (negb _); [|apply IH].
    apply answers_bind; [apply for_end_matches_answers|]. intro b. apply IH.
Qed.

(** ** Sample sessions *)

Example words_of_sample :
  words_of "don't stop-go, now" = ["don't"; "stop-go"; "now"]
  /\ words_of "a''b" = ["a'"; "'b"]
  /\ words_of "a-'b" = ["a"; "'b"]
  /\ words_of "'a'-b-" = ["'a'"; "b"].
Proof. vm_compute. repeat split. Qed.

Example session_append_accumulates :
  stdout (snd (get_user_input
                 ["set a " ++ q ++ "x" ++ q ++ ";";
                  "append a " ++ q ++ "y" ++ q ++ ";";
                  "print a;"] start))
  = ["xy"].
Proof. vm_compute. reflexivity. Qed.

Example session_constants_and_words :
  stdout (snd (get_user_input
                 ["set a " ++ q ++ "foo" ++ q ++ " + SPACE + " ++ q ++ "bar" ++ q ++ ";";
                  "print a;";
                  "printlength a;";
                  "set b " ++ q ++ "don't stop-go, now" ++ q ++ ";";
                  "printwordcount b;";
                  "set c " ++ q ++ "one two three" ++ q ++ ";";
                  "reverse c;";
                  "print c;"] start))
  = ["foo bar"; "Length:  7"; "Wordcount is: 3"; "three two one"].
Proof. vm_compute. reflexivity. Qed.

Example session_lex_error_is_isolated :
  get_user_input ["set a " ++ q ++ "x" ++ q ++ ";"; "set b $;"; "list;"] start
  = (Ret "",
     {| symbol_table := [("a", "x")];
        stdout := ["ERROR: Unexpected token entered at position 6: '$'. Try input again";
                   "Identifier List (1):"; "a : x"];
        handed := ["set a " ++ q ++ "x" ++ q ++ ";"; "set b $;"; "list;"] |}).
Proof. vm_compute. reflexivity. Qed.

(** ** Statements with an expression, and what follows their terminator *)

Lemma parse_append_trailing (kw x semi : string) (t : term) (terms : list term)
  (post : list token) (w : world) :
  let toks := (APPEND, kw) :: (ID, x) :: (expr_tokens (t :: terms) ++ (END, semi) :: post)%list in
  parse (new_Parser toks) w = do_append toks 2 (2 + List.length (expr_tokens (t :: terms))) w.
Proof.
  intro toks. unfold parse, statement.
  rewrite next_token_new. subst toks.
  rewrite curr_token_positioned, bind_ret. cbn [fst].
  change (type_eqb APPEND APPEND || type_eqb APPEND SET) with true. cbn iota.
  rewrite next_token_positioned, valid_match_positioned, bind_ret.
  unfold bind at 1. rewrite expression_accepts_terms. cbn [negb].
  rewrite valid_match_positioned, bind_ret, type_eqb_refl, tokens_positioned.
  rewrite currIndex_positioned_terms, currIndex_positioned, !length_app.
  reflexivity.
Qed.

Lemma parse_set_trailing (kw x semi : string) (t : term) (terms : list term)
  (post : list token) (w : world) :
  let toks := (SET, kw) :: (ID, x) :: (expr_tokens (t :: terms) ++ (END, semi) :: post)%list in
  parse (new_Parser toks) w = do_set toks 2 (2 + List.length (expr_tokens (t :: terms))) w.
Proof.
  intro toks. unfold parse, statement.
  rewrite next_token_new. subst toks.
  rewrite curr_token_positioned, bind_ret. cbn [fst].
  change (type_eqb SET APPEND || type_eqb SET SET) with true. cbn iota.
  rewrite next_token_positioned, valid_match_positioned, bind_ret.
  unfold bind at 1. rewrite expression_accepts_terms. cbn [negb].
  rewrite valid_match_positioned, bind_ret, tokens_positioned.
  change (type_eqb SET APPEND) with false. cbn iota.
  rewrite currIndex_positioned_terms, currIndex_positioned, !length_app.
  reflexivity.
Qed.

Lemma parse_print_trailing (k : print_kind) (kw semi : string) (t : term)
  (terms : list term) (post : list token) (w : world) :
  let toks := (print_token k, kw) :: (expr_tokens (t :: terms) ++ (END, semi) :: post)%list in
  parse (new_Parser toks) w = expr_print toks 1 (1 + List.length (expr_tokens (t :: terms))) w.
Proof.
  intro toks. unfold parse, statement.
  rewrite next_token_new. subst toks.
  rewrite curr_token_positioned, bind_ret. cbn [fst].
  replace (type_eqb (print_token k) APPEND || type_eqb (print_token k) SET) with false
    by (now destruct k).
  replace (type_eqb (print_token k) LIST) with false by (now destruct k).
  replace (type_eqb (print_token k) EXIT) with false by (now destruct k).
  replace (type_eqb (print_token k) REVERSE) with false by (now destruct k).
  replace (is_infix "PRINT" (type_name (print_token k))) with true by (now destruct k).
  cbn iota. rewrite next_token_positioned.
  unfold bind at 1. rewrite expression_accepts_terms. cbn [negb].
  rewrite valid_match_positioned, bind_ret, tokens_positioned.
  rewrite currIndex_positioned_terms, currIndex_positioned, !length_app.
  reflexivity.
Qed.

Ltac align_eval head_ terms_ semi_ post_ w_ :=
  match goal with
  | |- context [eval_expression ?a ?b ?c w_] =>
      change (eval_expression a b c w_)
        with (eval_expression (head_ ++ expr_tokens terms_ ++ (END, semi_) :: post_)
                (List.length head_)
                (List.length head_ + List.length (expr_tokens terms_)) w_)
  end.

Lemma do_append_trailing (ty0 : token_type) (kw x semi : string) (terms : list term)
  (post : list token) (w : world) :
  let toks := (ty0, kw) :: (ID, x) :: (expr_tokens terms ++ (END, semi) :: post)%list in
  let table := symbol_table w in
  do_append toks 2 (2 + List.length (expr_tokens terms)) w
  = match first_undefined table terms, get_table_record x table with
    | None, Some record =>
        put_table (overwrite x (snd record ++ concat_all (map (term_value table) terms)) table) w
    | None, None => print (append_failed x) w
    | Some name, Some _ => print (undefined_variable name) w
    | Some name, None => (print (undefined_variable name) ;; print (append_failed x)) w
    end.
Proof.
  intros toks table. unfold do_append, token_at. cbn [toks nth_error]. rewrite bind_ret.
  unfold bind at 1. align_eval [(ty0, kw); (ID, x)] terms semi post w.
  rewrite eval_expression_terms.
  unfold evaluated. fold table. cbn [snd].
  destruct (first_undefined table terms) as [name|].
  - unfold bind, get_table. cbn [print snd symbol_table fst]. fold table.
    destruct (get_table_record x table); reflexivity.
  - unfold bind, get_table. cbn [fst snd]. fold table.
    destruct (get_table_record x table) as [record|] eqn:E; [|reflexivity].
    now rewrite (update_record_overwrite _ _ _ _ E).
Qed.

Lemma do_set_trailing (ty0 : token_type) (kw x semi : string) (terms : list term)
  (post : list token) (w : world) :
  let toks := (ty0, kw) :: (ID, x) :: (expr_tokens terms ++ (END, semi) :: post)%list in
  let table := symbol_table w in
  do_set toks 2 (2 + List.length (expr_tokens terms)) w
  = match first_undefined table terms with
    | None => put_table (set_table x (concat_all (map (term_value table) terms)) table) w
    | Some name => print (undefined_variable name) w
    end.
Proof.
  intros toks table. unfold do_set, token_at. cbn [toks nth_error]. rewrite bind_ret.
  unfold bind at 1. align_eval [(ty0, kw); (ID, x)] terms semi post w.
  rewrite eval_expression_terms.
  unfold evaluated, set_table. fold table. cbn [snd].
  destruct (first_undefined table terms) as [name|].
  - reflexivity.
  - unfold bind, get_table. cbn [fst snd]. fold table.
    destruct (get_table_record x table) as [record|] eqn:E; [|reflexivity].
    now rewrite (update_record_overwrite _ _ _ _ E).
Qed.

Lemma print_all_one (line : string) (w : world) : print_all [line] w = print line w.
Proof. reflexivity. Qed.

Lemma expr_print_trailing (k : print_kind) (kw semi : string) (terms : list term)
  (post : list token) (w : world) :
  let toks := (print_token k, kw) :: (expr_tokens terms ++ (END, semi) :: post)%list in
  let table := symbol_table w in
  expr_print toks 1 (1 + List.length (expr_tokens terms)) w
  = match first_undefined table terms with
    | None => print_all (print_output k (concat_all (map (term_value table) terms))) w
    | Some name => (print (undefined_variable name) ;; print cannot_print) w
    end.
Proof.
  intros toks table. unfold expr_print, token_at. cbn [toks nth_error]. rewrite bind_ret.
  unfold bind at 1. align_eval [(print_token k, kw)] terms semi post w.
  rewrite eval_expression_terms.
  unfold evaluated. fold table. cbn [fst snd].
  destruct (first_undefined table terms) as [name|]; [reflexivity|].
  destruct k; reflexivity.
Qed.

Lemma get_table_record_snoc_same (x v : string) (table : list (string * string)) :
  get_table_record x table = None ->
  get_table_record x (table ++ [(x, v)]) = Some (x, v).
Proof.
  induction table as [|r table IH]; simpl.
  - now rewrite String.eqb_refl.
  - destruct (String.eqb (fst r) x); [discriminate | exact IH].
Qed.

Lemma get_table_record_snoc_other (x v y : string) (table : list (string * string)) :
  y <> x -> get_table_record y (table ++ [(x, v)]) = get_table_record y table.
Proof.
  intro Hne. induction table as [|r table IH]; simpl.
  - destruct (String.eqb_spec x y); [congruence | reflexivity].
  - destruct (String.eqb (fst r) y); [reflexivity | exact IH].
Qed.

Lemma set_table_same (x v : string) (table : list (string * string)) :
  get_table_record x (set_table x v table) = Some (x, v).
Proof.
  unfold set_table. destruct (get_table_record x table) as [record|] eqn:E.
  - eapply overwrite_same; eauto.
  - now apply get_table_record_snoc_same.
Qed.

Lemma set_table_other (x v y : string) (table : list (string * string)) :
  y <> x -> get_table_record y (set_table x v table) = get_table_record y table.
Proof.
  intro Hne. unfold set_table. destruct (get_table_record x table).
  - now apply overwrite_other.
  - now apply get_table_record_snoc_other.
Qed.

(** X1. A Set statement always returns.  When every identifier of its
    expression is defined, the variable then holds the value of the
    expression, computed in the table as it was before; a variable already
    there is overwritten where it stands, a new one is entered at the end;
    no other variable changes and nothing is printed.  When an identifier
    is undefined the table is left alone and one message names it. *)
Theorem set_statement_inserts_or_overwrites
  (kw x semi : string) (t : term) (terms : list term) (post : list token) (w : world) :
  let toks := (SET, kw) :: (ID, x) :: (expr_tokens (t :: terms) ++ (END, semi) :: post)%list in
  let table := symbol_table w in
  let result := snd (parse (new_Parser toks) w) in
  let v := concat_all (map (term_value table) (t :: terms)) in
  fst (parse (new_Parser toks) w) = Ret tt
  /\ (first_undefined table (t :: terms) = None ->
      get_table_record x (symbol_table result) = Some (x, v)
      /\ (forall y, y <> x ->
          get_table_record y (symbol_table result) = get_table_record y table)
      /\ (forall record, get_table_record x table = Some record ->
          symbol_table result = overwrite x v table /\ names result = names w)
      /\ (get_table_record x table = None -> symbol_table result = (table ++ [(x, v)])%list)
      /\ stdout result = stdout w)
  /\ (forall name, first_undefined table (t :: terms) = Some name ->
      symbol_table result = table
      /\ stdout result = (stdout w ++ [undefined_variable name])%list).
Proof.
  intros toks table result v. subst result toks.
  rewrite parse_set_trailing, do_set_trailing. fold table. fold v.
  destruct (first_undefined table (t :: terms)) as [name|].
  - split; [reflexivity|]. split; [discriminate|].
    intros n Hn. inversion Hn; subst n. split; reflexivity.
  - split; [reflexivity|]. split; [|discriminate]. intros _.
    cbn [put_table snd symbol_table stdout].
    split; [apply set_table_same|]. split; [intros y Hy; now apply set_table_other|].
    unfold set_table.
    split; [|split; [|reflexivity]].
    + intros record Hr. rewrite Hr. split; [reflexivity|].
      unfold names. cbn [symbol_table]. eapply overwrite_names; eauto.
    + intros Hr. now rewrite Hr.
Qed.

Lemma set_statement_inserts_or_overwrites_witness :
  (let w := {| symbol_table := [("a", "x"); ("b", "y")]; stdout := []; handed := [] |} in
   symbol_table
     (snd (parse (new_Parser [(SET, "set"); (ID, "a"); (ID, "b"); (PLUS, "+");
                              (LITERAL, "z"); (END, ";")]) w))
   = [("a", "yz"); ("b", "y")])
  /\ symbol_table
       (snd (parse (new_Parser [(SET, "set"); (ID, "c"); (LITERAL, "z"); (END, ";")]) start))
     = [("c", "z")]
  /\ symbol_table
       (snd (parse (new_Parser [(SET, "set"); (ID, "c"); (ID, "d"); (END, ";")]) start))
     = [].
Proof.
  split; [|split].
  - intro w.
    destruct (set_statement_inserts_or_overwrites "set" "a" ";" (Identifier "b")
                [Literal "z"] [] w) as [_ [H _]].
    destruct (H eq_refl) as [_ [_ [H1 _]]].
    destruct (H1 ("a", "x") eq_refl) as [E _]. exact E.
  - destruct (set_statement_inserts_or_overwrites "set" "c" ";" (Literal "z") [] [] start)
      as [_ [H _]].
    destruct (H eq_refl) as [_ [_ [_ [H1 _]]]]. exact (H1 eq_refl).
  - destruct (set_statement_inserts_or_overwrites "set" "c" ";" (Identifier "d") [] [] start)
      as [_ [_ H]].
    destruct (H "d" eq_refl) as [E _]. exact E.
Defined.

(** X2. Set then Print is a round trip: after a Set statement whose
    expression evaluates, a Print statement on the same variable prints
    exactly the value that was assigned, and changes nothing else. *)
Theorem set_then_print_round_trip
  (kw1 kw2 x semi1 semi2 : string) (t : term) (terms : list term)
  (post1 post2 : list token) (w : world) :
  let set_toks :=
    (SET, kw1) :: (ID, x) :: (expr_tokens (t :: terms) ++ (END, semi1) :: post1)%list in
  let print_toks := (PRINT, kw2) :: (ID, x) :: (END, semi2) :: post2 in
  let v := concat_all (map (term_value (symbol_table w)) (t :: terms)) in
  let w1 := snd (parse (new_Parser set_toks) w) in
  first_undefined (symbol_table w) (t :: terms) = None ->
  parse (new_Parser print_toks) w1
  = (Ret tt, {| symbol_table := symbol_table w1;
                stdout := (stdout w ++ [v])%list;
                handed := handed w1 |}).
Proof.
  intros set_toks print_toks v w1 Hdef.
  assert (Hw1 : w1 = snd (put_table (set_table x v (symbol_table w)) w)).
  { subst w1 set_toks. rewrite parse_set_trailing, do_set_trailing, Hdef. reflexivity. }
  subst print_toks.
  change ((PRINT, kw2) :: (ID, x) :: (END, semi2) :: post2)
    with ((print_token Print, kw2)
          :: (expr_tokens [Identifier x] ++ (END, semi2) :: post2)%list).
  rewrite parse_print_trailing, expr_print_trailing.
  cbn [first_undefined map term_value concat_all print_output].
  assert (Hx : get_table_record x (symbol_table w1) = Some (x, v))
    by (rewrite Hw1; apply set_table_same).
  rewrite Hx. cbn [snd]. rewrite append_empty_r, print_all_one.
  unfold print. rewrite Hw1. reflexivity.
Qed.

Lemma set_then_print_round_trip_witness :
  stdout
    (snd (parse (new_Parser [(PRINT, "print"); (ID, "a"); (END, ";")])
            (snd (parse (new_Parser [(SET, "set"); (ID, "a"); (LITERAL, "foo");
                                     (PLUS, "+"); (CONSTANT, "SPACE"); (PLUS, "+");
                                     (LITERAL, "bar"); (END, ";")]) start))))
  = ["foo bar"].
Proof.
  exact (f_equal (fun r => stdout (snd r))
           (set_then_print_round_trip "set" "print" "a" ";" ";" (Literal "foo")
              [Constant SPACE; Literal "bar"] [] [] start eq_refl)).
Defined.

(** X3. The four print statements never touch the table.  When the
    expression evaluates to [v] they write: [v] itself (print); the line
    [Length:  n] with n the number of characters of [v] (printlength); the
    line [Words are:] and then one line per word (printwords); the line
    [Wordcount is: n] with n the number of words (printwordcount).  When an
    identifier is undefined they write the message naming it and then the
    cannot-print line. *)
Theorem print_statements_write_and_leave_the_table
  (k : print_kind) (kw semi : string) (t : term) (terms : list term)
  (post : list token) (w : world) :
  let toks := (print_token k, kw) :: (expr_tokens (t :: terms) ++ (END, semi) :: post)%list in
  let table := symbol_table w in
  let v := concat_all (map (term_value table) (t :: terms)) in
  parse (new_Parser toks) w
  = (Ret tt,
     {| symbol_table := table;
        stdout := (stdout w ++
                   match first_undefined table (t :: terms) with
                   | None => print_output k v
                   | Some name => [undefined_variable name; cannot_print]
                   end)%list;
        handed := handed w |}).
Proof.
  intros toks table v. subst toks.
  rewrite parse_print_trailing, expr_print_trailing. fold table. fold v.
  destruct (first_undefined table (t :: terms)) as [name|].
  - unfold bind, print. cbn [fst snd symbol_table stdout handed].
    now rewrite <- app_assoc.
  - apply print_all_stdout.
Qed.

(** ** Words *)

Lemma next_is_alnum_space (u s : string) :
  next_is_alnum (u ++ String " " s) = next_is_alnum u.
Proof. destruct u; reflexivity. Qed.

(** A space ends the word in progress and starts the scan afresh. *)
Lemma findall_words_space (u s : string) (st : option string) :
  findall_words (u ++ String " " s) st
  = (findall_words u st ++ findall_words s None)%list.
Proof.
  revert st. induction u as [|c u IH]; intro st.
  - destruct st; reflexivity.
  - cbn [append findall_words]. rewrite next_is_alnum_space.
    destruct st as [w|].
    + destruct (is_alnum c); [apply IH|].
      destruct ((Ascii.eqb c "'" || Ascii.eqb c "-") && next_is_alnum u); [apply IH|].
      destruct (Ascii.eqb c "'"); cbn [List.app]; now rewrite IH.
    + destruct (is_alnum c); [apply IH|].
      destruct (Ascii.eqb c "'" && next_is_alnum u); apply IH.
Qed.

Lemma words_of_join (l : list string) :
  Forall selfword l -> words_of (join " " l) = l.
Proof.
  induction 1 as [|x l Hx Hl IH]; [reflexivity|].
  destruct l as [|y l]; [exact Hx|].
  change (join " " (x :: y :: l)) with (x ++ String " " (join " " (y :: l))).
  unfold words_of in *. rewrite findall_words_space, IH. unfold selfword, words_of in Hx.
  now rewrite Hx.
Qed.

Lemma scanned_selfword (w0 : string) : scanned w0 -> selfword w0.
Proof.
  intro H. unfold selfword, words_of. rewrite <- (append_empty_r w0) at 1.
  rewrite H. reflexivity.
Qed.

Lemma scanned_extend (w0 : string) (c : ascii) :
  is_alnum c = true -> (scanned w0 \/ scanned_before_alnum w0) ->
  scanned (w0 ++ String c "").
Proof.
  intros Hc H t. rewrite append_assoc. cbn [append].
  destruct H as [H | H]; [rewrite H | rewrite (H c t Hc)];
    cbn [findall_words]; now rewrite Hc.
Qed.

Lemma findall_words_selfwords (s : string) :
  Forall selfword (findall_words s None)
  /\ (forall w0, scanned w0 -> Forall selfword (findall_words s (Some w0)))
  /\ (forall w0, scanned_before_alnum w0 -> next_is_alnum s = true ->
      Forall selfword (findall_words s (Some w0))).
Proof.
  induction s as [|c s [IH1 [IH2 IH3]]].
  - split; [constructor|]. split; [|discriminate].
    intros w0 H. constructor; [now apply scanned_selfword | constructor].
  - split; [|split].
    + cbn [findall_words]. destruct (is_alnum c) eqn:Hc.
      * apply IH2. intro t. cbn [append findall_words]. now rewrite Hc.
      * destruct (Ascii.eqb c "'" && next_is_alnum s) eqn:Hq; [|exact IH1].
        apply andb_true_iff in Hq. destruct Hq as [Hq Hn].
        apply Ascii.eqb_eq in Hq. subst c.
        apply IH3; [|exact Hn].
        intros d t Hd. cbn [append findall_words next_is_alnum].
        now rewrite Hd.
    + intros w0 Hw. cbn [findall_words]. destruct (is_alnum c) eqn:Hc.
      * apply IH2. apply scanned_extend; auto.
      * destruct ((Ascii.eqb c "'" || Ascii.eqb c "-") && next_is_alnum s) eqn:Hq.
        -- apply andb_true_iff in Hq. destruct Hq as [Hq Hn].
           apply IH3; [|exact Hn].
           intros d t Hd. rewrite append_assoc. cbn [append]. rewrite Hw.
           cbn [findall_words next_is_alnum]. now rewrite Hc, Hq, Hd.
        -- destruct (Ascii.eqb c "'") eqn:Hq'.
           ++ constructor; [|exact IH1]. apply Ascii.eqb_eq in Hq'. subst c.
              unfold selfword, words_of. rewrite Hw. reflexivity.
           ++ constructor; [now apply scanned_selfword | exact IH1].
    + intros w0 Hw Hn. cbn [next_is_alnum] in Hn. cbn [findall_words]. rewrite Hn.
      apply IH2. apply scanned_extend; auto.
Qed.

Lemma words_of_selfwords (s : string) : Forall selfword (words_of s).
Proof. apply findall_words_selfwords. Qed.

Lemma words_of_reversed (value : string) :
  words_of (reversed value) = List.rev (words_of value).
Proof.
  unfold reversed. apply words_of_join. apply Forall_rev, words_of_selfwords.
Qed.

Lemma reversed_twice (value : string) :
  reversed (reversed value) = join " " (words_of value).
Proof. unfold reversed at 1. now rewrite words_of_reversed, rev_involutive. Qed.

(** X4. The value Reverse writes is a fixed point of word splitting: its
    words are the words of the old value in reverse order, whatever
    punctuation and spacing the old value had.  So reversing twice gives
    the words of the original joined by single spaces, and reversing three
    times is the same as reversing once. *)
Theorem reversed_value_has_the_reversed_words (value : string) :
  words_of (reversed value) = List.rev (words_of value)
  /\ reversed (reversed value) = join " " (words_of value)
  /\ reversed (reversed (reversed value)) = reversed value.
Proof.
  split; [apply words_of_reversed|]. split; [apply reversed_twice|].
  rewrite reversed_twice, words_of_reversed. reflexivity.
Qed.

Lemma parse_reverse (kw x semi : string) (post : list token) (w : world) :
  parse (new_Parser ((REVERSE, kw) :: (ID, x) :: (END, semi) :: post)) w
  = match get_table_record x (symbol_table w) with
    | Some record => put_table (overwrite x (reversed (snd record)) (symbol_table w)) w
    | None => print (reverse_failed x) w
    end.
Proof.
  unfold parse, statement. rewrite next_token_new, curr_token_positioned, bind_ret.
  cbn [fst]. change (type_eqb REVERSE APPEND || type_eqb REVERSE SET) with false.
  change (type_eqb REVERSE LIST) with false. change (type_eqb REVERSE EXIT) with false.
  change (type_eqb REVERSE REVERSE) with true. cbn iota.
  rewrite next_token_positioned, valid_match_positioned, bind_ret.
  rewrite valid_match_positioned, bind_ret, tokens_positioned.
  unfold reverse, token_at. cbn [List.app nth_error]. rewrite bind_ret.
  unfold bind, get_table. cbn [snd fst].
  destruct (get_table_record x (symbol_table w)) as [record|] eqn:E; [|reflexivity].
  now rewrite (update_record_overwrite _ _ _ _ E).
Qed.



Lemma parse_list (kw semi : string) (post : list token) (w : world) :
  parse (new_Parser ((LIST, kw) :: (END, semi) :: post)) w = list_vars w.
Proof.
  unfold parse, statement. rewrite next_token_new, curr_token_positioned, bind_ret.
  cbn [fst]. change (type_eqb LIST APPEND || type_eqb LIST SET) with false.
  change (type_eqb LIST LIST) with true. cbn iota.
  now rewrite next_token_positioned, valid_match_positioned, bind_ret.
Qed.

(** X6. The parser never looks past the terminator of the statement it
    has recognised: whatever tokens follow it in the same list, a Set,
    Append, print, Reverse or List statement does exactly what it does
    without them, and reports nothing about them. *)
Theorem parse_ignores_what_follows_the_terminator
  (k : print_kind) (kw x semi : string) (t : term) (terms : list term)
  (post : list token) (w : world) :
  let e := (expr_tokens (t :: terms) ++ [(END, semi)])%list in
  parse (new_Parser (((SET, kw) :: (ID, x) :: e) ++ post)) w
  = parse (new_Parser ((SET, kw) :: (ID, x) :: e)) w
  /\ parse (new_Parser (((APPEND, kw) :: (ID, x) :: e) ++ post)) w
     = parse (new_Parser ((APPEND, kw) :: (ID, x) :: e)) w
  /\ parse (new_Parser (((print_token k, kw) :: e) ++ post)) w
     = parse (new_Parser ((print_token k, kw) :: e)) w
  /\ parse (new_Parser ([(REVERSE, kw); (ID, x); (END, semi)] ++ post)) w
     = parse (new_Parser [(REVERSE, kw); (ID, x); (END, semi)]) w
  /\ parse (new_Parser ([(LIST, kw); (END, semi)] ++ post)) w
     = parse (new_Parser [(LIST, kw); (END, semi)]) w.
Proof.
  intro e. subst e. cbn [List.app]. rewrite <- !app_assoc. cbn [List.app].
  split; [|split; [|split; [|split]]].
  - rewrite (parse_set_trailing kw x semi t terms post),
            (parse_set_trailing kw x semi t terms []), !do_set_trailing. reflexivity.
  - rewrite (parse_append_trailing kw x semi t terms post),
            (parse_append_trailing kw x semi t terms []), !do_append_trailing. reflexivity.
  - rewrite (parse_print_trailing k kw semi t terms post),
            (parse_print_trailing k kw semi t terms []), !expr_print_trailing. reflexivity.
  - now rewrite !parse_reverse.
  - now rewrite !parse_list.
Qed.

Lemma same_table_refl (w : world) : same_table w w.
Proof. reflexivity. Qed.

Lemma same_table_trans (a b c : world) : same_table a b -> same_table b c -> same_table a c.
Proof. unfold same_table. congruence. Qed.

Lemma same_table_print (line : string) (w : world) : same_table w (snd (print line w)).
Proof. reflexivity. Qed.

(** X7. Only Append, Set and Reverse write to the table: a token list that
    starts with anything else (List, Exit, a print keyword, a token that is
    no keyword, or nothing), well formed or not, leaves the symbol table
    exactly as it was, whether parsing returns or raises. *)
Theorem only_three_statements_write_the_table (toks : list token) (w : world) :
  assigns toks = false ->
  symbol_table (snd (parse (new_Parser toks) w)) = symbol_table w.
Proof.
  intro Ha. change (same_table w (snd (statement (new_Parser toks) w))).
  revert w. change (keeps same_table (statement (new_Parser toks))).
  unfold statement. rewrite next_token_new.
  destruct toks as [|[ty v] rest]; [intro w; reflexivity|].
  rewrite curr_token_positioned, bind_ret. cbn [fst].
  cbn [assigns] in Ha. apply orb_false_iff in Ha. destruct Ha as [Ha Hr]. rewrite Ha, Hr.
  pose proof same_table_refl as R1. pose proof same_table_trans as R2.
  pose proof same_table_print as R3.
  destruct (type_eqb ty LIST).
  { apply keeps_bind; [exact R2 | now apply keeps_valid_match |].
    intros p. now apply keeps_list_vars. }
  destruct (type_eqb ty EXIT).
  { apply keeps_bind; [exact R2 | now apply keeps_valid_match |].
    intros p w0. reflexivity. }
  destruct (is_infix "PRINT" (type_name ty)); [|intro w0; reflexivity].
  apply keeps_bind; [exact R2 | now apply keeps_expression |]. intros [valid p'].
  destruct valid; cbn [negb]; [|intro w0; reflexivity].
  apply keeps_bind; [exact R2 | now apply keeps_valid_match |].
  intros p''. now apply keeps_expr_print.
Qed.

Lemma only_three_statements_write_the_table_witness :
  let w := {| symbol_table := [("a", "x")]; stdout := []; handed := [] |} in
  symbol_table
    (snd (parse (new_Parser [(PRINT, "print"); (ID, "a"); (ID, "b"); (END, ";")]) w))
  = [("a", "x")].
Proof.
  intro w.
  exact (only_three_statements_write_the_table
           [(PRINT, "print"); (ID, "a"); (ID, "b"); (END, ";")] w eq_refl).
Defined.

(** ** Statements the parser refuses *)

Lemma expression_rejects (pre l : list token) (w : world) :
  In END (map fst l) -> term_chain (map fst l) = false ->
  exists self', expression (positioned pre l) w = (Ret (false, self'), w).
Proof.
  rewrite expression_positioned.
  destruct l as [|[ty v] l]; [intros []|].
  cbn [map fst]. rewrite term_chain_tail.
  destruct (is_value_type ty) eqn:Ev; cbn [andb]; [|eauto].
  assert (Hl := loop_answer_verdict (S (List.length (pre ++ (ty, v) :: l))) l).
  assert (Hf : List.length l < S (List.length (pre ++ (ty, v) :: l)))
    by (rewrite length_app; simpl; lia).
  specialize (Hl Hf).
  destruct (loop_answer _ l) as [[b n] | e |]; [| |contradiction]; cbn [moved].
  - destruct Hl as [Hb _]. rewrite <- Hb. intros _ ->. eauto.
  - destruct Hl as [Hc Hi].
    intros [H | H]; [subst ty; discriminate | contradiction].
Qed.

(** X8. When what stands where the expression must be is not a chain of
    terms, in a statement that has its terminator, nothing is executed: a
    Set or Append statement (after its identifier) and a print statement
    only write the invalid-expression line, and leave the table and
    everything else as they were. *)
Theorem invalid_expression_is_reported_and_nothing_runs
  (k : print_kind) (kw x : string) (l : list token) (w : world) :
  In END (map fst l) -> term_chain (map fst l) = false ->
  parse (new_Parser ((SET, kw) :: (ID, x) :: l)) w = print invalid_expression_assignment w
  /\ parse (new_Parser ((APPEND, kw) :: (ID, x) :: l)) w
     = print invalid_expression_assignment w
  /\ parse (new_Parser ((print_token k, kw) :: l)) w = print invalid_expression_print w.
Proof.
  intros Hend Hshape. split; [|split].
  - unfold parse, statement. rewrite next_token_new, curr_token_positioned, bind_ret.
    cbn [fst]. change (type_eqb SET APPEND || type_eqb SET SET) with true. cbn iota.
    rewrite next_token_positioned, valid_match_positioned, bind_ret.
    unfold bind at 1.
    match goal with
    | |- context [expression (positioned ?pre l) w] =>
        destruct (expression_rejects pre l w Hend Hshape) as [p Hp]
    end.
    rewrite Hp. reflexivity.
  - unfold parse, statement. rewrite next_token_new, curr_token_positioned, bind_ret.
    cbn [fst]. change (type_eqb APPEND APPEND || type_eqb APPEND SET) with true. cbn iota.
    rewrite next_token_positioned, valid_match_positioned, bind_ret.
    unfold bind at 1.
    match goal with
    | |- context [expression (positioned ?pre l) w] =>
        destruct (expression_rejects pre l w Hend Hshape) as [p Hp]
    end.
    rewrite Hp. reflexivity.
  - unfold parse, statement. rewrite next_token_new, curr_token_positioned, bind_ret.
    cbn [fst].
    replace (type_eqb (print_token k) APPEND || type_eqb (print_token k) SET) with false
      by (now destruct k).
    replace (type_eqb (print_token k) LIST) with false by (now destruct k).
    replace (type_eqb (print_token k) EXIT) with false by (now destruct k).
    replace (type_eqb (print_token k) REVERSE) with false by (now destruct k).
    replace (is_infix "PRINT" (type_name (print_token k))) with true by (now destruct k).
    cbn iota. rewrite next_token_positioned.
    unfold bind at 1.
    match goal with
    | |- context [expression (positioned ?pre l) w] =>
        destruct (expression_rejects pre l w Hend Hshape) as [p Hp]
    end.
    rewrite Hp. reflexivity.
Qed.

Lemma invalid_expression_is_reported_and_nothing_runs_witness :
  parse (new_Parser [(SET, "set"); (ID, "a"); (ID, "b"); (PLUS, "+"); (END, ";")]) start
  = print invalid_expression_assignment start
  /\ parse (new_Parser [(PRINTWORDS, "printwords"); (ID, "b"); (PLUS, "+"); (END, ";")]) start
     = print invalid_expression_print start.
Proof.
  destruct (invalid_expression_is_reported_and_nothing_runs PrintWords "set" "a"
              [(ID, "b"); (PLUS, "+"); (END, ";")] start) as [H1 _];
    [simpl; auto | reflexivity |].
  destruct (invalid_expression_is_reported_and_nothing_runs PrintWords "printwords" "a"
              [(ID, "b"); (PLUS, "+"); (END, ";")] start) as [_ [_ H3]];
    [simpl; auto | reflexivity |].
  split; [exact H1 | exact H3].
Defined.

(** X9. A token list that does not start with a statement keyword (an
    identifier, a literal, a constant, a plus, a lone terminator) is not a
    statement: the parser writes the not-recognised line, which echoes the
    values of all the tokens separated by single spaces, and does nothing
    else. *)
Theorem unrecognised_statement_is_echoed (ty : token_type) (v : string)
  (rest : list token) (w : world) :
  is_statement_keyword ty = false ->
  parse (new_Parser ((ty, v) :: rest)) w = print (not_recognised ((ty, v) :: rest)) w.
Proof.
  intro Hk. unfold parse, statement.
  rewrite next_token_new, curr_token_positioned, bind_ret. cbn [fst].
  destruct ty; try discriminate Hk; reflexivity.
Qed.

Lemma unrecognised_statement_is_echoed_witness :
  stdout (snd (parse (new_Parser [(ID, "SET"); (ID, "a"); (LITERAL, "x y"); (END, ";")]) start))
  = ["ERROR: Invalid Input. This is not a recognised statement:     SET a x y ;"].
Proof.
  exact (f_equal (fun r => stdout (snd r))
           (unrecognised_statement_is_echoed ID "SET"
              [(ID, "a"); (LITERAL, "x y"); (END, ";")] start eq_refl)).
Defined.

(** ** What the lexer gives *)

Lemma strip_prefix_split (p s rest : string) :
  strip_prefix p s = Some rest -> s = p ++ rest.
Proof.
  revert s; induction p as [|a p IH]; intros s H; simpl in *.
  - now inversion H.
  - destruct s as [|b s]; [discriminate|].
    destruct (Ascii.eqb_spec a b) as [E|E]; [|discriminate].
    subst b. now rewrite (IH _ H).
Qed.

Lemma span_split (f : ascii -> bool) (s m rest : string) :
  span f s = (m, rest) -> s = m ++ rest /\ all_chars f m = true.
Proof.
  revert m rest; induction s as [|c s IH]; intros m rest H; simpl in *.
  - inversion H; subst. split; reflexivity.
  - destruct (f c) eqn:Hc.
    + destruct (span f s) as [m' rest'] eqn:E. inversion H; subst.
      destruct (IH _ _ eq_refl) as [H1 H2]. simpl. rewrite Hc, H2, <- H1.
      split; reflexivity.
    + inversion H; subst. split; reflexivity.
Qed.

Lemma keyword_value (kw : string) before s value rest :
  keyword kw before s = Some (value, rest) -> value = kw /\ s = kw ++ rest.
Proof.
  unfold keyword. destruct (word_boundary before (head s)); [|discriminate].
  destruct (strip_prefix kw s) as [r|] eqn:E; [|discriminate].
  destruct (word_boundary _ (head r)); [|discriminate].
  intro H; inversion H; subst. split; [reflexivity | now apply strip_prefix_split].
Qed.

Lemma text_value (t : string) before s value rest :
  text t before s = Some (value, rest) -> value = t /\ s = t ++ rest.
Proof.
  unfold text. destruct (strip_prefix t s) as [r|] eqn:E; [|discriminate].
  intro H; inversion H; subst. split; [reflexivity | now apply strip_prefix_split].
Qed.

Lemma identifier_value before s value rest :
  identifier before s = Some (value, rest) ->
  is_identifier value = true /\ s = value ++ rest.
Proof.
  unfold identifier. destruct s as [|c s]; [discriminate|].
  destruct (is_alpha c) eqn:Hc; [|discriminate].
  destruct (span is_alnum s) as [m r] eqn:E. intro H; inversion H; subst.
  destruct (span_split _ _ _ _ E) as [H1 H2]. simpl. rewrite Hc, H2, <- H1.
  split; reflexivity.
Qed.

Lemma literal_body_split (s m rest : string) :
  literal_body s = Some (m, rest) -> s = m ++ rest.
Proof.
  remember (String.length s) as n eqn:Hn. revert s m rest Hn.
  induction n as [n IH] using lt_wf_ind. intros s m rest Hn H.
  destruct s as [|c s]; [discriminate|]. simpl in H.
  destruct (Ascii.eqb c dquote).
  - inversion H; subst. reflexivity.
  - destruct (Ascii.eqb c backslash).
    + destruct s as [|d s]; [discriminate|].
      destruct (Ascii.eqb d newline); [discriminate|].
      destruct (literal_body s) as [[m' r']|] eqn:E; [|discriminate].
      inversion H; subst. simpl.
      rewrite (IH (String.length s)) with (s := s) (m := m') (rest := rest);
        [reflexivity | simpl; lia | reflexivity | exact E].
    + destruct (literal_body s) as [[m' r']|] eqn:E; [|discriminate].
      inversion H; subst. simpl.
      rewrite (IH (String.length s)) with (s := s) (m := m') (rest := rest);
        [reflexivity | simpl; lia | reflexivity | exact E].
Qed.

Lemma literal_splitting : splitting literal.
Proof.
  intros before s value rest H. unfold literal in H.
  destruct s as [|c s]; [discriminate|].
  destruct (Ascii.eqb c dquote); [|discriminate].
  destruct (literal_body s) as [[m r]|] eqn:E; [|discriminate].
  inversion H; subst. apply literal_body_split in E. simpl. now rewrite E.
Qed.

Lemma some_of_splitting (f : ascii -> bool) : splitting (some_of f).
Proof.
  intros before s value rest H. unfold some_of in H.
  destruct (span f s) as [[|c m] r] eqn:E; [discriminate|].
  inversion H; subst. now apply span_split in E.
Qed.

Lemma backslash_then_splitting (c : ascii) : splitting (backslash_then c).
Proof.
  intros before s value rest H. unfold backslash_then in H.
  destruct s as [|b s]; [discriminate|].
  destruct (Ascii.eqb b backslash); [|discriminate].
  destruct (some_of (Ascii.eqb c) (Some b) s) as [[m r]|] eqn:E; [|discriminate].
  inversion H; subst. apply some_of_splitting in E. simpl. now rewrite E.
Qed.

(** Whatever pattern matches first, it splits the text, and the text it
    takes is one its token type allows. *)
Lemma first_match_value before s ty value rest :
  first_match patterns before s = Some (ty, value, rest) ->
  s = value ++ rest /\ matched_ok ty value = true.
Proof.
  unfold patterns. cbn [first_match].
  repeat match goal with
    | |- context [keyword ?kw before s] =>
        let E := fresh "E" in
        destruct (keyword kw before s) as [[? ?]|] eqn:E;
        [ intro H; inversion H; subst; apply keyword_value in E; destruct E as [-> E];
          split; [exact E | reflexivity] | clear E ]
    end.
  unfold alt.
  destruct (text "TAB" before s) as [[? ?]|] eqn:E1.
  { intro H; inversion H; subst. apply text_value in E1. destruct E1 as [-> E1]. now split. }
  destruct (text "SPACE" before s) as [[? ?]|] eqn:E2.
  { intro H; inversion H; subst. apply text_value in E2. destruct E2 as [-> E2]. now split. }
  destruct (text "NEWLINE" before s) as [[? ?]|] eqn:E3.
  { intro H; inversion H; subst. apply text_value in E3. destruct E3 as [-> E3]. now split. }
  destruct (text ";" before s) as [[? ?]|] eqn:E4.
  { intro H; inversion H; subst. apply text_value in E4. destruct E4 as [-> E4]. now split. }
  destruct (text "+" before s) as [[? ?]|] eqn:E5.
  { intro H; inversion H; subst. apply text_value in E5. destruct E5 as [-> E5]. now split. }
  destruct (identifier before s) as [[? ?]|] eqn:E6.
  { intro H; inversion H; subst. apply identifier_value in E6. destruct E6 as [E6 E6'].
    split; [exact E6' | exact E6]. }
  destruct (literal before s) as [[? ?]|] eqn:E7.
  { intro H; inversion H; subst. apply literal_splitting in E7. now split. }
  destruct (some_of is_space before s) as [[? ?]|] eqn:E8.
  { intro H; inversion H; subst. apply some_of_splitting in E8. now split. }
  destruct (backslash_then "t" before s) as [[? ?]|] eqn:E9.
  { intro H; inversion H; subst. apply backslash_then_splitting in E9. now split. }
  destruct (backslash_then "n" before s) as [[? ?]|] eqn:E10; [|discriminate].
  intro H; inversion H; subst. apply backslash_then_splitting in E10. now split.
Qed.

Lemma lexer_loop_tokens_ok (fuel : nat) before (s : string) pos toks toks' :
  Forall (fun t => token_ok t = true) toks ->
  lexer_loop fuel before s pos toks = Ret toks' ->
  Forall (fun t => token_ok t = true) toks'.
Proof.
  revert before s pos toks. induction fuel as [|fuel IH]; intros before s pos toks Hok H.
  - destruct s; simpl in H; [inversion H; subst; exact Hok | discriminate].
  - destruct s as [|c s]; cbn [lexer_loop] in H; [inversion H; subst; exact Hok|].
    destruct (first_match patterns before (String c s)) as [[[ty v] r]|] eqn:E;
      [|discriminate].
    apply first_match_value in E. destruct E as [_ Hv].
    eapply IH; [|exact H].
    destruct (type_eqb ty WHITESPACE) eqn:Ew; [exact Hok|].
    destruct (type_eqb ty LITERAL) eqn:El.
    + apply type_eqb_eq in El. subst ty. apply Forall_app. split; [exact Hok|].
      constructor; [reflexivity | constructor].
    + apply Forall_app. split; [exact Hok|]. constructor; [|constructor].
      destruct ty; try exact Hv; discriminate.
Qed.

(** X10. Every token the lexer returns is well formed for its type: no
    token is white space; a keyword token carries its lowercase spelling,
    END a semicolon, PLUS a plus sign; a CONSTANT is TAB, SPACE or NEWLINE
    and nothing else; an ID is a letter followed by letters and digits. *)
Theorem lexer_tokens_are_well_formed (s : string) (toks : list token) :
  lexer s = Ret toks -> Forall (fun t => token_ok t = true) toks.
Proof. unfold lexer. apply lexer_loop_tokens_ok. constructor. Qed.

Lemma lexer_tokens_are_well_formed_witness :
  Forall (fun t => token_ok t = true)
    [(SET, "set"); (ID, "a1"); (CONSTANT, "TAB"); (PLUS, "+"); (LITERAL, "x y"); (END, ";")].
Proof.
  apply (lexer_tokens_are_well_formed ("set a1 TAB+" ++ q ++ "x y" ++ q ++ " ;")).
  vm_compute. reflexivity.
Defined.

Lemma last_char_append (before : option ascii) (u v : string) :
  last_char before (u ++ v) = last_char (last_char before u) v.
Proof. revert before. induction u as [|c u IH]; intros before; simpl; [reflexivity | apply IH]. Qed.

Lemma lexer_loop_error (fuel : nat) (consumed s : string) toks msg :
  lexer_loop fuel (last_char None consumed) s (String.length consumed) toks
  = Raise (ValueError msg) ->
  exists pre c rest,
    consumed ++ s = pre ++ String c rest /\
    msg = unexpected_token (String.length pre) c /\
    first_match patterns (last_char None pre) (String c rest) = None.
Proof.
  revert consumed s toks. induction fuel as [|fuel IH]; intros consumed s toks H.
  - destruct s; simpl in H; discriminate.
  - destruct s as [|c s]; cbn [lexer_loop] in H; [discriminate|].
    destruct (first_match patterns (last_char None consumed) (String c s))
      as [[[ty v] r]|] eqn:E.
    + destruct (first_match_value _ _ _ _ _ E) as [Hs _].
      rewrite <- last_char_append, <- length_append in H.
      apply IH in H. destruct H as [pre [c' [rest [H1 [H2 H3]]]]].
      exists pre, c', rest. split; [|split; assumption].
      rewrite Hs, <- append_assoc. exact H1.
    + inversion H; subst. exists consumed, c, s. repeat split. exact E.
Qed.

(** X11. The lexer either returns its tokens or stops at the first
    character at which no pattern matches: the message gives the number of
    characters before it and the character itself.  That is the only way it
    fails, and for the read loop such a statement is one printed line:
    the table is not touched and the loop goes on. *)
Theorem lexer_fails_only_at_an_unmatched_character (s : string) :
  (exists toks, lexer s = Ret toks)
  \/ (exists pre c rest,
        s = pre ++ String c rest
        /\ first_match patterns (last_char None pre) (String c rest) = None
        /\ lexer s = Raise (ValueError (unexpected_token (String.length pre) c))
        /\ forall w, process s w
                     = print ("ERROR: " ++ unexpected_token (String.length pre) c) w).
Proof.
  destruct (lexer_total s) as [[toks E] | [msg E]]; [left; eauto|]. right.
  assert (H := E). unfold lexer in H.
  apply (lexer_loop_error _ "" s) in H. destruct H as [pre [c [rest [H1 [H2 H3]]]]].
  simpl in H1. subst msg. exists pre, c, rest.
  split; [exact H1|]. split; [exact H3|]. split; [exact E|].
  intro w. unfold process. now rewrite E.
Qed.

(** The loop of the lexer keeps any property of tokens that the patterns
    establish. *)
Lemma lexer_loop_invariant (P : token -> Prop) :
  (forall v, P (LITERAL, v)) ->
  (forall before s ty v rest,
     first_match patterns before s = Some (ty, v, rest) -> P (ty, v)) ->
  forall fuel before s pos toks toks',
    Forall P toks ->
    lexer_loop fuel before s pos toks = Ret toks' -> Forall P toks'.
Proof.
  intros Hlit Hpat. induction fuel as [|fuel IH]; intros before s pos toks toks' Hok H.
  - destruct s; simpl in H; [inversion H; subst; exact Hok | discriminate].
  - destruct s as [|c s]; cbn [lexer_loop] in H; [inversion H; subst; exact Hok|].
    destruct (first_match patterns before (String c s)) as [[[ty v] r]|] eqn:E;
      [|discriminate].
    eapply IH; [|exact H].
    destruct (type_eqb ty WHITESPACE); [exact Hok|].
    destruct (type_eqb ty LITERAL) eqn:El.
    + apply type_eqb_eq in El. subst ty. apply Forall_app. split; [exact Hok|].
      constructor; [apply Hlit | constructor].
    + apply Forall_app. split; [exact Hok|]. constructor; [|constructor]. eauto.
Qed.

Lemma first_match_constant (c : constant) (before : option ascii) (rest : string) :
  first_match patterns before (constant_name c ++ rest)
  = Some (CONSTANT, constant_name c, rest).
Proof.
  unfold patterns. cbn [first_match].
  rewrite !keyword_mismatch by (destruct c; reflexivity).
  unfold alt, text. destruct c; reflexivity.
Qed.

Lemma first_match_no_constant_identifier before s v rest :
  first_match patterns before s = Some (ID, v, rest) -> starts_with_constant v = false.
Proof.
  intro H. destruct (first_match_value _ _ _ _ _ H) as [Hs _].
  unfold starts_with_constant.
  destruct (strip_prefix "TAB" v) as [v'|] eqn:E1.
  { apply strip_prefix_split in E1. subst v. rewrite Hs, append_assoc in H.
    rewrite (first_match_constant TAB) in H. discriminate H. }
  destruct (strip_prefix "SPACE" v) as [v'|] eqn:E2.
  { apply strip_prefix_split in E2. subst v. rewrite Hs, append_assoc in H.
    rewrite (first_match_constant SPACE) in H. discriminate H. }
  destruct (strip_prefix "NEWLINE" v) as [v'|] eqn:E3; [|reflexivity].
  apply strip_prefix_split in E3. subst v. rewrite Hs, append_assoc in H.
  rewrite (first_match_constant NEWLINE) in H. discriminate H.
Qed.

(** X12. The constants have no word boundary in their pattern and are
    tried before ID: wherever the text TAB, SPACE or NEWLINE starts, after
    any character and before any other, the lexer takes it as a CONSTANT.
    So no identifier token ever begins with one of these words: a name such
    as TABLE is read as the constant TAB and the identifier LE. *)
Theorem constants_are_split_off_identifiers
  (c : constant) (before : option ascii) (rest s : string) (toks : list token) :
  first_match patterns before (constant_name c ++ rest)
  = Some (CONSTANT, constant_name c, rest)
  /\ (lexer s = Ret toks ->
      Forall (fun t => fst t = ID -> starts_with_constant (snd t) = false) toks).
Proof.
  split; [apply first_match_constant|].
  unfold lexer. apply lexer_loop_invariant; [discriminate | | constructor].
  intros b s0 ty v r H Hty. cbn [fst snd] in *. subst ty.
  eapply first_match_no_constant_identifier; eauto.
Qed.

Lemma constants_are_split_off_identifiers_witness :
  Forall (fun t => fst t = ID -> starts_with_constant (snd t) = false)
    [(SET, "set"); (CONSTANT, "TAB"); (ID, "LE"); (LITERAL, "x"); (END, ";")].
Proof.
  apply (proj2 (constants_are_split_off_identifiers TAB None ""
                  ("set TABLE " ++ q ++ "x" ++ q ++ ";") _)).
  vm_compute. reflexivity.
Defined.

(** ** Literals *)

Lemma first_match_quote (before : option ascii) (s : string) :
  first_match patterns before (String dquote s)
  = match literal_body s with
    | Some (m, rest) => Some (LITERAL, String dquote m, rest)
    | None => None
    end.
Proof.
  unfold patterns. cbn [first_match].
  rewrite !keyword_mismatch by reflexivity.
  unfold alt, text, identifier, literal, some_of, backslash_then.
  cbn [strip_prefix span]. 
  change (Ascii.eqb "T" dquote) with false. change (Ascii.eqb "S" dquote) with false.
  change (Ascii.eqb "N" dquote) with false. change (Ascii.eqb ";" dquote) with false.
  change (Ascii.eqb "+" dquote) with false. change (is_alpha dquote) with false.
  change (Ascii.eqb dquote dquote) with true. change (is_space dquote) with false.
  change (Ascii.eqb dquote backslash) with false. cbn iota.
  destruct (literal_body s) as [[m rest]|]; reflexivity.
Qed.

Lemma literal_body_escape (t rest : string) :
  all_chars not_backslash t = true ->
  literal_body (escape_quotes t ++ String dquote rest)
  = Some (escape_quotes t ++ String dquote "", rest).
Proof.
  induction t as [|c t IH]; intro H.
  - reflexivity.
  - cbn [all_chars] in H. apply andb_true_iff in H. destruct H as [Hc Ht].
    unfold not_backslash in Hc. apply negb_true_iff in Hc.
    cbn [escape_quotes]. destruct (Ascii.eqb c dquote) eqn:Hq.
    + cbn [append literal_body].
      change (Ascii.eqb backslash dquote) with false.
      change (Ascii.eqb backslash backslash) with true.
      change (Ascii.eqb dquote newline) with false. cbn iota.
      now rewrite (IH Ht).
    + cbn [append literal_body]. rewrite Hq, Hc. now rewrite (IH Ht).
Qed.

Lemma drop_last_snoc (u : string) (c : ascii) : drop_last (u ++ String c "") = u.
Proof.
  induction u as [|d u IH]; [reflexivity|].
  cbn [append drop_last]. rewrite IH. destruct u; reflexivity.
Qed.

Lemma unescape_escape (t : string) :
  all_chars not_backslash t = true -> unescape (escape_quotes t) = t.
Proof.
  induction t as [|c t IH]; intro H; [reflexivity|].
  cbn [all_chars] in H. apply andb_true_iff in H. destruct H as [Hc Ht].
  unfold not_backslash in Hc. apply negb_true_iff in Hc.
  cbn [escape_quotes]. destruct (Ascii.eqb c dquote) eqn:Hq.
  - apply Ascii.eqb_eq in Hq. subst c. cbn [unescape].
    change (Ascii.eqb backslash backslash && Ascii.eqb dquote dquote) with true.
    cbn iota. now rewrite (IH Ht).
  - cbn [unescape]. rewrite Hc. cbn [andb]. specialize (IH Ht).
    destruct (escape_quotes t) eqn:E.
    + destruct t as [|d t]; [reflexivity|]. cbn [escape_quotes] in E.
      destruct (Ascii.eqb d dquote); discriminate E.
    + now rewrite IH.
Qed.

(** X13. Writing and reading a literal is a round trip: any text without a
    backslash, with a backslash put before each of its quotes and the whole
    put between quotes, is lexed as one LITERAL token whose value is the
    text itself; line feeds and semicolons in it are kept. *)
Theorem literal_round_trip (t : string) :
  all_chars not_backslash t = true ->
  lexer (String dquote (escape_quotes t ++ String dquote "")) = Ret [(LITERAL, t)].
Proof.
  intro H. unfold lexer. cbn [String.length lexer_loop].
  rewrite first_match_quote, (literal_body_escape t "" H).
  change (type_eqb LITERAL WHITESPACE) with false.
  change (type_eqb LITERAL LITERAL) with true. cbn iota.
  unfold strip_quotes. cbn [drop]. rewrite drop_last_snoc, (unescape_escape t H).
  destruct (String.length (escape_quotes t ++ String dquote "")); reflexivity.
Qed.

Lemma literal_round_trip_witness :
  lexer (q ++ "say " ++ bs ++ q ++ "hi;" ++ bs ++ q ++ nl ++ "twice" ++ q)
  = Ret [(LITERAL, "say " ++ q ++ "hi;" ++ q ++ nl ++ "twice")].
Proof.
  exact (literal_round_trip ("say " ++ q ++ "hi;" ++ q ++ nl ++ "twice") eq_refl).
Defined.

(** ** One statement on a line *)

Lemma end_matches_from_last (p : string) (pos : nat) :
  (forall q1 q2, p = q1 ++ String semicolon q2 -> Nat.odd (count dquote q2) = true) ->
  end_matches_from pos (p ++ String semicolon nl) = [pos + String.length p + 1].
Proof.
  revert pos. induction p as [|c p IH]; intros pos H.
  - cbn. now rewrite Nat.add_0_r.
  - cbn [append end_matches_from String.length].
    assert (IH' : end_matches_from (pos + 1) (p ++ String semicolon nl)
                  = [pos + S (String.length p) + 1]).
    { replace (pos + S (String.length p) + 1) with (pos + 1 + String.length p + 1) by lia.
      apply IH. intros q1 q2 E. apply (H (String c q1) q2).
      simpl. now rewrite E. }
    destruct (Ascii.eqb_spec c semicolon) as [Ec|Ec]; [|exact IH'].
    subst c. rewrite lookahead_even, count_append. cbn [count].
    change (Ascii.eqb semicolon dquote) with false.
    change (Ascii.eqb newline dquote) with false. cbn [Nat.add].
    rewrite Nat.add_0_r, <- Nat.negb_odd, (H "" p eq_refl). exact IH'.
Qed.

Lemma drop_all (s t : string) : drop (String.length s) (s ++ t) = t.
Proof. apply drop_append. Qed.

Lemma bare_semicolons_quoted (p : string) (inside : bool) :
  bare_semicolons inside p = 0 ->
  forall q1 q2, p = q1 ++ String semicolon q2 ->
                xorb inside (Nat.odd (count dquote q1)) = true.
Proof.
  revert inside. induction p as [|c p IH]; intros inside H q1 q2 E.
  - destruct q1; discriminate E.
  - cbn [bare_semicolons] in H. destruct q1 as [|d q1].
    + cbn [append] in E. injection E as Ec Ep. subst c.
      change (Ascii.eqb semicolon dquote) with false in H. rewrite Ascii.eqb_refl in H.
      destruct inside; [reflexivity | discriminate H].
    + cbn [append] in E. injection E as Ec Ep. subst d. cbn [count].
      destruct (Ascii.eqb c dquote).
      * rewrite odd_add_one. specialize (IH _ H q1 q2 Ep).
        now destruct inside, (Nat.odd (count dquote q1)).
      * apply (IH inside ltac:(lia) q1 q2 Ep).
Qed.

(** X14. One statement on a line is cut exactly.  If the buffer and the
    line together have an even number of quotes and no semicolon outside
    quotes, then, once the line is given with its closing semicolon, the
    whole text up to and including that semicolon is handed to the lexer,
    once, and the buffer is left empty.  This holds for a statement typed
    over several lines as well, and for semicolons inside its literals. *)
Theorem one_statement_on_a_line_is_cut_exactly (buf line : string) (w : world) :
  let text := buf ++ line in
  Nat.even (count dquote text) = true ->
  bare_semicolons false text = 0 ->
  get_user_input_loop [line ++ ";"] buf w
  = (note_handed (text ++ ";") ;; process (text ++ ";") ;; ret "") w.
Proof.
  intros text Heven Hbare. cbn [get_user_input_loop].
  assert (Eb : buf ++ (line ++ ";") ++ nl = text ++ String semicolon nl).
  { subst text. now rewrite !append_assoc. }
  rewrite Eb.
  assert (Hc : count dquote (text ++ String semicolon nl) = count dquote text).
  { rewrite count_append. change (count dquote (String semicolon nl)) with 0. lia. }
  rewrite mod2_odd, Hc, <- Nat.negb_even, Heven. cbn [negb].
  unfold end_matches. rewrite end_matches_from_last.
  - cbn [Nat.add for_end_matches].
    replace (take (String.length text + 1) (text ++ String semicolon nl)) with (text ++ ";").
    2:{ replace (text ++ String semicolon nl) with ((text ++ ";") ++ nl)
          by (now rewrite append_assoc).
        replace (String.length text + 1) with (String.length (text ++ ";"))
          by (rewrite length_append; reflexivity).
        now rewrite take_append. }
    replace (drop (String.length text + 1 + 1) (text ++ String semicolon nl)) with "".
    2:{ replace (text ++ String semicolon nl) with ((text ++ String semicolon nl) ++ "")
          by apply append_empty_r.
        replace (String.length text + 1 + 1)
          with (String.length (text ++ String semicolon nl))
          by (rewrite length_append; simpl; lia).
        now rewrite drop_append. }
    unfold bind. cbn [note_handed].
    destruct (process (text ++ ";") _) as [[[] | e |] w']; reflexivity.
  - intros q1 q2 E.
    assert (Hq := bare_semicolons_quoted text false Hbare q1 q2 E). cbn [xorb] in Hq.
    rewrite E, count_append in Heven. cbn [count] in Heven.
    change (Ascii.eqb semicolon dquote) with false in Heven. cbn [Nat.add] in Heven.
    rewrite Nat.even_add, <- (Nat.negb_odd (count dquote q1)), Hq in Heven.
    rewrite <- Nat.negb_even.
    destruct (Nat.even (count dquote q2)); [discriminate Heven | reflexivity].
Qed.

Lemma one_statement_on_a_line_is_cut_exactly_witness :
  handed (snd (get_user_input_loop [("b;c" ++ q ++ " + a") ++ ";"]
                 ("set a " ++ q ++ "x;" ++ nl) start))
  = ["set a " ++ q ++ "x;" ++ nl ++ "b;c" ++ q ++ " + a;"].
Proof.
  rewrite (one_statement_on_a_line_is_cut_exactly
             ("set a " ++ q ++ "x;" ++ nl) ("b;c" ++ q ++ " + a") start eq_refl eq_refl).
  vm_compute. reflexivity.
Defined.

(** ** How a statement can end *)

Lemma returns_ret {A : Type} (a : A) : returns (ret a).
Proof. intro w. now exists a, w. Qed.

Lemma returns_print (line : string) : returns (print line).
Proof. intro w. eexists; eexists; reflexivity. Qed.

Lemma returns_bind {A B : Type} (m : M A) (f : A -> M B) :
  returns m -> (forall a, returns (f a)) -> returns (bind m f).
Proof.
  intros Hm Hf w. destruct (Hm w) as [a [w' E]]. unfold bind. rewrite E. apply Hf.
Qed.

Lemma returns_print_all (lines : list string) : returns (print_all lines).
Proof. intro w. rewrite print_all_stdout. eexists; eexists; reflexivity. Qed.

Lemma returns_token_at (toks : list token) (i : nat) :
  i < List.length toks -> returns (token_at toks i).
Proof.
  intros Hi w. unfold token_at.
  destruct (nth_error toks i) as [t|] eqn:E.
  - now exists t, w.
  - apply nth_error_None in E. lia.
Qed.

Lemma returns_eval_loop (toks : list token) (indices : list nat) (acc : string) :
  Forall (fun i => i < List.length toks) indices -> returns (eval_loop toks indices acc).
Proof.
  intro H. revert acc. induction H as [|i indices Hi _ IH]; intro acc; cbn [eval_loop].
  - apply returns_ret.
  - apply returns_bind; [now apply returns_token_at|]. intros [ty v].
    destruct ty; try apply IH.
    + destruct (String.eqb v "SPACE"); [apply IH|].
      destruct (String.eqb v "TAB"); apply IH.
    + intro w. unfold bind, get_table. cbn [fst snd].
      destruct (get_table_record v (symbol_table w)); [apply IH|].
      eexists; eexists; reflexivity.
Qed.

Lemma returns_eval_expression (toks : list token) (s e : nat) :
  e < List.length toks -> returns (eval_expression toks s e).
Proof.
  intro He. apply returns_eval_loop. apply Forall_forall. intros i Hi.
  unfold range in Hi. apply in_seq in Hi. lia.
Qed.

Lemma returns_do_append (toks : list token) (s e : nat) :
  2 <= List.length toks -> e < List.length toks -> returns (do_append toks s e).
Proof.
  intros H2 He. unfold do_append.
  apply returns_bind; [apply returns_token_at; lia|]. intros t.
  apply returns_bind; [now apply returns_eval_expression|]. intros v w.
  unfold bind, get_table. cbn [fst snd].
  destruct (get_table_record (snd t) (symbol_table w)) as [record|] eqn:E.
  - destruct v as [v|]; [|eexists; eexists; reflexivity].
    rewrite (update_record_overwrite _ _ _ _ E). eexists; eexists; reflexivity.
  - apply returns_print.
Qed.

Lemma returns_do_set (toks : list token) (s e : nat) :
  2 <= List.length toks -> e < List.length toks -> returns (do_set toks s e).
Proof.
  intros H2 He. unfold do_set.
  apply returns_bind; [apply returns_token_at; lia|]. intros t.
  apply returns_bind; [now apply returns_eval_expression|]. intros v w.
  unfold bind, get_table. cbn [fst snd].
  destruct v as [v|]; [|eexists; eexists; reflexivity].
  destruct (get_table_record (snd t) (symbol_table w)) as [record|] eqn:E.
  - rewrite (update_record_overwrite _ _ _ _ E). eexists; eexists; reflexivity.
  - eexists; eexists; reflexivity.
Qed.

Lemma returns_reverse (toks : list token) :
  2 <= List.length toks -> returns (reverse toks).
Proof.
  intros H2. unfold reverse.
  apply returns_bind; [apply returns_token_at; lia|]. intros t w.
  unfold bind, get_table. cbn [fst snd].
  destruct (get_table_record (snd t) (symbol_table w)) as [record|] eqn:E.
  - rewrite (update_record_overwrite _ _ _ _ E). eexists; eexists; reflexivity.
  - apply returns_print.
Qed.

Lemma returns_list_vars : returns list_vars.
Proof.
  unfold list_vars. apply returns_bind; [intro w; eexists; eexists; reflexivity|].
  intros table. apply returns_bind; [apply returns_print|]. intros _.
  apply returns_print_all.
Qed.

Lemma returns_expr_print (toks : list token) (s e : nat) :
  1 <= List.length toks -> e < List.length toks -> returns (expr_print toks s e).
Proof.
  intros H1 He. unfold expr_print.
  apply returns_bind; [apply returns_token_at; lia|]. intros t.
  apply returns_bind; [now apply returns_eval_expression|]. intros [v|];
    [|apply returns_print].
  destruct (type_eqb (fst t) PRINT); [apply returns_print|].
  destruct (type_eqb (fst t) PRINTLENGTH); [apply returns_print|].
  destruct (type_eqb (fst t) PRINTWORDS).
  { apply returns_bind; [apply returns_print | intros _; apply returns_print_all]. }
  destruct (type_eqb (fst t) PRINTWORDCOUNT); [apply returns_print | apply returns_ret].
Qed.

Lemma ends_well_returns (toks : list token) {A : Type} (m : M A) (w : world) :
  returns m -> ends_well toks (m w).
Proof. intro H. destruct (H w) as [a [w' E]]. unfold ends_well. now rewrite E. Qed.

Lemma ends_with_END_app (pre l : list token) :
  l <> [] -> ends_with_END (pre ++ l) = ends_with_END l.
Proof.
  intro Hl. induction pre as [|t pre IH]; [reflexivity|].
  cbn [List.app ends_with_END]. destruct (pre ++ l)%list eqn:E; [|exact IH].
  apply app_eq_nil in E. tauto.
Qed.

Lemma ends_with_END_in (l : list token) :
  ends_with_END l = true -> In END (map fst l).
Proof.
  induction l as [|t l IH]; [discriminate|]. cbn [ends_with_END].
  destruct l as [|t' l].
  - intro H. apply type_eqb_eq in H. left. exact H.
  - intro H. right. now apply IH.
Qed.

(** Tokens in which no terminator follows some point do not end with one. *)
Lemma not_terminated (pre l : list token) :
  l <> [] -> ~ In END (map fst l) -> ends_with_END (pre ++ l) = false.
Proof.
  intros Hl Hn. rewrite ends_with_END_app by exact Hl.
  destruct (ends_with_END l) eqn:E; [|reflexivity].
  apply ends_with_END_in in E. contradiction.
Qed.

Lemma nth_error_skipn_cons {A : Type} (l : list A) (n : nat) (x : A) :
  nth_error l n = Some x -> skipn n l = x :: skipn (S n) l.
Proof.
  revert n. induction l as [|y l IH]; intros [|n] H; try discriminate.
  - now inversion H.
  - cbn [nth_error] in H. cbn [skipn]. now apply IH.
Qed.

Lemma loop_answer_raises (fuel : nat) (l : list token) (e : exn) :
  loop_answer fuel l = Raise e -> e = TypeError.
Proof.
  revert l. induction fuel as [|fuel IH]; intros l H; [discriminate|].
  cbn [loop_answer] in H. destruct l as [|t l]; [now inversion H|].
  destruct (type_eqb (fst t) END); [discriminate|].
  destruct (type_eqb (fst t) PLUS); [|discriminate].
  destruct l as [|t' l]; [now inversion H|].
  destruct (is_value_type (fst t')); [|discriminate].
  destruct (loop_answer fuel l) as [[b n] | e' |] eqn:E; try discriminate.
  inversion H; subst. now apply (IH l).
Qed.

(** The three ways the expression check can end on a positioned parser. *)
Lemma expression_cases (pre l : list token) (w : world) :
  (exists p', expression (positioned pre l) w = (Ret (false, p'), w))
  \/ (exists pre' semi post,
        expression (positioned pre l) w
        = (Ret (true, positioned pre' ((END, semi) :: post)), w)
        /\ (pre' ++ (END, semi) :: post = pre ++ l)%list)
  \/ (expression (positioned pre l) w = (Raise TypeError, w)
      /\ ~ In END (map fst l)).
Proof.
  rewrite expression_positioned.
  destruct l as [|[ty v] l]; [right; right; split; [reflexivity | intros []]|].
  cbn [fst]. destruct (is_value_type ty) eqn:Ev; [|left; eauto].
  assert (Hl := loop_answer_verdict (S (List.length (pre ++ (ty, v) :: l))) l).
  assert (Hf : List.length l < S (List.length (pre ++ (ty, v) :: l)))
    by (rewrite length_app; simpl; lia).
  specialize (Hl Hf).
  destruct (loop_answer _ l) as [[b n] | e |] eqn:El; [| |contradiction]; cbn [moved].
  - destruct b; [|left; eauto]. right; left.
    destruct Hl as [_ Hn]. destruct (Hn eq_refl) as [semi Hsemi].
    assert (Hs : skipn n l = (END, semi) :: skipn (S n) l)
      by exact (nth_error_skipn_cons l n _ Hsemi).
    exists ((pre ++ [(ty, v)]) ++ firstn n l)%list, semi, (skipn (S n) l).
    rewrite Hs. split; [reflexivity|].
    rewrite <- Hs, <- !app_assoc, firstn_skipn. reflexivity.
  - right; right. destruct Hl as [Hc Hi].
    apply loop_answer_raises in El. subst e. split; [reflexivity|].
    cbn [map fst]. intros [H | H]; [subst ty; discriminate | contradiction].
Qed.

(** What [valid_match] does on a positioned parser. *)
Lemma valid_match_cases (expected : token_type) (pre l : list token) (w : world) :
  (l = [] /\ valid_match expected (positioned pre l) w = (Raise TypeError, w))
  \/ (exists t l' w',
        l = t :: l' /\
        (valid_match expected (positioned pre l) w = (Ret (positioned pre l), w')
         \/ (fst t = expected /\
             valid_match expected (positioned pre l) w
             = (Ret (positioned (pre ++ [t]) l'), w')))).
Proof.
  destruct l as [|t l]; [left; split; reflexivity|]. right.
  unfold valid_match. rewrite curr_token_positioned, bind_ret.
  destruct (type_eqb (fst t) expected) eqn:E.
  - apply type_eqb_eq in E. exists t, l, w. split; [reflexivity|]. right.
    split; [exact E|]. now rewrite next_token_positioned.
  - eexists t, l, _. split; [reflexivity|]. left. reflexivity.
Qed.

Lemma ends_well_bind_returns (toks : list token) {A B : Type} (m : M A) (f : A -> M B)
  (w : world) :
  returns m -> (forall a w', ends_well toks (f a w')) -> ends_well toks (bind m f w).
Proof.
  intros Hm Hf. destruct (Hm w) as [a [w' E]]. unfold bind. rewrite E. apply Hf.
Qed.

Lemma after_expression (toks pre l : list token) (msg : string) (k : Parser -> M unit)
  (w : world) :
  (pre ++ l)%list = toks ->
  (~ In END (map fst l) -> ends_with_END toks = false) ->
  (forall self, currIndex self - 1 < List.length toks -> returns (k self)) ->
  ends_well toks
    (bind (expression (positioned pre l))
       (fun r => let (valid, self) := r : bool * Parser in
                 if negb valid then print msg
                 else bind (valid_match END self) (fun _ => k self)) w).
Proof.
  intros Htoks Hnt Hk.
  destruct (expression_cases pre l w)
    as [[p' E] | [[pre' [semi [post [E Hsplit]]]] | [E Hno]]];
    unfold bind at 1; rewrite E.
  - cbn [negb]. apply ends_well_returns, returns_print.
  - cbn [negb]. rewrite valid_match_positioned, bind_ret.
    apply ends_well_returns, Hk. rewrite currIndex_positioned.
    rewrite <- Htoks, <- Hsplit, length_app. simpl. lia.
  - unfold ends_well. cbn [fst]. right. split; [reflexivity | now apply Hnt].
Qed.

Ltac after_expr toks :=
  match goal with
  | |- ends_well _
         (bind (expression (positioned ?pre ?l))
            (fun r => let (valid, self) := r in
                      if negb valid then print ?msg
                      else bind (valid_match END self) (fun _ => @?k self)) ?w) =>
      apply (after_expression toks pre l msg k w)
  end.

Lemma keyword_alone_not_terminated (ty : token_type) (v : string) :
  is_statement_keyword ty = true -> ends_with_END [(ty, v)] = false.
Proof. destruct ty; try discriminate; reflexivity. Qed.

(** Every way parsing a token list can end. *)
Lemma statement_ends_well (toks : list token) (w : world) :
  ends_well toks (statement (new_Parser toks) w).
Proof.
  unfold statement. rewrite next_token_new.
  destruct toks as [|[ty v] rest].
  { unfold ends_well. cbn. right. split; reflexivity. }
  rewrite curr_token_positioned, bind_ret. cbn [fst]. rewrite next_token_positioned.
  cbn [List.app]. rewrite tokens_positioned. cbn [List.app].
  set (toks := (ty, v) :: rest).
  assert (Halone : is_statement_keyword ty = true -> rest = [] ->
                   ends_well toks (@raise unit TypeError w)).
  { intros Hk ->. unfold ends_well. cbn [fst raise]. right. split; [reflexivity|].
    now apply keyword_alone_not_terminated. }
  destruct (type_eqb ty APPEND || type_eqb ty SET) eqn:Eas.
  { assert (Hk : is_statement_keyword ty = true).
    { apply orb_true_iff in Eas. destruct Eas as [E | E]; apply type_eqb_eq in E;
        subst ty; reflexivity. }
    match goal with
      | |- context [valid_match ?x (positioned ?pre ?l)] =>
          destruct (valid_match_cases x pre l w)
      as [[Hr E] | [t1 [rest1 [w' [Hr [E | [Hid E]]]]]]]
      end;
      unfold bind at 1; rewrite E.
    - now apply Halone.
    - subst rest. after_expr toks.
      + reflexivity.
      + intro Hn. apply (not_terminated [(ty, v)]); [discriminate | exact Hn].
      + intros self He. cbv beta. destruct (type_eqb ty APPEND);
          [apply returns_do_append | apply returns_do_set]; simpl; try lia; exact He.
    - subst rest. after_expr toks.
      + reflexivity.
      + intro Hn. apply (not_terminated [(ty, v)] (t1 :: rest1)); [discriminate|].
        cbn [map]. intros [H | H]; [rewrite Hid in H; discriminate | contradiction].
      + intros self He. cbv beta. destruct (type_eqb ty APPEND);
          [apply returns_do_append | apply returns_do_set]; simpl; try lia; exact He. }
  destruct (type_eqb ty LIST) eqn:El.
  { apply type_eqb_eq in El. subst ty.
    match goal with
      | |- context [valid_match ?x (positioned ?pre ?l)] =>
          destruct (valid_match_cases x pre l w)
      as [[Hr E] | [t1 [rest1 [w' [Hr [E | [Hid E]]]]]]]
      end;
      unfold bind at 1; rewrite E.
    - now apply Halone.
    - apply ends_well_returns, returns_list_vars.
    - apply ends_well_returns, returns_list_vars. }
  destruct (type_eqb ty EXIT) eqn:Ee.
  { apply type_eqb_eq in Ee. subst ty.
    match goal with
      | |- context [valid_match ?x (positioned ?pre ?l)] =>
          destruct (valid_match_cases x pre l w)
      as [[Hr E] | [t1 [rest1 [w' [Hr [E | [Hid E]]]]]]]
      end;
      unfold bind at 1; rewrite E.
    - now apply Halone.
    - unfold ends_well. cbn [fst raise]. left. split; [reflexivity | now exists v, rest].
    - unfold ends_well. cbn [fst raise]. left. split; [reflexivity | now exists v, rest]. }
  destruct (type_eqb ty REVERSE) eqn:Er.
  { apply type_eqb_eq in Er. subst ty.
    match goal with
      | |- context [valid_match ?x (positioned ?pre ?l)] =>
          destruct (valid_match_cases x pre l w)
      as [[Hr E] | [t1 [rest1 [w' [Hr [E | [Hid E]]]]]]]
      end;
      unfold bind at 1; rewrite E.
    - now apply Halone.
    - subst rest.
      match goal with
      | |- context [valid_match ?x (positioned ?pre ?l)] =>
          destruct (valid_match_cases x pre l w')
        as [[Hr2 E2] | [t2 [rest2 [w2 [Hr2 [E2 | [Hid2 E2]]]]]]]
      end; [discriminate| |];
        unfold bind at 1; rewrite E2;
        apply ends_well_returns, returns_reverse; simpl; lia.
    - subst rest.
      match goal with
      | |- context [valid_match ?x (positioned ?pre ?l)] =>
          destruct (valid_match_cases x pre l w')
            as [[Hr2 E2] | [t2 [rest2 [w2 [Hr2 [E2 | [Hid2 E2]]]]]]]
      end;
        unfold bind at 1; rewrite E2.
      + subst rest1. unfold ends_well. cbn [fst]. right. split; [reflexivity|].
        subst toks. cbn [ends_with_END]. rewrite Hid. reflexivity.
      + apply ends_well_returns, returns_reverse; simpl; lia.
      + apply ends_well_returns, returns_reverse; simpl; lia. }
  destruct (is_infix "PRINT" (type_name ty)) eqn:Ep.
  { assert (Hne : ty <> END) by (intros ->; discriminate Ep).
    after_expr toks.
    - reflexivity.
    - intro Hn. destruct rest as [|t1 rest1].
      + subst toks. cbn [ends_with_END fst].
        destruct (type_eqb ty END) eqn:E; [apply type_eqb_eq in E; contradiction | reflexivity].
      + apply (not_terminated [(ty, v)]); [discriminate | exact Hn].
    - intros self He. cbv beta. apply returns_expr_print; [simpl; lia | exact He]. }
  apply ends_well_returns, returns_print.
Qed.

(** X15. Parsing a token list ends in one of three ways.  It returns; or
    it raises SystemExit, only when the list starts with EXIT; or it raises
    TypeError, only when the last token of the list is not a terminator.
    It never raises IndexError or ValueError: [tokens[1]], [tokens[0]] and
    the range of the expression are always inside the list, and the record
    to update is always found.  So a statement that ends with its
    terminator never crashes the session. *)
Theorem parse_raises_only_exit_or_missing_terminator
  (toks : list token) (w : world) (e : exn) :
  fst (parse (new_Parser toks) w) <> OutOfFuel
  /\ (fst (parse (new_Parser toks) w) = Raise e ->
      (e = SystemExit /\ exists kw rest, toks = (EXIT, kw) :: rest)
      \/ (e = TypeError /\ ends_with_END toks = false))
  /\ (ends_with_END toks = true -> fst (parse (new_Parser toks) w) <> Raise TypeError).
Proof.
  assert (H := statement_ends_well toks w). unfold ends_well in H. unfold parse.
  destruct (fst (statement (new_Parser toks) w)) as [[] | e' |]; [| |contradiction].
  - split; [discriminate|]. split; discriminate.
  - split; [discriminate|]. split.
    + intro E. inversion E; subst e'. exact H.
    + intros Hend E. inversion E; subst e'.
      destruct H as [[H _] | [_ H]]; [discriminate H | congruence].
Qed.

Lemma parse_raises_only_exit_or_missing_terminator_witness :
  ends_with_END [(REVERSE, "reverse"); (ID, "a")] = false
  /\ fst (parse (new_Parser [(LIST, "list"); (PLUS, "+"); (END, ";")]) start)
     <> Raise TypeError.
Proof.
  split.
  - destruct (parse_raises_only_exit_or_missing_terminator
                [(REVERSE, "reverse"); (ID, "a")] start TypeError) as [_ [H _]].
    destruct (H eq_refl) as [[H1 _] | [_ H2]]; [discriminate H1 | exact H2].
  - apply (parse_raises_only_exit_or_missing_terminator
             [(LIST, "list"); (PLUS, "+"); (END, ";")] start TypeError).
    reflexivity.
Defined.

Lemma session_end_bind {A B : Type} (m : M A) (f : A -> M B) (w : world) :
  session_end (m w) -> (forall a w', session_end (f a w')) -> session_end (bind m f w).
Proof.
  unfold session_end, bind. intros Hm Hf.
  destruct (m w) as [[a | e |] w']; cbn [fst] in *; [apply Hf | exact Hm | exact Hm].
Qed.

Lemma process_session_end (text : string) (w : world) : session_end (process text w).
Proof.
  unfold process.
  destruct (lexer_total text) as [[toks E] | [msg E]]; rewrite E; [|exact I].
  assert (H := statement_ends_well toks w). unfold ends_well in H. unfold parse, session_end.
  destruct (statement (new_Parser toks) w) as [[[] | e |] w']; cbn [fst] in *;
    [exact I | | contradiction].
  destruct H as [[-> _] | [-> _]]; cbn [fst]; auto.
Qed.

Lemma for_end_matches_session_end (ends : list nat) (buf : string) (w : world) :
  session_end (for_end_matches ends buf w).
Proof.
  revert buf w. induction ends as [|e ends IH]; intros buf w; [exact I|].
  cbn [for_end_matches]. apply session_end_bind; [exact I|]. intros _ w1.
  apply session_end_bind; [apply process_session_end|]. intros _ w2. apply IH.
Qed.

(** X16. Whatever lines are typed, a session is either still waiting for
    input or has been ended by SystemExit or by TypeError.  The read loop
    never lets an IndexError or a ValueError out: lexical errors are
    caught and printed, and the interpreter never indexes outside its
    token list or its table. *)
Theorem session_ends_only_by_exit_or_type_error (lines : list string) (w : world) :
  match fst (main lines w) with
  | Ret _ => True
  | Raise e => e = SystemExit \/ e = TypeError
  | OutOfFuel => False
  end.
Proof.
  change (session_end (main lines w)). unfold main.
  do 4 (apply session_end_bind; [exact I | intros _ ?w]).
  unfold get_user_input. generalize "".
  match goal with |- forall s, session_end (_ _ _ ?x) => generalize x end. clear.
  induction lines as [|l lines IH]; intros w buf; [exact I|].
  cbn [get_user_input_loop]. destruct (negb _); [|apply IH].
  apply session_end_bind; [apply for_end_matches_session_end|]. intros b w'. apply IH.
Qed.

(** X17. Append accumulates on what Set stored: after a Set statement on
    [x] whose expression evaluates to [v1], an Append statement on [x] whose
    expression evaluates, in the table the Set has left, to [v2] leaves [x]
    with the value [v1 ++ v2], and every other variable as the Set left
    it. *)
Theorem set_then_append_accumulates
  (kw1 kw2 x semi1 semi2 : string) (t1 t2 : term) (terms1 terms2 : list term)
  (post1 post2 : list token) (w : world) :
  let set_toks :=
    (SET, kw1) :: (ID, x) :: (expr_tokens (t1 :: terms1) ++ (END, semi1) :: post1)%list in
  let append_toks :=
    (APPEND, kw2) :: (ID, x) :: (expr_tokens (t2 :: terms2) ++ (END, semi2) :: post2)%list in
  let w1 := snd (parse (new_Parser set_toks) w) in
  let w2 := snd (parse (new_Parser append_toks) w1) in
  let v1 := concat_all (map (term_value (symbol_table w)) (t1 :: terms1)) in
  let v2 := concat_all (map (term_value (symbol_table w1)) (t2 :: terms2)) in
  first_undefined (symbol_table w) (t1 :: terms1) = None ->
  first_undefined (symbol_table w1) (t2 :: terms2) = None ->
  get_table_record x (symbol_table w2) = Some (x, v1 ++ v2)
  /\ names w2 = names w1
  /\ (forall y, y <> x ->
      get_table_record y (symbol_table w2) = get_table_record y (symbol_table w1))
  /\ stdout w2 = stdout w.
Proof.
  intros set_toks append_toks w1 w2 v1 v2 H1 H2.
  assert (Hw1 : w1 = snd (put_table (set_table x v1 (symbol_table w)) w)).
  { subst w1 set_toks. rewrite parse_set_trailing, do_set_trailing, H1. reflexivity. }
  assert (Hx : get_table_record x (symbol_table w1) = Some (x, v1))
    by (rewrite Hw1; apply set_table_same).
  assert (Hw2 : w2 = snd (put_table (overwrite x (v1 ++ v2) (symbol_table w1)) w1)).
  { subst w2 append_toks. rewrite parse_append_trailing, do_append_trailing, H2, Hx.
    reflexivity. }
  rewrite Hw2. cbn [put_table snd symbol_table stdout].
  split; [eapply overwrite_same; eauto|].
  split; [unfold names; cbn [symbol_table]; eapply overwrite_names; eauto|].
  split; [intros y Hy; now apply overwrite_other|].
  rewrite Hw1. reflexivity.
Qed.

Lemma set_then_append_accumulates_witness :
  get_table_record "a"
    (symbol_table
       (snd (parse (new_Parser [(APPEND, "append"); (ID, "a"); (ID, "a"); (PLUS, "+");
                                (LITERAL, "y"); (END, ";")])
               (snd (parse (new_Parser [(SET, "set"); (ID, "a"); (LITERAL, "x"); (END, ";")])
                       start)))))
  = Some ("a", "xxy").
Proof.
  exact (proj1 (set_then_append_accumulates "set" "append" "a" ";" ";"
                  (Literal "x") (Identifier "a") [] [Literal "y"] [] [] start
                  eq_refl eq_refl)).
Defined.

(** ** The expression check on every token list *)

Lemma is_value_type_term (ty : token_type) : is_value_type ty = is_term ty.
Proof. destruct ty; reflexivity. Qed.

Lemma forallb_value_term (terms : list token_type) :
  forallb is_value_type terms = forallb is_term terms.
Proof.
  induction terms as [|t terms IH]; [reflexivity|].
  cbn [forallb]. now rewrite is_value_type_term, IH.
Qed.

Lemma chain_shape_expression_shape (l : list token_type) :
  chain_shape l <-> expression_shape l.
Proof.
  split; intros [terms [post [Hne [Hv E]]]]; exists terms, post;
    (split; [exact Hne | split; [|exact E]]).
  - now rewrite <- forallb_value_term.
  - now rewrite forallb_value_term.
Qed.

Lemma runs_out_cons (t : token_type) (l : list token_type) :
  runs_out (t :: l) = is_term t && runs_out_tail l.
Proof. reflexivity. Qed.

(** The recogniser and the chain in words agree. *)
Lemma runs_out_cut_short (l : list token_type) : runs_out l = true <-> cut_short l.
Proof.
  split.
  - remember (List.length l) as n eqn:Hn. revert l Hn.
    induction n as [n IH] using lt_wf_ind. intros l Hn H.
    destruct l as [|t l]; [now left|]. right.
    rewrite runs_out_cons in H. apply andb_true_iff in H. destruct H as [Ht Hl].
    destruct l as [|t' l].
    { exists [t]. cbn [forallb]. rewrite Ht. repeat split; [discriminate | now left]. }
    destruct t'; try discriminate. cbn [runs_out_tail] in Hl.
    destruct (IH (List.length l)) with (l := l) as [E | [terms [Hne [Hv E]]]];
      [simpl in Hn; lia | reflexivity | exact Hl | |].
    + subst l. exists [t]. cbn [forallb]. rewrite Ht.
      repeat split; [discriminate | now right].
    + exists (t :: terms). split; [discriminate|]. split.
      * cbn [forallb]. now rewrite Ht, Hv.
      * destruct terms as [|t1 terms]; [contradiction|].
        change (intersperse PLUS (t :: t1 :: terms))
          with (t :: PLUS :: intersperse PLUS (t1 :: terms)).
        destruct E as [E | E]; rewrite E; [now left | now right].
  - intros [-> | [terms [Hne [Hv E]]]]; [reflexivity|]. revert l Hne Hv E.
    induction terms as [|t terms IH]; [contradiction|]. intros l _ Hv E.
    cbn [forallb] in Hv. apply andb_true_iff in Hv. destruct Hv as [Ht Hv].
    destruct terms as [|t1 terms].
    + destruct E as [E | E]; subst l; cbn; now rewrite Ht.
    + change (intersperse PLUS (t :: t1 :: terms))
        with (t :: PLUS :: intersperse PLUS (t1 :: terms)) in E.
      destruct E as [E | E]; subst l; cbn [List.app]; rewrite runs_out_cons, Ht;
        cbn [andb runs_out_tail]; apply IH; try discriminate; auto.
Qed.

(** The loop raises exactly when the tokens run out. *)
Lemma loop_answer_runs_out (fuel : nat) (l : list token) :
  List.length l < fuel ->
  match loop_answer fuel l with
  | Ret _ => runs_out_tail (map fst l) = false
  | Raise e => runs_out_tail (map fst l) = true
  | OutOfFuel => False
  end.
Proof.
  revert l. induction fuel as [|fuel IH]; intros l Hlen; [lia|].
  cbn [loop_answer].
  destruct l as [|[ty v] l]; [reflexivity|].
  cbn [fst map runs_out_tail].
  destruct (type_eqb ty END) eqn:E1.
  { apply type_eqb_eq in E1; subst. reflexivity. }
  destruct (type_eqb ty PLUS) eqn:E2.
  2:{ destruct ty; try reflexivity; discriminate. }
  apply type_eqb_eq in E2; subst ty.
  destruct l as [|[ty' v'] l]; [reflexivity|].
  cbn [fst map]. rewrite runs_out_cons, <- is_value_type_term.
  destruct (is_value_type ty') eqn:E3; [|reflexivity].
  cbn [andb]. simpl in Hlen. specialize (IH l ltac:(lia)).
  destruct (loop_answer fuel l) as [[b n] | e |]; exact IH.
Qed.

Lemma expression_raises (pre l : list token) (w : world) :
  expression (positioned pre l) w = (Raise TypeError, w) <-> runs_out (map fst l) = true.
Proof.
  rewrite expression_positioned.
  destruct l as [|[ty v] l]; [split; reflexivity|].
  cbn [map fst]. rewrite runs_out_cons, <- is_value_type_term.
  destruct (is_value_type ty) eqn:Ev; cbn [andb]; [|split; discriminate].
  assert (Hl := loop_answer_runs_out (S (List.length (pre ++ (ty, v) :: l))) l).
  assert (Hf : List.length l < S (List.length (pre ++ (ty, v) :: l)))
    by (rewrite length_app; simpl; lia).
  specialize (Hl Hf).
  destruct (loop_answer _ l) as [[b n] | e |] eqn:El; [| |contradiction]; cbn [moved].
  - rewrite Hl. split; discriminate.
  - apply loop_answer_raises in El. subst e. split; [intros _; exact Hl | reflexivity].
Qed.

Lemma expression_accepts (pre l : list token) (w : world) :
  (exists self', expression (positioned pre l) w = (Ret (true, self'), w))
  <-> term_chain (map fst l) = true.
Proof.
  rewrite expression_positioned.
  destruct l as [|[ty v] l].
  { split; [intros [p H]; discriminate | discriminate]. }
  cbn [map fst]. rewrite term_chain_tail.
  destruct (is_value_type ty) eqn:Ev; cbn [andb].
  2:{ split; [intros [p H]; discriminate | discriminate]. }
  assert (Hl := loop_answer_verdict (S (List.length (pre ++ (ty, v) :: l))) l).
  assert (Hf : List.length l < S (List.length (pre ++ (ty, v) :: l)))
    by (rewrite length_app; simpl; lia).
  specialize (Hl Hf).
  destruct (loop_answer _ l) as [[b n] | e |]; [| |contradiction]; cbn [moved].
  - destruct Hl as [Hb _]. rewrite <- Hb.
    split; [intros [p H]; congruence | intros ->; eauto].
  - destruct Hl as [Hc Hi]. rewrite Hc.
    split; [intros [p H]; discriminate | discriminate].
Qed.

(** At a terminator the loop answers with the test of its two counters. *)
Lemma expression_loop_at_END (fuel : nat) (vc pc : Z) (pre post : list token)
  (semi : string) (w : world) :
  expression_loop (S fuel) vc pc (positioned pre ((END, semi) :: post)) w
  = (Ret (Z.eqb (vc - pc) 1, positioned pre ((END, semi) :: post)), w).
Proof.
  cbn [expression_loop]. rewrite curr_token_positioned, bind_ret. cbn [fst].
  change (type_eqb END END) with true. change (type_eqb END PLUS) with false.
  cbn [andb]. destruct (Z.eqb (vc - pc) 1); reflexivity.
Qed.

(** C8.  The expression check, on the tokens from the cursor on.  It
    accepts them exactly when they are k terms (identifier, literal or
    constant tokens) with k - 1 plus signs between them, k at least 1,
    followed by the terminator; at a terminator the loop answers with the
    test that its count of values is one more than its count of plus signs.
    It does not reject every other sequence.  When the tokens end before a
    terminator, after a term or after a plus sign or with no token at all,
    the check reads the type of a token that is not there and raises
    TypeError; it returns False exactly for the sequences of neither kind.
    So a trailing plus sign with nothing after it, as in [print a +], and
    an expression of no tokens are not rejected as invalid expressions:
    they end the session. *)
Theorem expression_raises_when_the_tokens_run_out (pre l : list token) (w : world) :
  ((exists self', expression (positioned pre l) w = (Ret (true, self'), w))
   <-> expression_shape (map fst l))
  /\ (expression (positioned pre l) w = (Raise TypeError, w) <-> cut_short (map fst l))
  /\ ((exists self', expression (positioned pre l) w = (Ret (false, self'), w))
      <-> ~ expression_shape (map fst l) /\ ~ cut_short (map fst l))
  /\ (forall fuel vc pc semi post,
        expression_loop (S fuel) vc pc (positioned pre ((END, semi) :: post)) w
        = (Ret (Z.eqb (vc - pc) 1, positioned pre ((END, semi) :: post)), w))
  /\ expression (positioned [(PRINT, "print")] [(ID, "a"); (PLUS, "+")]) w
     = (Raise TypeError, w)
  /\ expression (positioned [(PRINT, "print")] []) w = (Raise TypeError, w)
  /\ lexer "print a +" = Ret [(PRINT, "print"); (ID, "a"); (PLUS, "+")]
  /\ parse (new_Parser [(PRINT, "print"); (ID, "a"); (PLUS, "+")]) w = (Raise TypeError, w)
  /\ handed (snd (get_user_input ["xxxxxxx;;print a +"; "list;"] start))
     = ["xxxxxxx;"; "print a +"]
  /\ fst (get_user_input ["xxxxxxx;;print a +"; "list;"] start) = Raise TypeError.
Proof.
  assert (A : (exists self', expression (positioned pre l) w = (Ret (true, self'), w))
              <-> expression_shape (map fst l)).
  { rewrite expression_accepts, term_chain_shape. apply chain_shape_expression_shape. }
  assert (B : expression (positioned pre l) w = (Raise TypeError, w)
              <-> cut_short (map fst l)).
  { rewrite expression_raises. apply runs_out_cut_short. }
  split; [exact A|]. split; [exact B|]. split.
  - split.
    + intros [p H]. split; intro H'.
      * apply A in H'. destruct H' as [p' H']. congruence.
      * apply B in H'. congruence.
    + intros [Hs Hc].
      destruct (expression_cases pre l w) as [H | [[pre' [semi [post [H _]]]] | [H _]]].
      * exact H.
      * exfalso. apply Hs, A. eauto.
      * exfalso. apply Hc, B. exact H.
  - split; [intros; apply expression_loop_at_END|].
    split; [reflexivity|]. split; [reflexivity|]. split; [vm_compute; reflexivity|].
    split; [reflexivity|]. split; vm_compute; reflexivity.
Qed.

(** The cursor is on [a] of [print a +]: TypeError.  On [+] of
    [print + b ;], a leading plus sign: rejected.  On [a] of
    [print a + b ;]: accepted. *)
Lemma expression_raises_when_the_tokens_run_out_witness :
  expression (positioned [(PRINT, "print")] [(ID, "a"); (PLUS, "+")]) start
  = (Raise TypeError, start)
  /\ (exists self',
        expression (positioned [(PRINT, "print")] [(PLUS, "+"); (ID, "b"); (END, ";")]) start
        = (Ret (false, self'), start))
  /\ (exists self',
        expression (positioned [(PRINT, "print")]
                      [(ID, "a"); (PLUS, "+"); (ID, "b"); (END, ";")]) start
        = (Ret (true, self'), start)).
Proof.
  split; [|split].
  - apply (proj1 (proj2 (expression_raises_when_the_tokens_run_out
                           [(PRINT, "print")] [(ID, "a"); (PLUS, "+")] start))).
    right. exists [ID]. split; [discriminate|]. split; [reflexivity | now right].
  - apply (proj1 (proj2 (proj2 (expression_raises_when_the_tokens_run_out
                                  [(PRINT, "print")] [(PLUS, "+"); (ID, "b"); (END, ";")]
                                  start)))).
    split.
    + intros [[|t terms] [post [Hne [_ E]]]]; [contradiction|].
      destruct terms; discriminate E.
    + intros [E | [[|t terms] [Hne [Hv E]]]]; [discriminate E | contradiction|].
      cbn [forallb] in Hv. apply andb_true_iff in Hv. destruct Hv as [Ht _].
      destruct terms; destruct E as [E | E]; inversion E; subst t; discriminate Ht.
  - apply (proj1 (expression_raises_when_the_tokens_run_out
                    [(PRINT, "print")] [(ID, "a"); (PLUS, "+"); (ID, "b"); (END, ";")] start)).
    exists [ID; ID], []. split; [discriminate|]. split; reflexivity.
Defined.
